(** * Animation script of the Chaya Adamson site: a shallow embedding

    This development embeds [src/scripts/main.js] -- the loader
    [waitForGSAP], the CSS fallback, the [AnimationController] singleton and
    the top-level listeners of the script -- as state-passing functions over
    an explicit browser world, and proves the behavioural properties of its
    specification.

    Modelling choices.
    - JavaScript numbers are exact rationals ([Q]); the clock counts
      milliseconds in [Z].
    - The page is a list of nodes in document order; an element is its
      position in that list, so the result of a selector query never lists
      an element twice.
    - The animation engine is a table of tweens and a table of scroll
      triggers; a handle is an index into its table, [kill] sets a flag.
    - Closures are first-order data ([Handler], [TimerFn]); the variables a
      closure captures and mutates ([attempts], [hoverTween], [isScrolled],
      ...) live in a heap of cells, so two closures made by one call share
      their cells exactly as in the script.
    - An exception aborts the running function and keeps every effect made
      so far: a computation is [World -> Res A * World].
    - The log records the observable console output and DOM class
      mutations, each stamped with the time it happened.  It also records
      two kinds of ghost marks, which have no counterpart in the script and
      exist only so that "is invoked" can be stated: [Enter m] when the
      controller method [m] is entered, and [CallbackInvoked] when
      [checkGSAP] calls the callback it was given. *)

From Stdlib Require Import ZArith QArith List String Ascii Bool Arith Lia.
Import ListNotations.
Open Scope string_scope.
Open Scope list_scope.
Open Scope nat_scope.


(** ** Values *)

(** A property value of an object literal handed to the engine.
    [VByParity a b] is the function [(index) => index % 2 === 0 ? a : b]. *)
Inductive JsVal :=
| VNum (q : Q)
| VStr (s : string)
| VBool (b : bool)
| VByParity (even odd : Q).

(** An object literal: properties in the order they are written. *)
Definition Obj := list (string * JsVal).

Definition Q_eqb (a b : Q) : bool :=
  Z.eqb (Qnum a) (Qnum b) && Pos.eqb (Qden a) (Qden b).

Definition JsVal_eqb (a b : JsVal) : bool :=
  match a, b with
  | VNum p, VNum q => Q_eqb p q
  | VStr s, VStr t => String.eqb s t
  | VBool x, VBool y => Bool.eqb x y
  | VByParity p q, VByParity r s => Q_eqb p r && Q_eqb q s
  | _, _ => false
  end.

Fixpoint Obj_eqb (a b : Obj) : bool :=
  match a, b with
  | [], [] => true
  | (k, v) :: a', (k', v') :: b' =>
      String.eqb k k' && JsVal_eqb v v' && Obj_eqb a' b'
  | _, _ => false
  end.

Fixpoint prop (o : Obj) (k : string) : option JsVal :=
  match o with
  | [] => None
  | (k', v) :: o' => if String.eqb k k' then Some v else prop o' k
  end.

(** [Object.assign]-like merge used by the engines' [config]: the new
    properties override the old ones of the same name. *)
Definition obj_merge (old new : Obj) : Obj :=
  new ++ filter (fun kv => match prop new (fst kv) with
                           | Some _ => false | None => true end) old.

(** ** The document *)

Definition Elem := nat.

Record Node := {
  tag : string;
  classes : list string;
  parent : option Elem;
  nodeId : option string;
  href : option string
}.

Definition Document := list Node.

(** Simple selectors the script uses: [.c], [#i] and [a[href^="p"]]. *)
Inductive Compound :=
| ByClass (c : string)
| ById (i : string)
| ByHrefPrefix (t : string) (p : string).

(** [A B]: descendant combinator, ancestors first and the subject last. *)
Definition Complex := list Compound.

(** [s1, s2, ...]: a selector list. *)
Definition Selector := list Complex.

Definition has_class (n : Node) (c : string) : bool :=
  existsb (String.eqb c) (classes n).

Definition match_compound (n : Node) (c : Compound) : bool :=
  match c with
  | ByClass k => has_class n k
  | ById i => match nodeId n with Some j => String.eqb i j | None => false end
  | ByHrefPrefix t p =>
      String.eqb (tag n) t &&
      match href n with Some h => String.prefix p h | None => false end
  end.

(** Proper ancestors of an element, nearest first.  The fuel is the size of
    the document, which bounds the depth of any well-formed tree. *)
Fixpoint ancestors_fuel (fuel : nat) (d : Document) (e : Elem) : list Elem :=
  match fuel with
  | O => []
  | S f =>
      match nth_error d e with
      | Some n =>
          match parent n with
          | Some p => p :: ancestors_fuel f d p
          | None => []
          end
      | None => []
      end
  end.

Definition ancestors (d : Document) (e : Elem) : list Elem :=
  ancestors_fuel (List.length d) d e.

(** Does the chain [cs] (outermost first) match along the ancestors [anc]
    (nearest first)?  [cs] is consumed from its end. *)
Fixpoint match_chain (d : Document) (rev_cs : list Compound) (anc : list Elem)
  : bool :=
  match rev_cs with
  | [] => true
  | c :: rest =>
      match anc with
      | [] => false
      | a :: anc' =>
          match nth_error d a with
          | Some n =>
              (match_compound n c && match_chain d rest anc')
              || match_chain d rev_cs anc'
          | None => false
          end
      end
  end.

Definition match_complex (d : Document) (e : Elem) (cs : Complex) : bool :=
  match rev cs, nth_error d e with
  | subject :: rest, Some n =>
      match_compound n subject && match_chain d rest (ancestors d e)
  | _, _ => false
  end.

Definition matches (d : Document) (s : Selector) (e : Elem) : bool :=
  existsb (match_complex d e) s.

(** [document.querySelectorAll(s)]: the matching elements in document
    order. *)
Definition querySelectorAll (d : Document) (s : Selector) : list Elem :=
  filter (matches d s) (seq 0 (List.length d)).

(** [document.querySelector(s)]: the first match or [null]. *)
Definition querySelector (d : Document) (s : Selector) : option Elem :=
  hd_error (querySelectorAll d s).

(** [root.querySelectorAll(s)]: the matches among the descendants of
    [root]. *)
Definition querySelectorAllIn (d : Document) (root : Elem) (s : Selector)
  : list Elem :=
  filter (fun e => existsb (Nat.eqb root) (ancestors d e))
         (querySelectorAll d s).

Definition querySelectorIn (d : Document) (root : Elem) (s : Selector)
  : option Elem :=
  hd_error (querySelectorAllIn d root s).

(** [el.classList.add(c)] and [el.classList.remove(c)] on the class list of
    one node. *)
Definition classes_add (c : string) (n : Node) : Node :=
  {| tag := tag n;
     classes := if has_class n c then classes n else classes n ++ [c];
     parent := parent n; nodeId := nodeId n; href := href n |}.

Definition classes_remove (c : string) (n : Node) : Node :=
  {| tag := tag n;
     classes := filter (fun k => negb (String.eqb c k)) (classes n);
     parent := parent n; nodeId := nodeId n; href := href n |}.

Fixpoint update_nth {A} (i : nat) (f : A -> A) (l : list A) : list A :=
  match l, i with
  | [], _ => []
  | x :: l', O => f x :: l'
  | x :: l', S j => x :: update_nth j f l'
  end.

(** Children of [document.head] the script can add. *)
Inductive HeadNode :=
| StyleElement (textContent : string).

(** ** The animation engine *)

(** What a tween call is aimed at. *)
Inductive Targets :=
| TSelector (s : Selector)            (* a selector string *)
| TSelectors (l : list Selector)      (* an array of selector strings *)
| TElement (e : option Elem)          (* one element, or null *)
| TNodeList (l : list Elem).          (* a NodeList *)

Inductive TweenKind :=
| KSet                                  (* gsap.set *)
| KTo                                   (* gsap.to *)
| KTimeline                             (* gsap.timeline *)
| KTimelineTo (tl : nat) (position : option string).  (* tl.to *)

Record Tween := {
  tw_kind : TweenKind;
  tw_targets : Targets;
  tw_vars : Obj;
  tw_killed : bool
}.

(** A tween handle as the script holds it: [null] or a tween. *)
Definition TweenRef := option nat.

(** The animation started by an [onEnter] callback.  [EnterBatch] stands for
    the [elements] argument a batch passes to its callback. *)
Inductive EnterTargets :=
| EnterBatch
| EnterFixed (t : Targets).

Inductive TriggerKind :=
| TrBatch (s : Selector)                (* ScrollTrigger.batch(s, ...) *)
| TrCreate (trigger : Elem).            (* ScrollTrigger.create({trigger}) *)

Record Trigger := {
  tr_kind : TriggerKind;
  tr_start : string;
  tr_once : bool;
  tr_onEnter : EnterTargets * Obj;
  tr_killed : bool
}.

Inductive Plugin := ScrollTriggerPlugin | ScrollToPlugin.

Record Engine := {
  tweens : list Tween;
  triggers : list Trigger;
  plugins : list Plugin;
  gsapConfig : Obj;
  scrollTriggerConfig : Obj;
  refreshes : nat
}.

(** ** Closures, cells, listeners and timers *)

Definition Cell := nat.

Inductive CellVal :=
| CNum (n : Z)
| CBool (b : bool)
| CTween (t : TweenRef).

Inductive EventTarget :=
| OnWindow
| OnDocument
| OnElem (e : Elem).

(** The function values the script registers as event listeners. *)
Inductive Handler :=
| HCardEnter (card : Elem) (hoverTween : Cell)
| HCardLeave (card : Elem) (hoverTween : Cell)
| HBtnEnter (btn : Elem) (icon : option Elem) (buttonTween iconTween : Cell)
| HBtnLeave (btn : Elem) (icon : option Elem) (buttonTween iconTween : Cell)
| HScroll (header : Elem) (isScrolled : Cell)
| HAnchorClick (anchor : Elem)
| HResize
| HBeforeUnload
| HAstroPageLoad
| HInitialize.

Record Listener := {
  l_target : EventTarget;
  l_type : string;
  l_handler : Handler
}.

(** The function values the script hands to [setTimeout]. *)
Inductive TimerFn :=
| TCheckGSAP (attempts : Cell)
| TRefresh.

Record Timer := {
  t_id : nat;
  t_due : Z;
  t_fn : TimerFn
}.

Record Runtime := {
  heap : list CellVal;
  listeners : list Listener;
  timers : list Timer;
  nextTimer : nat
}.

(** ** The script's own state *)

Record Controller := {
  gsap : bool;                 (* this.gsap refers to the engine *)
  ScrollTrigger : bool;        (* this.ScrollTrigger refers to the plugin *)
  isInitialized : bool;
  cardHoverTweens : list (Elem * TweenRef)   (* a Map, in insertion order *)
}.

Record Script := {
  AnimationController : Controller;
  resizeTimeout : option nat;
  scrollIntoView : list Elem     (* smooth scrolls requested so far *)
}.

(** ** The environment *)

Record Globals := {
  g_gsap : bool;               (* window.gsap is defined *)
  g_ScrollTrigger : bool;      (* window.ScrollTrigger is defined *)
  g_ScrollToPlugin : bool      (* window.ScrollToPlugin is defined *)
}.

Record Env := {
  now : Z;                                   (* milliseconds *)
  globals : Z -> Globals;                    (* library globals over time *)
  registerThrows : Plugin -> option string;  (* does registerPlugin throw? *)
  matchMedia : option (string -> bool);      (* window.matchMedia *)
  pageYOffset : Q;
  scrollTop : Q;                             (* documentElement.scrollTop *)
  readyState : string
}.

Record Dom := {
  head : list HeadNode;
  body : Document
}.

Inductive Exn :=
| TypeError (msg : string)
| SyntaxError (msg : string)
| Thrown (msg : string).

Inductive Event :=
| ConsoleLog (msg : string)
| ConsoleWarn (msg : string) (err : option Exn)
| ClassListAdd (e : Elem) (c : string)
| ClassListRemove (e : Elem) (c : string)
| Uncaught (e : Exn)
| Enter (method : string)          (* ghost *)
| CallbackInvoked.                 (* ghost *)

Record World := {
  env : Env;
  dom : Dom;
  eng : Engine;
  rt : Runtime;
  app : Script;
  log : list (Z * Event)
}.

(** The world without its log. *)
Definition state_of (w : World) : Env * Dom * Engine * Runtime * Script :=
  (env w, dom w, eng w, rt w, app w).

(** ** Field updates *)

Definition set_env (f : Env -> Env) (w : World) : World :=
  {| env := f (env w); dom := dom w; eng := eng w; rt := rt w;
     app := app w; log := log w |}.

Definition set_dom (f : Dom -> Dom) (w : World) : World :=
  {| env := env w; dom := f (dom w); eng := eng w; rt := rt w;
     app := app w; log := log w |}.

Definition set_eng (f : Engine -> Engine) (w : World) : World :=
  {| env := env w; dom := dom w; eng := f (eng w); rt := rt w;
     app := app w; log := log w |}.

Definition set_rt (f : Runtime -> Runtime) (w : World) : World :=
  {| env := env w; dom := dom w; eng := eng w; rt := f (rt w);
     app := app w; log := log w |}.

Definition set_app (f : Script -> Script) (w : World) : World :=
  {| env := env w; dom := dom w; eng := eng w; rt := rt w;
     app := f (app w); log := log w |}.

Definition set_log (f : list (Z * Event) -> list (Z * Event)) (w : World)
  : World :=
  {| env := env w; dom := dom w; eng := eng w; rt := rt w;
     app := app w; log := f (log w) |}.

Definition with_now (t : Z) (e : Env) : Env :=
  {| now := t; globals := globals e; registerThrows := registerThrows e;
     matchMedia := matchMedia e; pageYOffset := pageYOffset e;
     scrollTop := scrollTop e; readyState := readyState e |}.

Definition with_scroll (y : Q) (e : Env) : Env :=
  {| now := now e; globals := globals e; registerThrows := registerThrows e;
     matchMedia := matchMedia e; pageYOffset := y;
     scrollTop := y; readyState := readyState e |}.

Definition with_readyState (s : string) (e : Env) : Env :=
  {| now := now e; globals := globals e; registerThrows := registerThrows e;
     matchMedia := matchMedia e; pageYOffset := pageYOffset e;
     scrollTop := scrollTop e; readyState := s |}.

Definition with_head (f : list HeadNode -> list HeadNode) (d : Dom) : Dom :=
  {| head := f (head d); body := body d |}.

Definition with_body (f : Document -> Document) (d : Dom) : Dom :=
  {| head := head d; body := f (body d) |}.

Definition with_tweens (f : list Tween -> list Tween) (g : Engine) : Engine :=
  {| tweens := f (tweens g); triggers := triggers g; plugins := plugins g;
     gsapConfig := gsapConfig g; scrollTriggerConfig := scrollTriggerConfig g;
     refreshes := refreshes g |}.

Definition with_triggers (f : list Trigger -> list Trigger) (g : Engine)
  : Engine :=
  {| tweens := tweens g; triggers := f (triggers g); plugins := plugins g;
     gsapConfig := gsapConfig g; scrollTriggerConfig := scrollTriggerConfig g;
     refreshes := refreshes g |}.

Definition with_plugins (f : list Plugin -> list Plugin) (g : Engine)
  : Engine :=
  {| tweens := tweens g; triggers := triggers g; plugins := f (plugins g);
     gsapConfig := gsapConfig g; scrollTriggerConfig := scrollTriggerConfig g;
     refreshes := refreshes g |}.

Definition with_gsapConfig (f : Obj -> Obj) (g : Engine) : Engine :=
  {| tweens := tweens g; triggers := triggers g; plugins := plugins g;
     gsapConfig := f (gsapConfig g);
     scrollTriggerConfig := scrollTriggerConfig g;
     refreshes := refreshes g |}.

Definition with_scrollTriggerConfig (f : Obj -> Obj) (g : Engine) : Engine :=
  {| tweens := tweens g; triggers := triggers g; plugins := plugins g;
     gsapConfig := gsapConfig g;
     scrollTriggerConfig := f (scrollTriggerConfig g);
     refreshes := refreshes g |}.

Definition with_refreshes (f : nat -> nat) (g : Engine) : Engine :=
  {| tweens := tweens g; triggers := triggers g; plugins := plugins g;
     gsapConfig := gsapConfig g; scrollTriggerConfig := scrollTriggerConfig g;
     refreshes := f (refreshes g) |}.

Definition with_heap (f : list CellVal -> list CellVal) (r : Runtime)
  : Runtime :=
  {| heap := f (heap r); listeners := listeners r; timers := timers r;
     nextTimer := nextTimer r |}.

Definition with_listeners (f : list Listener -> list Listener) (r : Runtime)
  : Runtime :=
  {| heap := heap r; listeners := f (listeners r); timers := timers r;
     nextTimer := nextTimer r |}.

Definition with_timers (f : list Timer -> list Timer) (r : Runtime)
  : Runtime :=
  {| heap := heap r; listeners := listeners r; timers := f (timers r);
     nextTimer := nextTimer r |}.

Definition with_nextTimer (n : nat) (r : Runtime) : Runtime :=
  {| heap := heap r; listeners := listeners r; timers := timers r;
     nextTimer := n |}.

Definition with_controller (f : Controller -> Controller) (s : Script)
  : Script :=
  {| AnimationController := f (AnimationController s);
     resizeTimeout := resizeTimeout s; scrollIntoView := scrollIntoView s |}.

Definition with_resizeTimeout (t : option nat) (s : Script) : Script :=
  {| AnimationController := AnimationController s;
     resizeTimeout := t; scrollIntoView := scrollIntoView s |}.

Definition with_scrollIntoView (f : list Elem -> list Elem) (s : Script)
  : Script :=
  {| AnimationController := AnimationController s;
     resizeTimeout := resizeTimeout s;
     scrollIntoView := f (scrollIntoView s) |}.

Definition with_gsap (b : bool) (c : Controller) : Controller :=
  {| gsap := b; ScrollTrigger := ScrollTrigger c;
     isInitialized := isInitialized c;
     cardHoverTweens := cardHoverTweens c |}.

Definition with_ScrollTrigger (b : bool) (c : Controller) : Controller :=
  {| gsap := gsap c; ScrollTrigger := b;
     isInitialized := isInitialized c;
     cardHoverTweens := cardHoverTweens c |}.

Definition with_isInitialized (b : bool) (c : Controller) : Controller :=
  {| gsap := gsap c; ScrollTrigger := ScrollTrigger c;
     isInitialized := b;
     cardHoverTweens := cardHoverTweens c |}.

Definition with_cardHoverTweens
  (f : list (Elem * TweenRef) -> list (Elem * TweenRef)) (c : Controller)
  : Controller :=
  {| gsap := gsap c; ScrollTrigger := ScrollTrigger c;
     isInitialized := isInitialized c;
     cardHoverTweens := f (cardHoverTweens c) |}.

(** Shorthands for what the script reads. *)
Definition ctl (w : World) : Controller := AnimationController (app w).
Definition clock (w : World) : Z := now (env w).
Definition document (w : World) : Document := body (dom w).

(** ** Computations *)

Inductive Res (A : Type) :=
| Ok (a : A)
| Throw (e : Exn).

Arguments Ok {A} a.
Arguments Throw {A} e.

Definition M (A : Type) := World -> Res A * World.

Definition ret {A} (a : A) : M A := fun w => (Ok a, w).

Definition bind {A B} (m : M A) (k : A -> M B) : M B :=
  fun w =>
    match m w with
    | (Ok a, w') => k a w'
    | (Throw e, w') => (Throw e, w')
    end.

Definition throw {A} (e : Exn) : M A := fun w => (Throw e, w).

(** [try { m } catch (error) { h error }] *)
Definition try_catch {A} (m : M A) (h : Exn -> M A) : M A :=
  fun w =>
    match m w with
    | (Ok a, w') => (Ok a, w')
    | (Throw e, w') => h e w'
    end.

Declare Scope js_scope.
Delimit Scope js_scope with js.
Notation "x <- m ;; k" := (bind m (fun x => k))
  (at level 61, m at next level, right associativity) : js_scope.
Notation "m ;; k" := (bind m (fun _ => k))
  (at level 61, right associativity) : js_scope.
Open Scope js_scope.

Definition gets {A} (f : World -> A) : M A := fun w => (Ok (f w), w).
Definition modify (f : World -> World) : M unit := fun w => (Ok tt, f w).

(** Append an entry, stamped with the current time, to the log. *)
Definition emit (e : Event) : M unit :=
  modify (fun w => set_log (fun l => l ++ [(clock w, e)]) w).

Definition console_log (msg : string) : M unit := emit (ConsoleLog msg).
Definition console_warn (msg : string) (err : option Exn) : M unit :=
  emit (ConsoleWarn msg err).

Fixpoint forEach_from {A} (i : nat) (l : list A) (f : A -> nat -> M unit)
  : M unit :=
  match l with
  | [] => ret tt
  | x :: l' => f x i ;; forEach_from (S i) l' f
  end.

(** [l.forEach((x, index) => f x index)] *)
Definition forEach {A} (l : list A) (f : A -> nat -> M unit) : M unit :=
  forEach_from 0 l f.

(** *** Closure variables *)

Definition alloc (v : CellVal) : M Cell :=
  fun w => (Ok (List.length (heap (rt w))),
            set_rt (with_heap (fun h => h ++ [v])) w).

Definition read (c : Cell) : M CellVal :=
  gets (fun w => nth c (heap (rt w)) (CTween None)).

Definition write (c : Cell) (v : CellVal) : M unit :=
  modify (set_rt (with_heap (update_nth c (fun _ => v)))).

Definition read_num (c : Cell) : M Z :=
  v <- read c ;; ret (match v with CNum n => n | _ => 0%Z end).

Definition read_bool (c : Cell) : M bool :=
  v <- read c ;; ret (match v with CBool b => b | _ => false end).

Definition read_tween (c : Cell) : M TweenRef :=
  v <- read c ;; ret (match v with CTween t => t | _ => None end).

(** *** Timers and listeners *)

Definition setTimeout (fn : TimerFn) (delay : Z) : M nat :=
  fun w =>
    let id := nextTimer (rt w) in
    (Ok id,
     set_rt (fun r =>
       with_nextTimer (S id)
         (with_timers (fun q => q ++ [{| t_id := id;
                                         t_due := (clock w + delay)%Z;
                                         t_fn := fn |}]) r)) w).

(** [clearTimeout(id)]; an undefined or stale id is ignored. *)
Definition clearTimeout (id : option nat) : M unit :=
  match id with
  | Some i =>
      modify (set_rt (with_timers
                        (filter (fun t => negb (Nat.eqb (t_id t) i)))))
  | None => ret tt
  end.

Definition addEventListener (t : EventTarget) (ty : string) (h : Handler)
  : M unit :=
  modify (set_rt (with_listeners
    (fun ls => ls ++ [{| l_target := t; l_type := ty; l_handler := h |}]))).

(** *** The engine's interface *)

Definition new_tween (k : TweenKind) (t : Targets) (v : Obj) : M nat :=
  fun w =>
    (Ok (List.length (tweens (eng w))),
     set_eng (with_tweens (fun l =>
       l ++ [{| tw_kind := k; tw_targets := t; tw_vars := v;
                tw_killed := false |}])) w).

Definition kill_tween (t : Tween) : Tween :=
  {| tw_kind := tw_kind t; tw_targets := tw_targets t;
     tw_vars := tw_vars t; tw_killed := true |}.

Definition kill_trigger (t : Trigger) : Trigger :=
  {| tr_kind := tr_kind t; tr_start := tr_start t; tr_once := tr_once t;
     tr_onEnter := tr_onEnter t; tr_killed := true |}.

(** [tween.kill()] *)
Definition tween_kill (id : nat) : M unit :=
  modify (set_eng (with_tweens (update_nth id kill_tween))).

(** The receiver [this.gsap] of a method call: calling a method of [null]
    is a TypeError. *)
Definition this_gsap : M unit :=
  g <- gets (fun w => gsap (ctl w)) ;;
  if g then ret tt
  else throw (TypeError "Cannot read properties of null").

(** [this.gsap.set(t, v)] *)
Definition gsap_set (t : Targets) (v : Obj) : M unit :=
  this_gsap ;; _ <- new_tween KSet t v ;; ret tt.

(** [this.gsap.to(t, v)] *)
Definition gsap_to (t : Targets) (v : Obj) : M nat :=
  this_gsap ;; new_tween KTo t v.

(** [this.gsap.timeline(v)] *)
Definition gsap_timeline (v : Obj) : M nat :=
  this_gsap ;; new_tween KTimeline (TElement None) v.

(** [tl.to(t, v, position)] *)
Definition timeline_to (tl : nat) (t : Targets) (v : Obj)
  (position : option string) : M unit :=
  _ <- new_tween (KTimelineTo tl position) t v ;; ret tt.

(** [this.gsap.config(v)] *)
Definition gsap_config (v : Obj) : M unit :=
  this_gsap ;;
  modify (set_eng (with_gsapConfig (fun c => obj_merge c v))).

(** [this.gsap.killTweensOf("*")] *)
Definition gsap_killTweensOf_all : M unit :=
  modify (set_eng (with_tweens (map kill_tween))).

(** [window.gsap.registerPlugin(p)] *)
Definition registerPlugin (p : Plugin) : M unit :=
  r <- gets (fun w => registerThrows (env w) p) ;;
  match r with
  | Some msg => throw (Thrown msg)
  | None => modify (set_eng (with_plugins (fun l => l ++ [p])))
  end.

(** [this.ScrollTrigger.config(v)] *)
Definition ScrollTrigger_config (v : Obj) : M unit :=
  modify (set_eng (with_scrollTriggerConfig (fun c => obj_merge c v))).

Definition new_trigger (k : TriggerKind) (start : string) (once : bool)
  (onEnter : EnterTargets * Obj) : M unit :=
  modify (set_eng (with_triggers (fun l =>
    l ++ [{| tr_kind := k; tr_start := start; tr_once := once;
             tr_onEnter := onEnter; tr_killed := false |}]))).

(** [this.ScrollTrigger.batch(s, { onEnter, start, once })] *)
Definition ScrollTrigger_batch (s : Selector) (onEnter : Obj)
  (start : string) (once : bool) : M unit :=
  new_trigger (TrBatch s) start once (EnterBatch, onEnter).

(** [this.ScrollTrigger.create({ trigger, start, once, onEnter })] *)
Definition ScrollTrigger_create (trigger : Elem) (start : string)
  (once : bool) (onEnter : Targets * Obj) : M unit :=
  new_trigger (TrCreate trigger) start once
    (EnterFixed (fst onEnter), snd onEnter).

(** [this.ScrollTrigger.killAll()] *)
Definition ScrollTrigger_killAll : M unit :=
  modify (set_eng (with_triggers (map kill_trigger))).

(** [this.ScrollTrigger.refresh()] *)
Definition ScrollTrigger_refresh : M unit :=
  modify (set_eng (with_refreshes S)).

(** ** The script: loader *)

(** The selector strings the script uses. *)
Definition cls (c : string) : Complex := [ByClass c].

(** ['.hero-title, .hero-subtitle, .section-title, .card, .text-large'] *)
Definition sel_primary : Selector :=
  [cls "hero-title"; cls "hero-subtitle"; cls "section-title"; cls "card";
   cls "text-large"].
(** ['.hero-divider, .section-divider'] *)
Definition sel_dividers : Selector := [cls "hero-divider"; cls "section-divider"].
(** ['.section-title, .text-large'] *)
Definition sel_titles_text : Selector := [cls "section-title"; cls "text-large"].
(** ['.hero-content .btn'] *)
Definition sel_hero_buttons : Selector := [[ByClass "hero-content"; ByClass "btn"]].
(** ['a[href^="#"]'] *)
Definition sel_anchors : Selector := [[ByHrefPrefix "a" "#"]].
(** ['.c'] *)
Definition sel (c : string) : Selector := [cls c].

Definition window_globals : M Globals :=
  gets (fun w => globals (env w) (clock w)).

Definition maxAttempts : Z := 50.

(** The text of the fallback stylesheet. *)
Definition fallbackCSS : string := "
      .hero-title, .hero-subtitle, .section-title, .card, .text-large {
        animation: fadeInUp 1s ease-out forwards;
      }
      .hero-divider, .section-divider {
        animation: scaleIn 0.8s ease-out forwards;
      }
      @keyframes fadeInUp {
        from { opacity: 0; transform: translateY(30px); }
        to { opacity: 1; transform: translateY(0); }
      }
      @keyframes scaleIn {
        from { transform: scaleX(0); }
        to { transform: scaleX(1); }
      }
    ".

Definition initCSS3Fallbacks : M unit :=
  modify (set_dom (with_head (fun h => h ++ [StyleElement fallbackCSS]))).

(** A call of the callback handed to [waitForGSAP], with its ghost mark. *)
Definition invoke (callback : M unit) : M unit :=
  emit CallbackInvoked ;; callback.

Definition msg_loaded : string := "🎨 GSAP loaded successfully!".
Definition msg_plugin_failed : string :=
  "Plugin registration failed, continuing with basic GSAP:".
Definition msg_load_failed : string :=
  "GSAP failed to load after 5 seconds. Using CSS fallbacks.".
Definition msg_initialized : string :=
  "✅ Animations initialized successfully".

(** The two registration statements that open the [try] block of
    [checkGSAP]. *)
Definition register_plugins (g : Globals) : M unit :=
  registerPlugin ScrollTriggerPlugin ;;
  if g_ScrollToPlugin g then registerPlugin ScrollToPlugin else ret tt.

(** The inner function [checkGSAP] of [waitForGSAP]; [attempts] is the cell
    of the captured counter.  Re-arming the poll is a timer on the queue. *)
Definition checkGSAP (callback : M unit) (attempts : Cell) : M unit :=
  a <- read_num attempts ;;
  write attempts (CNum (a + 1)) ;;
  g <- window_globals ;;
  if g_gsap g && g_ScrollTrigger g then
    console_log msg_loaded ;;
    try_catch
      (register_plugins g ;;
       invoke callback)
      (fun error =>
         console_warn msg_plugin_failed (Some error) ;;
         invoke callback)
  else
    a' <- read_num attempts ;;
    if (a' <? maxAttempts)%Z then
      _ <- setTimeout (TCheckGSAP attempts) 100 ;; ret tt
    else
      console_warn msg_load_failed None ;;
      initCSS3Fallbacks.

Definition waitForGSAP (callback : M unit) : M unit :=
  attempts <- alloc (CNum 0) ;;
  checkGSAP callback attempts.

(** ** The script: AnimationController *)

Definition set_this_gsap (b : bool) : M unit :=
  modify (set_app (with_controller (with_gsap b))).
Definition set_this_ScrollTrigger (b : bool) : M unit :=
  modify (set_app (with_controller (with_ScrollTrigger b))).
Definition set_this_isInitialized (b : bool) : M unit :=
  modify (set_app (with_controller (with_isInitialized b))).
Definition this_ScrollTrigger : M bool :=
  gets (fun w => ScrollTrigger (ctl w)).

Definition reducedMotionQuery : string := "(prefers-reduced-motion: reduce)".

Definition prefersReducedMotion : M bool :=
  emit (Enter "prefersReducedMotion") ;;
  mm <- gets (fun w => matchMedia (env w)) ;;
  ret (match mm with
       | Some media => media reducedMotionQuery
       | None => false
       end).

Definition initSimpleAnimations : M unit :=
  emit (Enter "initSimpleAnimations") ;;
  elements <- gets (fun w => querySelectorAll (document w) sel_primary) ;;
  gsap_set (TNodeList elements) [("opacity", VNum 0); ("y", VNum 20)] ;;
  _ <- gsap_to (TNodeList elements)
         [("opacity", VNum 1); ("y", VNum 0); ("duration", VNum 0.8);
          ("stagger", VNum 0.1); ("ease", VStr "power2.out")] ;;
  ret tt.

Definition setInitialStates : M unit :=
  emit (Enter "setInitialStates") ;;
  gsap_set (TSelectors [sel "hero-title"; sel "hero-subtitle";
                        sel "section-title"; sel "card"; sel "text-large"])
           [("opacity", VNum 0); ("y", VNum 60)] ;;
  gsap_set (TSelector sel_dividers) [("scaleX", VNum 0)].

Definition animateHero : M unit :=
  emit (Enter "animateHero") ;;
  heroTitle <- gets (fun w => querySelector (document w) (sel "hero-title")) ;;
  heroSubtitle <-
    gets (fun w => querySelector (document w) (sel "hero-subtitle")) ;;
  heroDivider <-
    gets (fun w => querySelector (document w) (sel "hero-divider")) ;;
  heroButtons <-
    gets (fun w => querySelectorAll (document w) sel_hero_buttons) ;;
  match heroTitle with
  | None => ret tt
  | Some _ =>
      tl <- gsap_timeline [("delay", VNum 0.5)] ;;
      timeline_to tl (TElement heroTitle)
        [("opacity", VNum 1); ("y", VNum 0); ("duration", VNum 1.5);
         ("ease", VStr "back.out(1.7)")] None ;;
      timeline_to tl (TElement heroSubtitle)
        [("opacity", VNum 1); ("y", VNum 0); ("duration", VNum 1.2);
         ("ease", VStr "power2.out")] (Some "-=1") ;;
      timeline_to tl (TElement heroDivider)
        [("scaleX", VNum 1); ("duration", VNum 0.8);
         ("ease", VStr "power2.out")] (Some "-=0.6") ;;
      timeline_to tl (TNodeList heroButtons)
        [("opacity", VNum 1); ("y", VNum 0); ("duration", VNum 0.8);
         ("ease", VStr "power2.out"); ("stagger", VNum 0.1)]
        (Some "-=0.4") ;;
      floatingElements <-
        gets (fun w =>
                querySelectorAll (document w) (sel "hero-floating-element")) ;;
      forEach floatingElements (fun element index =>
        gsap_set (TElement (Some element)) [("opacity", VNum 0.1)] ;;
        _ <- gsap_to (TElement (Some element))
               [("opacity", VNum 0.15); ("duration", VNum 2);
                ("delay", VNum (1 + inject_Z (Z.of_nat index) * 0.3))] ;;
        _ <- gsap_to (TElement (Some element))
               [("y", VNum (-20)); ("duration", VNum 4);
                ("ease", VStr "power1.inOut"); ("yoyo", VBool true);
                ("repeat", VNum (-1))] ;;
        ret tt)
  end.

(** The tween an [onEnter] callback of a section batch starts. *)
Definition sectionTitleEnter : Obj :=
  [("opacity", VNum 1); ("y", VNum 0); ("duration", VNum 1.2);
   ("ease", VStr "power2.out"); ("stagger", VNum 0.1)].
Definition textLargeEnter : Obj :=
  [("opacity", VNum 1); ("y", VNum 0); ("duration", VNum 1);
   ("ease", VStr "power2.out"); ("stagger", VNum 0.1)].
Definition sectionDividerEnter : Obj :=
  [("scaleX", VNum 1); ("duration", VNum 0.8); ("ease", VStr "power2.out")].
Definition missionEnter : Obj :=
  [("opacity", VNum 1); ("y", VNum 0); ("scale", VNum 1);
   ("duration", VNum 1.5); ("ease", VStr "back.out(1.7)")].

(** The immediate batch that replaces the section reveals. *)
Definition sectionsFallback : Obj :=
  [("opacity", VNum 1); ("y", VNum 0); ("duration", VNum 1);
   ("stagger", VNum 0.2); ("delay", VNum 1)].

Definition animateSections : M unit :=
  emit (Enter "animateSections") ;;
  st <- this_ScrollTrigger ;;
  if negb st then
    _ <- gsap_to (TSelector sel_titles_text) sectionsFallback ;;
    ret tt
  else
    ScrollTrigger_batch (sel "section-title") sectionTitleEnter
                        "top 85%" true ;;
    ScrollTrigger_batch (sel "text-large") textLargeEnter "top 90%" true ;;
    ScrollTrigger_batch (sel "section-divider") sectionDividerEnter
                        "top 85%" true ;;
    missionContent <-
      gets (fun w => querySelector (document w) (sel "mission-content")) ;;
    match missionContent with
    | Some mc =>
        ScrollTrigger_create mc "top 80%" true
          (TElement (Some mc), missionEnter)
    | None => ret tt
    end.

Definition cardsFallback : Obj :=
  [("opacity", VNum 1); ("y", VNum 0); ("duration", VNum 1);
   ("stagger", VNum 0.2); ("delay", VNum 1.5)].
Definition cardsEnter : Obj :=
  [("opacity", VNum 1); ("y", VNum 0); ("duration", VNum 1.2);
   ("ease", VStr "power2.out"); ("stagger", VNum 0.15)].
Definition cardHoverIn : Obj :=
  [("scale", VNum 1.02); ("y", VNum (-3)); ("duration", VNum 0.2);
   ("ease", VStr "power1.out"); ("overwrite", VStr "auto")].
Definition cardHoverOut : Obj :=
  [("scale", VNum 1); ("y", VNum 0); ("duration", VNum 0.2);
   ("ease", VStr "power1.out"); ("overwrite", VStr "auto")].

(** [map.set(k, v)] on a Map kept in insertion order. *)
Fixpoint map_set {V} (k : Elem) (v : V) (m : list (Elem * V))
  : list (Elem * V) :=
  match m with
  | [] => [(k, v)]
  | (k', v') :: m' =>
      if Nat.eqb k k' then (k, v) :: m' else (k', v') :: map_set k v m'
  end.

Definition cardHoverTweens_set (card : Elem) (t : TweenRef) : M unit :=
  modify (set_app (with_controller (with_cardHoverTweens (map_set card t)))).

Definition kill_if_set (t : TweenRef) : M unit :=
  match t with
  | Some id => tween_kill id
  | None => ret tt
  end.

(** The [mouseenter] listener of a card. *)
Definition card_mouseenter (card : Elem) (hoverTween : Cell) : M unit :=
  old <- read_tween hoverTween ;;
  kill_if_set old ;;
  t <- gsap_to (TElement (Some card)) cardHoverIn ;;
  write hoverTween (CTween (Some t)) ;;
  cardHoverTweens_set card (Some t).

(** The [mouseleave] listener of a card. *)
Definition card_mouseleave (card : Elem) (hoverTween : Cell) : M unit :=
  old <- read_tween hoverTween ;;
  kill_if_set old ;;
  t <- gsap_to (TElement (Some card)) cardHoverOut ;;
  write hoverTween (CTween (Some t)) ;;
  cardHoverTweens_set card (Some t).

(** The function [animateCards] applies to each card: a fresh [hoverTween]
    variable and the two listeners that share it. *)
Definition bind_card_hover (card : Elem) : M unit :=
  hoverTween <- alloc (CTween None) ;;
  addEventListener (OnElem card) "mouseenter"
                   (HCardEnter card hoverTween) ;;
  addEventListener (OnElem card) "mouseleave"
                   (HCardLeave card hoverTween).

Definition animateCards : M unit :=
  emit (Enter "animateCards") ;;
  st <- this_ScrollTrigger ;;
  (if negb st then
     _ <- gsap_to (TSelector (sel "card")) cardsFallback ;; ret tt
   else
     ScrollTrigger_batch (sel "card") cardsEnter "top 85%" true) ;;
  cards <- gets (fun w => querySelectorAll (document w) (sel "card")) ;;
  forEach cards (fun card index => bind_card_hover card).

Definition btnHoverIn : Obj :=
  [("scale", VNum 1.05); ("duration", VNum 0.2);
   ("ease", VStr "power1.out"); ("overwrite", VStr "auto")].
Definition btnHoverOut : Obj :=
  [("scale", VNum 1); ("duration", VNum 0.2);
   ("ease", VStr "power1.out"); ("overwrite", VStr "auto")].
Definition iconHoverIn : Obj :=
  [("x", VNum 5); ("duration", VNum 0.2);
   ("ease", VStr "power1.out"); ("overwrite", VStr "auto")].
Definition iconHoverOut : Obj :=
  [("x", VNum 0); ("duration", VNum 0.2);
   ("ease", VStr "power1.out"); ("overwrite", VStr "auto")].

(** The body shared by the two listeners of a button: they differ in the
    object literals only. *)
Definition btn_hover (btnVars iconVars : Obj) (btn : Elem)
  (icon : option Elem) (buttonTween iconTween : Cell) : M unit :=
  oldB <- read_tween buttonTween ;;
  kill_if_set oldB ;;
  oldI <- read_tween iconTween ;;
  kill_if_set oldI ;;
  t <- gsap_to (TElement (Some btn)) btnVars ;;
  write buttonTween (CTween (Some t)) ;;
  match icon with
  | Some i =>
      ti <- gsap_to (TElement (Some i)) iconVars ;;
      write iconTween (CTween (Some ti))
  | None => ret tt
  end.

Definition btn_mouseenter := btn_hover btnHoverIn iconHoverIn.
Definition btn_mouseleave := btn_hover btnHoverOut iconHoverOut.

(** The function [animateButtons] applies to each button. *)
Definition bind_button_hover (btn : Elem) : M unit :=
  icon <- gets (fun w => querySelectorIn (document w) btn (sel "btn-icon")) ;;
  buttonTween <- alloc (CTween None) ;;
  iconTween <- alloc (CTween None) ;;
  addEventListener (OnElem btn) "mouseenter"
                   (HBtnEnter btn icon buttonTween iconTween) ;;
  addEventListener (OnElem btn) "mouseleave"
                   (HBtnLeave btn icon buttonTween iconTween).

Definition animateButtons : M unit :=
  emit (Enter "animateButtons") ;;
  btns <- gets (fun w => querySelectorAll (document w) (sel "btn")) ;;
  forEach btns (fun btn _ => bind_button_hover btn).

Definition animateFloatingElements : M unit :=
  emit (Enter "animateFloatingElements") ;;
  floatingElements <-
    gets (fun w =>
            querySelectorAll (document w) (sel "section-floating-element")) ;;
  forEach floatingElements (fun element index =>
    gsap_set (TElement (Some element)) [("opacity", VNum 0.1)] ;;
    _ <- gsap_to (TElement (Some element))
           [("y", VNum (-15)); ("x", VNum 5);
            ("duration", VNum (4 + inject_Z (Z.of_nat index)));
            ("ease", VStr "power1.inOut"); ("yoyo", VBool true);
            ("repeat", VNum (-1))] ;;
    ret tt).

(** [el.classList.add(c)] *)
Definition classList_add (e : Elem) (c : string) : M unit :=
  modify (set_dom (with_body (update_nth e (classes_add c)))) ;;
  emit (ClassListAdd e c).

(** [el.classList.remove(c)] *)
Definition classList_remove (e : Elem) (c : string) : M unit :=
  modify (set_dom (with_body (update_nth e (classes_remove c)))) ;;
  emit (ClassListRemove e c).

(** [window.pageYOffset || document.documentElement.scrollTop]: the left
    operand unless it is zero. *)
Definition scrollOffset (w : World) : Q :=
  if Qeq_bool (pageYOffset (env w)) 0 then scrollTop (env w)
  else pageYOffset (env w).

(** [scrollTop > 50] *)
Definition past_threshold (y : Q) : bool := negb (Qle_bool y 50).

(** The closure [handleScroll] of [initHeaderScrollEffect]. *)
Definition handleScroll (header : Elem) (isScrolled : Cell) : M unit :=
  y <- gets scrollOffset ;;
  let shouldBeScrolled := past_threshold y in
  cur <- read_bool isScrolled ;;
  if negb (Bool.eqb shouldBeScrolled cur) then
    write isScrolled (CBool shouldBeScrolled) ;;
    now_scrolled <- read_bool isScrolled ;;
    if now_scrolled then classList_add header "scrolled"
    else classList_remove header "scrolled"
  else ret tt.

Definition initHeaderScrollEffect : M unit :=
  emit (Enter "initHeaderScrollEffect") ;;
  header <- gets (fun w => querySelector (document w) (sel "site-header")) ;;
  match header with
  | None => ret tt
  | Some header =>
      isScrolled <- alloc (CBool false) ;;
      addEventListener OnWindow "scroll" (HScroll header isScrolled) ;;
      handleScroll header isScrolled
  end.

Definition philosophyLineInit : Obj :=
  [("opacity", VNum 0); ("scaleY", VNum 0);
   ("transformOrigin", VStr "top center")].
Definition philosophyItemsInit : Obj :=
  [("opacity", VNum 0); ("y", VNum 60); ("x", VByParity (-40) 40)].
Definition philosophyLineFallback : Obj :=
  [("opacity", VNum 1); ("scaleY", VNum 1); ("duration", VNum 1.5);
   ("ease", VStr "power2.out"); ("delay", VNum 0.5)].
Definition philosophyItemsFallback : Obj :=
  [("opacity", VNum 1); ("y", VNum 0); ("x", VNum 0); ("duration", VNum 1);
   ("stagger", VNum 0.3); ("ease", VStr "power2.out"); ("delay", VNum 1)].
Definition philosophyLineEnter : Obj :=
  [("opacity", VNum 1); ("scaleY", VNum 1); ("duration", VNum 1.5);
   ("ease", VStr "power2.out")].
Definition philosophyItemEnter (index : nat) : Obj :=
  [("opacity", VNum 1); ("y", VNum 0); ("x", VNum 0); ("duration", VNum 1.2);
   ("ease", VStr "back.out(1.7)");
   ("delay", VNum (inject_Z (Z.of_nat index) * 0.1))].

Definition animatePhilosophySection : M unit :=
  emit (Enter "animatePhilosophySection") ;;
  philosophySection <-
    gets (fun w => querySelector (document w) (sel "philosophy-section")) ;;
  match philosophySection with
  | None => ret tt
  | Some section =>
      line <- gets (fun w => querySelectorIn (document w) section
                               (sel "philosophy-line")) ;;
      items <- gets (fun w => querySelectorAllIn (document w) section
                                (sel "philosophy-item")) ;;
      match line, items with
      | None, _ => ret tt
      | Some _, [] => ret tt
      | Some ln, _ :: _ =>
          gsap_set (TElement (Some ln)) philosophyLineInit ;;
          gsap_set (TNodeList items) philosophyItemsInit ;;
          st <- this_ScrollTrigger ;;
          if negb st then
            _ <- gsap_to (TElement (Some ln)) philosophyLineFallback ;;
            _ <- gsap_to (TNodeList items) philosophyItemsFallback ;;
            ret tt
          else
            ScrollTrigger_create section "top 80%" true
              (TElement (Some ln), philosophyLineEnter) ;;
            forEach items (fun item index =>
              ScrollTrigger_create item "top 85%" true
                (TElement (Some item), philosophyItemEnter index))
      end
  end.

Definition initSmoothScrolling : M unit :=
  emit (Enter "initSmoothScrolling") ;;
  anchors <- gets (fun w => querySelectorAll (document w) sel_anchors) ;;
  forEach anchors (fun anchor _ =>
    addEventListener (OnElem anchor) "click" (HAnchorClick anchor)).

(** The [click] listener of a same-page anchor.  The fragment of the link
    is read as an ID selector; the bare fragment ["#"] is not a selector. *)
Definition anchor_click (anchor : Elem) : M unit :=
  h <- gets (fun w => match nth_error (document w) anchor with
                      | Some n => href n
                      | None => None
                      end) ;;
  match h with
  | Some (String _ "") | Some "" | None =>
      throw (SyntaxError "not a valid selector")
  | Some (String _ fragment) =>
      target <- gets (fun w => querySelector (document w) [[ById fragment]]) ;;
      match target with
      | Some t => modify (set_app (with_scrollIntoView (fun l => l ++ [t])))
      | None => ret tt
      end
  end.

Definition refresh : M unit :=
  emit (Enter "refresh") ;;
  st <- this_ScrollTrigger ;;
  if st then ScrollTrigger_refresh else ret tt.

Definition cleanup : M unit :=
  emit (Enter "cleanup") ;;
  m <- gets (fun w => cardHoverTweens (ctl w)) ;;
  forEach m (fun entry _ => kill_if_set (snd entry)) ;;
  modify (set_app (with_controller (with_cardHoverTweens (fun _ => [])))) ;;
  st <- this_ScrollTrigger ;;
  (if st then ScrollTrigger_killAll else ret tt) ;;
  g <- gets (fun w => gsap (ctl w)) ;;
  if g then gsap_killTweensOf_all else ret tt.

Definition initFullAnimations : M unit :=
  emit (Enter "initFullAnimations") ;;
  setInitialStates ;;
  animateHero ;;
  animateSections ;;
  animateCards ;;
  animateButtons ;;
  animateFloatingElements ;;
  initHeaderScrollEffect ;;
  animatePhilosophySection.

Definition init : M unit :=
  emit (Enter "init") ;;
  initialized <- gets (fun w => isInitialized (ctl w)) ;;
  if initialized then ret tt
  else
    g <- window_globals ;;
    set_this_gsap (g_gsap g) ;;
    set_this_ScrollTrigger (g_ScrollTrigger g) ;;
    gsap_config [("force3D", VBool true); ("nullTargetWarn", VBool false)] ;;
    st <- this_ScrollTrigger ;;
    (if st then ScrollTrigger_config [("ignoreMobileResize", VBool true)]
     else ret tt) ;;
    reduced <- prefersReducedMotion ;;
    (if reduced then initSimpleAnimations else initFullAnimations) ;;
    set_this_isInitialized true ;;
    console_log msg_initialized.

(** ** The script: top level *)

(** The callback [initialize] hands to the loader. *)
Definition onReady : M unit :=
  init ;; initSmoothScrolling.

Definition initialize : M unit :=
  waitForGSAP onReady.

(** The [resize] listener. *)
Definition on_resize : M unit :=
  pending <- gets (fun w => resizeTimeout (app w)) ;;
  clearTimeout pending ;;
  id <- setTimeout TRefresh 250 ;;
  modify (set_app (with_resizeTimeout (Some id))).

(** The [astro:page-load] listener. *)
Definition on_page_load : M unit :=
  _ <- setTimeout TRefresh 100 ;; ret tt.

(** The body of the script, run once when it is loaded. *)
Definition main : M unit :=
  rs <- gets (fun w => readyState (env w)) ;;
  (if String.eqb rs "loading" then
     addEventListener OnDocument "DOMContentLoaded" HInitialize
   else initialize) ;;
  addEventListener OnWindow "resize" HResize ;;
  addEventListener OnWindow "beforeunload" HBeforeUnload ;;
  addEventListener OnDocument "astro:page-load" HAstroPageLoad.

(** ** The event loop *)

Definition run_handler (h : Handler) : M unit :=
  match h with
  | HCardEnter card c => card_mouseenter card c
  | HCardLeave card c => card_mouseleave card c
  | HBtnEnter btn icon b i => btn_mouseenter btn icon b i
  | HBtnLeave btn icon b i => btn_mouseleave btn icon b i
  | HScroll header c => handleScroll header c
  | HAnchorClick a => anchor_click a
  | HResize => on_resize
  | HBeforeUnload => cleanup
  | HAstroPageLoad => on_page_load
  | HInitialize => initialize
  end.

(** A timer function; [callback] is what the pending polls were given. *)
Definition run_timer_with (callback : M unit) (f : TimerFn) : M unit :=
  match f with
  | TCheckGSAP attempts => checkGSAP callback attempts
  | TRefresh => refresh
  end.

(** One task of the event loop: an exception that escapes is reported and
    the loop goes on. *)
Definition task (m : M unit) (w : World) : World :=
  match m w with
  | (Ok _, w') => w'
  | (Throw e, w') => set_log (fun l => l ++ [(clock w', Uncaught e)]) w'
  end.

Definition EventTarget_eqb (a b : EventTarget) : bool :=
  match a, b with
  | OnWindow, OnWindow => true
  | OnDocument, OnDocument => true
  | OnElem x, OnElem y => Nat.eqb x y
  | _, _ => false
  end.

Definition listens (t : EventTarget) (ty : string) (l : Listener) : bool :=
  EventTarget_eqb (l_target l) t && String.eqb (l_type l) ty.

(** Deliver an event: the listeners registered for it when it is dispatched
    run in the order they were added. *)
Definition dispatch (t : EventTarget) (ty : string) (w : World) : World :=
  fold_left (fun w' l => task (run_handler (l_handler l)) w')
            (filter (listens t ty) (listeners (rt w))) w.

(** The pending timer that fires first: the earliest due time, and among
    equals the one set first. *)
Fixpoint next_timer (q : list Timer) : option Timer :=
  match q with
  | [] => None
  | t :: q' =>
      match next_timer q' with
      | Some u => if (t_due u <? t_due t)%Z then Some u else Some t
      | None => Some t
      end
  end.

Definition remove_timer (id : nat) (w : World) : World :=
  set_rt (with_timers (filter (fun t => negb (Nat.eqb (t_id t) id)))) w.

Definition set_clock (t : Z) (w : World) : World :=
  set_env (with_now (Z.max (clock w) t)) w.

(** Fire one timer: the clock moves to its due time and its function runs
    as a task. *)
Definition fire_with (callback : M unit) (t : Timer) (w : World) : World :=
  task (run_timer_with callback (t_fn t))
       (set_clock (t_due t) (remove_timer (t_id t) w)).

(** Let time pass until [t], firing every timer that falls due on the way;
    [None] when [fuel] timers were not enough. *)
Fixpoint advance_with (callback : M unit) (fuel : nat) (t : Z) (w : World)
  : option World :=
  match next_timer (timers (rt w)) with
  | None => Some (set_clock t w)
  | Some tm =>
      if (t_due tm <=? t)%Z then
        match fuel with
        | O => None
        | S fuel' => advance_with callback fuel' t (fire_with callback tm w)
        end
      else Some (set_clock t w)
  end.

Definition fire := fire_with onReady.
Definition advance := advance_with onReady.

(** What the page receives from outside. *)
Inductive Input :=
| Scroll (y : Q)
| Resize
| MouseEnter (e : Elem)
| MouseLeave (e : Elem)
| Click (e : Elem)
| BeforeUnload
| AstroPageLoad
| DOMContentLoaded.

Definition deliver (i : Input) (w : World) : World :=
  match i with
  | Scroll y => dispatch OnWindow "scroll" (set_env (with_scroll y) w)
  | Resize => dispatch OnWindow "resize" w
  | MouseEnter e => dispatch (OnElem e) "mouseenter" w
  | MouseLeave e => dispatch (OnElem e) "mouseleave" w
  | Click e => dispatch (OnElem e) "click" w
  | BeforeUnload => dispatch OnWindow "beforeunload" w
  | AstroPageLoad => dispatch OnDocument "astro:page-load" w
  | DOMContentLoaded =>
      dispatch OnDocument "DOMContentLoaded"
               (set_env (with_readyState "interactive") w)
  end.

(** A schedule of inputs, each at its time: time passes up to the input
    (timers fire on the way), then the input is delivered. *)
Fixpoint run_with (callback : M unit) (fuel : nat)
  (schedule : list (Z * Input)) (w : World) : option World :=
  match schedule with
  | [] => Some w
  | (t, i) :: rest =>
      match advance_with callback fuel t w with
      | Some w' => run_with callback fuel rest (deliver i w')
      | None => None
      end
  end.

Definition run := run_with onReady.

(** ** The page when the script starts *)

Definition fresh_engine : Engine :=
  {| tweens := []; triggers := []; plugins := []; gsapConfig := [];
     scrollTriggerConfig := []; refreshes := 0 |}.

Definition fresh_runtime : Runtime :=
  {| heap := []; listeners := []; timers := []; nextTimer := 0 |}.

(** The object literal bound to [AnimationController], and [resizeTimeout]
    still undefined. *)
Definition fresh_script : Script :=
  {| AnimationController :=
       {| gsap := false; ScrollTrigger := false; isInitialized := false;
          cardHoverTweens := [] |};
     resizeTimeout := None;
     scrollIntoView := [] |}.

Definition initial_world (e : Env) (d : Document) : World :=
  {| env := e; dom := {| head := []; body := d |}; eng := fresh_engine;
     rt := fresh_runtime; app := fresh_script; log := [] |}.

(** A small page with every kind of element the script looks for. *)
Definition el (t : string) (c : list string) (p : option Elem) : Node :=
  {| tag := t; classes := c; parent := p; nodeId := None; href := None |}.

Definition sample_page : Document :=
  [ el "header" ["site-header"] None;                     (* 0 *)
    el "section" ["hero-content"] None;                   (* 1 *)
    el "h1" ["hero-title"] (Some 1);                      (* 2 *)
    el "p" ["hero-subtitle"] (Some 1);                    (* 3 *)
    el "div" ["hero-divider"] (Some 1);                   (* 4 *)
    {| tag := "a"; classes := ["btn"]; parent := Some 1;
       nodeId := None; href := Some "#work" |};           (* 5 *)
    el "span" ["btn-icon"] (Some 5);                      (* 6 *)
    el "div" ["hero-floating-element"] (Some 1);          (* 7 *)
    el "h2" ["section-title"] None;                       (* 8 *)
    el "p" ["text-large"] None;                           (* 9 *)
    el "div" ["section-divider"] None;                    (* 10 *)
    el "div" ["mission-content"] None;                    (* 11 *)
    {| tag := "div"; classes := ["card"]; parent := None;
       nodeId := Some "work"; href := None |};            (* 12 *)
    el "div" ["card"] None;                               (* 13 *)
    el "div" ["section-floating-element"] None;           (* 14 *)
    el "section" ["philosophy-section"] None;             (* 15 *)
    el "div" ["philosophy-line"] (Some 15);               (* 16 *)
    el "div" ["philosophy-item"] (Some 15);               (* 17 *)
    el "div" ["philosophy-item"] (Some 15) ].             (* 18 *)

(** An environment in which the libraries are defined from [loaded_at] on
    (never, for [None]). *)
Definition sample_env (loaded_at : option Z) (scrollTrigger : bool)
  (throws : Plugin -> option string) (reduced : bool) : Env :=
  {| now := 0;
     globals := fun t =>
       match loaded_at with
       | Some t0 =>
           {| g_gsap := (t0 <=? t)%Z;
              g_ScrollTrigger := (t0 <=? t)%Z && scrollTrigger;
              g_ScrollToPlugin := false |}
       | None =>
           {| g_gsap := false; g_ScrollTrigger := false;
              g_ScrollToPlugin := false |}
       end;
     registerThrows := throws;
     matchMedia := Some (fun q => String.eqb q reducedMotionQuery && reduced);
     pageYOffset := 0;
     scrollTop := 0;
     readyState := "complete" |}.

Definition sample_world (loaded_at : option Z) (reduced : bool) : World :=
  initial_world (sample_env loaded_at true (fun _ => None) reduced)
                sample_page.

(** ** Vocabulary of the statements *)

(** Both globals the loader waits for are defined now. *)
Definition engine_detected (w : World) : bool :=
  g_gsap (globals (env w) (clock w))
  && g_ScrollTrigger (globals (env w) (clock w)).

(** How often the loader has called its callback. *)
Definition is_invocation (e : Z * Event) : bool :=
  match snd e with CallbackInvoked => true | _ => false end.

Definition invocations (w : World) : nat :=
  List.length (filter is_invocation (log w)).

(** A callback that leaves the ghost marks of the loader alone: it does not
    call itself through the loader. *)
Definition quiet (callback : M unit) : Prop :=
  forall w, invocations (snd (callback w)) = invocations w.

(** The value of a counter cell. *)
Definition counter (c : Cell) (w : World) : Z :=
  match nth c (heap (rt w)) (CTween None) with CNum n => n | _ => 0%Z end.

(** The plugins [register_plugins] registers when nothing throws. *)
Definition plugins_to_register (w : World) : list Plugin :=
  if g_ScrollToPlugin (globals (env w) (clock w))
  then [ScrollTriggerPlugin; ScrollToPlugin] else [ScrollTriggerPlugin].

(** The world in which [checkGSAP] first calls its callback, when the engine
    is there and registration succeeds. *)
Definition first_call (attempts : Cell) (w : World) : World :=
  {| env := env w; dom := dom w;
     eng := with_plugins (fun l => l ++ plugins_to_register w) (eng w);
     rt := with_heap
             (update_nth attempts (fun _ => CNum (counter attempts w + 1)))
             (rt w);
     app := app w;
     log := log w ++ [(clock w, ConsoleLog msg_loaded);
                      (clock w, CallbackInvoked)] |}.

(** The world in which [checkGSAP] calls its callback from the [catch]
    block after registration threw [e]: the plugins registered before the
    throw stay registered. *)
Definition caught_call (attempts : Cell) (w : World) (e : Exn) : World :=
  {| env := env w; dom := dom w;
     eng := eng (snd (register_plugins (globals (env w) (clock w)) w));
     rt := with_heap
             (update_nth attempts (fun _ => CNum (counter attempts w + 1)))
             (rt w);
     app := app w;
     log := log w ++ [(clock w, ConsoleLog msg_loaded);
                      (clock w, ConsoleWarn msg_plugin_failed (Some e));
                      (clock w, CallbackInvoked)] |}.

(** The world in which the [catch] block calls the callback again after the
    callback itself threw [e] and left [w2]. *)
Definition retry_call (e : Exn) (w2 : World) : World :=
  set_log (fun l => l ++ [(clock w2, ConsoleWarn msg_plugin_failed (Some e));
                          (clock w2, CallbackInvoked)]) w2.

(** The loader never finds both globals, whenever it looks. *)
Definition never_detected (w : World) : Prop :=
  forall t, g_gsap (globals (env w) t) && g_ScrollTrigger (globals (env w) t) = false.

(** The world a poll leaves when the engine is not there. *)
Definition poll_again (a : Cell) (w : World) : World :=
  set_rt (fun r =>
    with_nextTimer (S (nextTimer r))
      (with_timers (fun q => q ++ [{| t_id := nextTimer r;
                                      t_due := (clock w + 100)%Z;
                                      t_fn := TCheckGSAP a |}])
        (with_heap (update_nth a (fun _ => CNum (counter a w + 1))) r))) w.

(** The world the last poll leaves: the warning and the stylesheet. *)
Definition give_up_polling (a : Cell) (w : World) : World :=
  {| env := env w;
     dom := with_head (fun h => h ++ [StyleElement fallbackCSS]) (dom w);
     eng := eng w;
     rt := with_heap (update_nth a (fun _ => CNum (counter a w + 1))) (rt w);
     app := app w;
     log := log w ++ [(clock w, ConsoleWarn msg_load_failed None)] |}.

(** The loader is between two polls: [k] attempts made, the next one
    queued for [due] and nothing else queued. *)
Record polling (a : Cell) (k due : Z) (w : World) : Prop := {
  pl_timers : exists i, timers (rt w) =
                [{| t_id := i; t_due := due; t_fn := TCheckGSAP a |}];
  pl_counter : counter a w = k;
  pl_cell : a < List.length (heap (rt w));
  pl_clock : (clock w <= due)%Z
}.


(** The controller methods entered, in order, according to a log. *)
Fixpoint entered_in (l : list (Z * Event)) : list string :=
  match l with
  | [] => []
  | (_, Enter m) :: l' => m :: entered_in l'
  | _ :: l' => entered_in l'
  end.

(** The controller methods entered on the way from [w] to [w']. *)
Definition entered (w w' : World) : list string :=
  entered_in (skipn (List.length (log w)) (log w')).

(** The steps of the full choreography. *)
Definition full_choreography : list string :=
  ["setInitialStates"; "animateHero"; "animateSections"; "animateCards";
   "animateButtons"; "animateFloatingElements"; "initHeaderScrollEffect";
   "animatePhilosophySection"].

(** The reduced-motion media query matches. *)
Definition reduced_motion (w : World) : bool :=
  match matchMedia (env w) with
  | Some media => media reducedMotionQuery
  | None => false
  end.

(** The two calls on the engine [initSimpleAnimations] makes. *)
Definition simple_batch (w : World) : list Tween :=
  [ {| tw_kind := KSet;
       tw_targets := TNodeList (querySelectorAll (document w) sel_primary);
       tw_vars := [("opacity", VNum 0); ("y", VNum 20)];
       tw_killed := false |};
    {| tw_kind := KTo;
       tw_targets := TNodeList (querySelectorAll (document w) sel_primary);
       tw_vars := [("opacity", VNum 1); ("y", VNum 0);
                   ("duration", VNum 0.8); ("stagger", VNum 0.1);
                   ("ease", VStr "power2.out")];
       tw_killed := false |} ].

(** A tween as [gsap.set] and [gsap.to] leave it in the engine's table. *)
Definition tween_set (t : Targets) (v : Obj) : Tween :=
  {| tw_kind := KSet; tw_targets := t; tw_vars := v; tw_killed := false |}.
Definition tween_to (t : Targets) (v : Obj) : Tween :=
  {| tw_kind := KTo; tw_targets := t; tw_vars := v; tw_killed := false |}.



(** The listeners [animateCards] adds for [cards], the first variable
    being cell [c]. *)
Fixpoint card_listeners (cards : list Elem) (c : Cell) : list Listener :=
  match cards with
  | [] => []
  | card :: rest =>
      {| l_target := OnElem card; l_type := "mouseenter";
         l_handler := HCardEnter card c |}
      :: {| l_target := OnElem card; l_type := "mouseleave";
            l_handler := HCardLeave card c |}
      :: card_listeners rest (S c)
  end.

(** The header [h] carries the class ["scrolled"]. *)
Definition header_scrolled (h : Elem) (w : World) : bool :=
  match nth_error (document w) h with
  | Some n => has_class n "scrolled"
  | None => false
  end.

(** The listeners of [scroll] events on the window. *)
Definition scroll_listeners (w : World) : list Listener :=
  filter (listens OnWindow "scroll") (listeners (rt w)).

(** The calls of [classList.add] and [classList.remove] made so far. *)
Definition is_class_mutation (e : Z * Event) : bool :=
  match snd e with
  | ClassListAdd _ _ | ClassListRemove _ _ => true
  | _ => false
  end.

Definition class_mutations (w : World) : nat :=
  List.length (filter is_class_mutation (log w)).

(** The page is scrolled to the offsets [ys], one event each. *)
Definition scrolls (ys : list Q) (w : World) : World :=
  fold_left (fun w' y => deliver (Scroll y) w') ys w.

(** After [initHeaderScrollEffect] and the scroll events [ys], the header
    [h] carries the class exactly when the offset exceeds 50. *)
Definition tracks_offset (w0 : World) (h : Elem) (ys : list Q) : Prop :=
  header_scrolled h (scrolls ys (snd (initHeaderScrollEffect w0))) = true
  <-> (50 < scrollOffset (scrolls ys (snd (initHeaderScrollEffect w0))))%Q.

(** A page whose header is served with the class already on it. *)
Definition preset_page : Document :=
  update_nth 0 (classes_add "scrolled") sample_page.

(** The scroll listener of the header [h] is bound, and its flag, in cell
    [c], agrees with the current offset. *)
Record header_bound (h : Elem) (c : Cell) (w : World) : Prop := {
  hb_listeners : scroll_listeners w =
                 [{| l_target := OnWindow; l_type := "scroll";
                     l_handler := HScroll h c |}];
  hb_cell : c < List.length (heap (rt w));
  hb_flag : nth c (heap (rt w)) (CTween None) =
            CBool (past_threshold (scrollOffset w));
  hb_header : h < List.length (document w)
}.

Definition preset_world : World :=
  initial_world (sample_env (Some 0%Z) true (fun _ => None) false) preset_page.




(** [kill] applied to each of the handles [refs] in turn. *)
Definition kill_refs (refs : list TweenRef) (ts : list Tween) : list Tween :=
  fold_left (fun ts' r => match r with
                          | Some id => update_nth id kill_tween ts'
                          | None => ts'
                          end) refs ts.

(** The worlds the page can be in: the script is loaded into some
    environment and document, and from then on inputs arrive, pending
    timers fire and time passes, in any order. *)
Inductive reachable : World -> Prop :=
| reach_load e d : reachable (task main (initial_world e d))
| reach_deliver i w : reachable w -> reachable (deliver i w)
| reach_fire tm w :
    reachable w -> In tm (timers (rt w)) -> reachable (fire tm w)
| reach_tick t w : reachable w -> reachable (set_clock t w).

(** Whatever the engine holds was made through the controller's own
    references: before [init] has completed there is no tween and no
    trigger and [this.gsap] is unset, afterwards [this.gsap] is set, and
    without [this.ScrollTrigger] there is no trigger. *)
Definition engine_known (w : World) : Prop :=
  (isInitialized (ctl w) = false ->
   gsap (ctl w) = false /\ tweens (eng w) = [] /\ triggers (eng w) = []) /\
  (isInitialized (ctl w) = true -> gsap (ctl w) = true) /\
  (ScrollTrigger (ctl w) = false -> triggers (eng w) = []).

(** The handlers listening for [ty] on [t], in the order they run. *)
Definition listeners_for (t : EventTarget) (ty : string) (w : World)
  : list Handler :=
  map l_handler (filter (listens t ty) (listeners (rt w))).

(** What listens for the three events the top level of the script binds. *)
Definition top_listeners (l1 l2 l3 : list Handler) (w : World) : Prop :=
  listeners_for OnWindow "resize" w = l1 /\
  listeners_for OnWindow "beforeunload" w = l2 /\
  listeners_for OnDocument "astro:page-load" w = l3.

(** The top-level listeners are bound, once each. *)
Definition top_bound : World -> Prop :=
  top_listeners [HResize] [HBeforeUnload] [HAstroPageLoad].



(** The times at which [AnimationController.refresh] was called. *)
Definition is_refresh (e : Z * Event) : bool :=
  match snd e with
  | Enter m => String.eqb m "refresh"
  | _ => false
  end.

Definition refresh_calls (w : World) : list Z :=
  map fst (filter is_refresh (log w)).

(** A burst after an event at [prev]: each event comes less than 250 ms
    after the one before it. *)
Fixpoint burst (prev : Z) (ts : list Z) : Prop :=
  match ts with
  | [] => True
  | t :: ts' => (prev <= t < prev + 250)%Z /\ burst t ts'
  end.

(** The time of the last event of a burst that starts at [t]. *)
Fixpoint last_time (t : Z) (ts : list Z) : Z :=
  match ts with
  | [] => t
  | t' :: ts' => last_time t' ts'
  end.

(** Resize events at the times [ts]. *)
Definition resizes (ts : list Z) : list (Z * Input) :=
  map (fun t => (t, Resize)) ts.

(** Exactly one timer is pending: a refresh due at [due], the one the
    resize listener remembers. *)
Definition refresh_pending (due : Z) (w : World) : Prop :=
  exists id,
    timers (rt w) = [{| t_id := id; t_due := due; t_fn := TRefresh |}] /\
    resizeTimeout (app w) = Some id.

(** What [clearTimeout(pending)] leaves of a queue. *)
Definition without_timer (pending : option nat) (q : list Timer)
  : list Timer :=
  match pending with
  | Some i => filter (fun t => negb (Nat.eqb (t_id t) i)) q
  | None => q
  end.

(** A tween as the hover listeners of [card] make them: a [gsap.to] on the
    card itself with one of their two object literals. *)
Definition is_card_hover (card : Elem) (t : Tween) : bool :=
  match tw_kind t, tw_targets t with
  | KTo, TElement (Some e) =>
      Nat.eqb e card &&
      (Obj_eqb (tw_vars t) cardHoverIn || Obj_eqb (tw_vars t) cardHoverOut)
  | _, _ => false
  end.

(** Tween [i] of the table [ts] is a hover tween of [card] that has not
    been killed. *)
Definition active_hover (ts : list Tween) (card : Elem) (i : nat) : Prop :=
  exists t,
    nth_error ts i = Some t /\ is_card_hover card t = true /\
    tw_killed t = false.

(** The handles of the hover tweens of [card] that have not been killed. *)
Definition active_hovers (card : Elem) (w : World) : list nat :=
  filter (fun i => match nth_error (tweens (eng w)) i with
                   | Some t => is_card_hover card t && negb (tw_killed t)
                   | None => false
                   end)
         (seq 0 (List.length (tweens (eng w)))).

(** The card and the [hoverTween] variable of a hover listener of a card. *)
Definition card_of (h : Handler) : option (Elem * Cell) :=
  match h with
  | HCardEnter e c | HCardLeave e c => Some (e, c)
  | _ => None
  end.

(** The variables the other closures have captured. *)
Definition handler_cells (h : Handler) : list Cell :=
  match h with
  | HBtnEnter _ _ b i | HBtnLeave _ _ b i => [b; i]
  | HScroll _ c => [c]
  | _ => []
  end.

Definition timer_cells (f : TimerFn) : list Cell :=
  match f with
  | TCheckGSAP a => [a]
  | TRefresh => []
  end.

Definition cards_of (ls : list Listener) : list (Elem * Cell) :=
  flat_map (fun l => match card_of (l_handler l) with
                     | Some p => [p]
                     | None => []
                     end) ls.

Definition other_cells (ls : list Listener) (tms : list Timer) : list Cell :=
  flat_map (fun l => handler_cells (l_handler l)) ls ++
  flat_map (fun tm => timer_cells (t_fn tm)) tms.

(** How the hover listeners of the cards keep their tweens apart: every
    captured variable is allocated; the [hoverTween] variables are not
    shared with other closures; a card has one variable and a variable one
    card; an active hover tween of a card is the one its variable holds;
    and only cards with listeners have active hover tweens. *)
Record hover_ok (ts : list Tween) (hp : list CellVal) (ls : list Listener)
  (tms : list Timer) : Prop := {
  ho_alloc : forall c,
    In c (map snd (cards_of ls)) \/ In c (other_cells ls tms) ->
    c < List.length hp;
  ho_sep : forall card cell,
    In (card, cell) (cards_of ls) -> ~ In cell (other_cells ls tms);
  ho_fun : forall card cell card' cell',
    In (card, cell) (cards_of ls) -> In (card', cell') (cards_of ls) ->
    (card = card' <-> cell = cell');
  ho_own : forall card cell i,
    In (card, cell) (cards_of ls) -> active_hover ts card i ->
    nth cell hp (CTween None) = CTween (Some i);
  ho_bound : forall e i,
    active_hover ts e i -> exists cell, In (e, cell) (cards_of ls)
}.

(** [hover_ok] of a world; [ph] lists the timers that have been taken off
    the queue and are running. *)
Definition hover_core (ph : list Timer) (w : World) : Prop :=
  hover_ok (tweens (eng w)) (heap (rt w)) (listeners (rt w))
           (ph ++ timers (rt w)).

(** The invariant of the page: the hover listeners are kept apart, and
    there is none before [init] has completed. *)
Definition hovers_ok (ph : list Timer) (w : World) : Prop :=
  hover_core ph w /\
  (isInitialized (ctl w) = false -> cards_of (listeners (rt w)) = []).

(** During [init], after the hover listeners are bound. *)
Definition hov_post (ph : list Timer) (c : Controller) (w : World) : Prop :=
  ctl w = c /\ gsap c = true /\ hover_core ph w.

(** During [init], before the hover listeners are bound. *)
Definition hov_pre (ph : list Timer) (c : Controller) (w : World) : Prop :=
  ctl w = c /\ gsap c = true /\ hover_core ph w /\
  cards_of (listeners (rt w)) = [].

(** Under [P], [m] returns and establishes [Q]. *)
Definition triple (P : World -> Prop) {A} (m : M A) (Q : World -> Prop)
  : Prop :=
  forall w, P w -> exists a w', m w = (Ok a, w') /\ Q w'.

(** The listener [l] is bound. *)
Definition bound (l : Listener) (w : World) : Prop :=
  In l (listeners (rt w)).

(** The tween the [hoverTween] variable in [cell] holds. *)
Definition stored_tween (cell : Cell) (w : World) : TweenRef :=
  match nth cell (heap (rt w)) (CTween None) with
  | CTween t => t
  | _ => None
  end.

(** The engine's table once a hover listener has killed the tween its
    variable holds. *)
Definition hover_kill (cell : Cell) (w : World) : list Tween :=
  kill_refs [stored_tween cell w] (tweens (eng w)).

(** What a hover listener of [card] does to the engine: the tween its
    variable holds is killed, then a new one is made. *)
Definition hover_step (cell : Cell) (card : Elem) (vars : Obj) (w : World)
  : list Tween :=
  hover_kill cell w ++ [tween_to (TElement (Some card)) vars].

(** *** Invariants and intermediate worlds *)

(** [m] keeps the invariant [Inv], whether it returns or throws. *)
Definition keeps (Inv : World -> Prop) {A} (m : M A) : Prop :=
  forall w, Inv w -> Inv (snd (m w)).

(** Under [Inv], [m] returns and keeps [Inv]. *)
Definition returns (Inv : World -> Prop) {A} (m : M A) : Prop :=
  forall w, Inv w -> exists a w', m w = (Ok a, w') /\ Inv w'.

(** While [init] runs: [this.gsap] is set. *)
Definition gsap_ready (c : Controller) (w : World) : Prop :=
  ctl w = c /\ gsap c = true.

(** The world in which [init] starts configuring the engine: the mark of
    the call is logged and the two references are recorded. *)
Definition init_prefix (w : World) : World :=
  set_app (with_controller
             (with_ScrollTrigger
                (g_ScrollTrigger (globals (env w) (clock w)))))
    (set_app (with_controller (with_gsap true))
       (set_log (fun l => l ++ [(clock w, Enter "init")]) w)).

Definition init_suffix (w2 : World) : World :=
  set_log (fun l => l ++ [(clock w2, ConsoleLog msg_initialized)])
    (set_app (with_controller (with_isInitialized true)) w2).

(** While [init] runs without the scroll-trigger plugin. *)
Definition no_trigger_ready (c : Controller) (tr : list Trigger) (w : World)
  : Prop :=
  ctl w = c /\ gsap c = true /\ ScrollTrigger c = false /\
  triggers (eng w) = tr.

(** *** Sample worlds *)

(** The sample page once the script has run with the engine there from the
    start: the controller is initialized and every listener is bound. *)
Definition loaded_page : World :=
  task main (sample_world (Some 0%Z) false).

(** The sample page with the loader's counter allocated, as [waitForGSAP]
    leaves it for [checkGSAP]; [throws] says which registrations fail. *)
Definition polling_world (throws : Plugin -> option string) : World :=
  snd (alloc (CNum 0)
         (initial_world (sample_env (Some 0%Z) true throws false)
                        sample_page)).


(** *** Exceptions that escape a listener or a timer *)

(** The exceptions the event loop has reported so far. *)
Definition uncaught (w : World) : list Exn :=
  flat_map (fun e => match snd e with Uncaught x => [x] | _ => [] end)
           (log w).

(** The hover listeners of the cards and of the buttons: the listeners that
    call the engine through [this.gsap]. *)
Definition is_hover (h : Handler) : bool :=
  match h with
  | HCardEnter _ _ | HCardLeave _ _ | HBtnEnter _ _ _ _ | HBtnLeave _ _ _ _ =>
      true
  | _ => false
  end.

Definition is_syntax_error (x : Exn) : bool :=
  match x with SyntaxError _ => true | _ => false end.

Definition is_anchor_click (h : Handler) : bool :=
  match h with HAnchorClick _ => true | _ => false end.

(** The controller is either not initialized, with [this.gsap] unset and no
    hover listener bound, or initialized, with [this.gsap] set. *)
Definition controller_ready (w : World) : Prop :=
  (isInitialized (ctl w) = false ->
   gsap (ctl w) = false /\
   forall l, In l (listeners (rt w)) -> is_hover (l_handler l) = false) /\
  (isInitialized (ctl w) = true -> gsap (ctl w) = true).

(** What the page keeps: the controller is ready for its listeners, and
    nothing but a [SyntaxError] has escaped. *)
Definition page_safe (w : World) : Prop :=
  controller_ready w /\
  forall x, In x (uncaught w) -> is_syntax_error x = true.

(** *** The loader and the instants at which it looks *)

(** Both globals the loader waits for are defined at time [t]. *)
Definition detected_at (e : Env) (t : Z) : bool :=
  g_gsap (globals e t) && g_ScrollTrigger (globals e t).

(** The instants at which the loader called its callback. *)
Definition invocation_times (w : World) : list Z :=
  map fst (filter is_invocation (log w)).

(** What the loader's callback leaves alone: the timers, the head of the
    document and the marks of the loader's calls. *)
Definition loader_frame (q : list Timer) (h : list HeadNode)
  (marks : list (Z * Event)) (w : World) : Prop :=
  timers (rt w) = q /\ head (dom w) = h /\
  filter is_invocation (log w) = marks.

(** The controller is initialized. *)
Definition initialized (w : World) : Prop := isInitialized (ctl w) = true.

(** *** Timer handles *)

(** Every pending timer has a handle of its own, handed out before the next
    one, and so has the handle the resize listener remembers. *)
Definition timer_ids_fresh (w : World) : Prop :=
  (forall tm, In tm (timers (rt w)) -> t_id tm < nextTimer (rt w)) /\
  NoDup (map t_id (timers (rt w))) /\
  (forall id, resizeTimeout (app w) = Some id -> id < nextTimer (rt w)).

(** The refresh an [astro:page-load] event at the time of [w] schedules. *)
Definition page_load_timer (w : World) : Timer :=
  {| t_id := nextTimer (rt w); t_due := (clock w + 100)%Z;
     t_fn := TRefresh |}.

(** *** In-page links *)

Definition is_letter (c : ascii) : bool :=
  let n := nat_of_ascii c in
  ((65 <=? n) && (n <=? 90)) || ((97 <=? n) && (n <=? 122)).

Definition is_name_char (c : ascii) : bool :=
  let n := nat_of_ascii c in
  is_letter c || ((48 <=? n) && (n <=? 57)) || (n =? 45) || (n =? 95).

(** A fragment that is a plain name -- a letter or an underscore, then
    letters, digits, hyphens and underscores -- so that ["#" ++ s] is an ID
    selector and nothing else. *)
Definition plain_fragment (s : string) : bool :=
  match s with
  | EmptyString => false
  | String c s' =>
      (is_letter c || (nat_of_ascii c =? 95)) &&
      forallb is_name_char (list_ascii_of_string s')
  end.

(** [t] is the first element of the document, in document order, whose id
    is [i]. *)
Definition first_with_id (d : Document) (i : string) (t : Elem) : Prop :=
  (exists n, nth_error d t = Some n /\ nodeId n = Some i) /\
  forall j n, j < t -> nth_error d j = Some n -> nodeId n <> Some i.

(** No element of the document has the id [i]. *)
Definition no_such_id (d : Document) (i : string) : Prop :=
  forall j n, nth_error d j = Some n -> nodeId n <> Some i.

(** *** Scroll triggers as the controller creates them *)




(** *** The steps of the setup *)

(** While [init] sets the animations up: nothing touches the environment
    or the controller, [this.gsap] is set, and the methods entered since the
    log was [l0] are [l]. *)
Definition setting_up (e : Env) (c : Controller) (l0 : list (Z * Event))
  (l : list string) (w : World) : Prop :=
  env w = e /\ ctl w = c /\ gsap c = true /\
  exists evs, log w = l0 ++ evs /\ entered_in evs = l.

(** The methods [init] enters when it sets the animations up. *)
Definition setup_steps (reduced : bool) : list string :=
  if reduced then ["initSimpleAnimations"]
  else "initFullAnimations" :: full_choreography.

(** The marks of the methods of the setup. *)
Definition is_setup_step (m : string) : bool :=
  existsb (String.eqb m)
          ("initSimpleAnimations" :: "initFullAnimations"
           :: full_choreography).

(** The steps of the setup the page has gone through so far. *)
Definition setup_log (w : World) : list string :=
  filter is_setup_step (entered_in (log w)).

(** The setup has not started, or it has run once and completely. *)
Definition set_up_once (w : World) : Prop :=
  (isInitialized (ctl w) = false -> setup_log w = []) /\
  (isInitialized (ctl w) = true ->
   setup_log w = setup_steps true \/ setup_log w = setup_steps false).

(** *** The script loaded while the document is loading *)

(** The listeners the script binds at its top level when it finds the
    document still loading. *)
Definition waiting_listeners : list Listener :=
  [ {| l_target := OnDocument; l_type := "DOMContentLoaded";
       l_handler := HInitialize |};
    {| l_target := OnWindow; l_type := "resize"; l_handler := HResize |};
    {| l_target := OnWindow; l_type := "beforeunload";
       l_handler := HBeforeUnload |};
    {| l_target := OnDocument; l_type := "astro:page-load";
       l_handler := HAstroPageLoad |} ].

(** *** What the script changes in the document *)










(** *** The hero and the floating decorations *)



(** What [animateFloatingElements] makes for the floating elements of the
    sections, the first of them having index [i]. *)
Fixpoint section_floats (i : nat) (els : list Elem) : list Tween :=
  match els with
  | [] => []
  | element :: rest =>
      tween_set (TElement (Some element)) [("opacity", VNum 0.1)]
      :: tween_to (TElement (Some element))
           [("y", VNum (-15)); ("x", VNum 5);
            ("duration", VNum (4 + inject_Z (Z.of_nat i)));
            ("ease", VStr "power1.inOut"); ("yoyo", VBool true);
            ("repeat", VNum (-1))]
      :: section_floats (S i) rest
  end.


(** *** The hover listeners of the buttons *)

(** The two variables of a hover listener of a button exist among the first
    [n] cells and are two cells; any other listener passes. *)
Definition cells_ok (n : nat) (l : Listener) : bool :=
  match l_handler l with
  | HBtnEnter _ _ b i | HBtnLeave _ _ b i =>
      (b <? n) && (i <? n) && negb (b =? i)
  | _ => true
  end.

(** The variables of every hover listener of a button that is bound
    exist. *)
Definition button_cells_ok (w : World) : Prop :=
  forallb (cells_ok (List.length (heap (rt w)))) (listeners (rt w)) = true.

(** A tween handle in a closure variable refers to one of the first [n]
    tweens of the engine. *)
Definition handle_ok (n : nat) (v : CellVal) : bool :=
  match v with
  | CTween (Some id) => id <? n
  | _ => true
  end.

(** Every tween handle a closure variable holds refers to a tween of the
    engine. *)
Definition handles_ok (w : World) : Prop :=
  forallb (handle_ok (List.length (tweens (eng w)))) (heap (rt w)) = true.

(** The object literals of the two hover listeners of a button. *)
Definition button_vars (h : Handler) : option (Obj * Obj) :=
  match h with
  | HBtnEnter _ _ _ _ => Some (btnHoverIn, iconHoverIn)
  | HBtnLeave _ _ _ _ => Some (btnHoverOut, iconHoverOut)
  | _ => None
  end.

(** What a hover listener of a button does to the engine: the tweens its
    two variables hold are killed, then the tween of the button is made
    and, when the button has an icon, the tween of the icon. *)
Definition button_step (buttonTween iconTween : Cell) (btn : Elem)
  (icon : option Elem) (vars : Obj * Obj) (w : World) : list Tween :=
  kill_refs [stored_tween buttonTween w; stored_tween iconTween w]
            (tweens (eng w))
  ++ tween_to (TElement (Some btn)) (fst vars)
  :: match icon with
     | Some i => [tween_to (TElement (Some i)) (snd vars)]
     | None => []
     end.

(** *** Further sample worlds *)


(** The sample environment while the document is still being parsed. *)
Definition loading_env : Env :=
  with_readyState "loading" (sample_env (Some 0%Z) true (fun _ => None) false).

(** The sample page after its script was loaded in an environment where the
    libraries never load: the loader is polling. *)
Definition waiting_page : World :=
  task main (sample_world None false).

(** * Proofs *)

(** ** Symbolic execution *)

Ltac unfold_m :=
  cbv [bind ret gets modify emit console_log console_warn window_globals
       read_num read_bool read_tween read write invoke try_catch throw
       clock ctl document this_ScrollTrigger];
  cbn [env dom eng rt app log set_rt set_log set_eng set_env set_dom set_app
       fst snd negb].

Ltac use_eqs :=
  repeat match goal with
         | H : ?x = _ |- context [match ?x with _ => _ end] => rewrite H
         | H : ?x = _ |- context [if ?x then _ else _] => rewrite H
         | H : ?x = true |- context [negb ?x] => rewrite H; cbn [negb]
         | H : ?x = false |- context [negb ?x] => rewrite H; cbn [negb]
         end.

Ltac exec := repeat (progress (unfold_m; use_eqs)).

(** Put a world built by nested updates in normal form. *)
Ltac wnorm :=
  unfold set_log, set_eng, set_rt, set_env, set_dom, set_app;
  cbn [env dom eng rt app log fst snd];
  rewrite <- ?app_assoc; cbn [app].

(** ** Lists *)

Lemma length_update_nth {A} i (f : A -> A) l :
  List.length (update_nth i f l) = List.length l.
Proof.
  revert i; induction l as [|x l IH]; intros [|i]; cbn; auto.
Qed.

Lemma nth_update_nth_same {A} i (f : A -> A) l d :
  i < List.length l -> nth i (update_nth i f l) d = f (nth i l d).
Proof.
  revert i; induction l as [|x l IH]; intros [|i]; cbn; intros; try lia; auto.
  apply IH; lia.
Qed.

Lemma nth_update_nth_other {A} i j (f : A -> A) l d :
  i <> j -> nth j (update_nth i f l) d = nth j l d.
Proof.
  revert i j; induction l as [|x l IH]; intros [|i] [|j]; cbn; intros;
    try congruence; auto.
Qed.

(** ** The loader: detection *)

Lemma invocations_log w l :
  invocations (set_log (fun l0 => l0 ++ l) w) =
  invocations w + List.length (filter is_invocation l).
Proof.
  unfold invocations. cbn [log set_log].
  now rewrite filter_app, length_app.
Qed.

Lemma checkGSAP_registered cb a w :
  engine_detected w = true ->
  fst (register_plugins (globals (env w) (clock w)) w) = Ok tt ->
  checkGSAP cb a w =
  match cb (first_call a w) with
  | (Ok u, w2) => (Ok u, w2)
  | (Throw e, w2) => cb (retry_call e w2)
  end.
Proof.
  unfold engine_detected, checkGSAP, first_call, retry_call,
    register_plugins, registerPlugin, plugins_to_register, counter.
  unfold_m. intros D.
  destruct (registerThrows (env w) ScrollTriggerPlugin) eqn:E1; exec;
    [discriminate|].
  destruct (g_ScrollToPlugin _) eqn:E2; exec.
  - destruct (registerThrows (env w) ScrollToPlugin) eqn:E3; exec;
      [discriminate|].
    intros _. wnorm. unfold with_plugins; cbn. rewrite <- !app_assoc.
    destruct (cb _) as [[u|e] w2]; [reflexivity|]. now wnorm.
  - intros _. wnorm.
    destruct (cb _) as [[u|e] w2]; [reflexivity|]. now wnorm.
Qed.

Lemma checkGSAP_caught cb a w e :
  engine_detected w = true ->
  fst (register_plugins (globals (env w) (clock w)) w) = Throw e ->
  checkGSAP cb a w = cb (caught_call a w e).
Proof.
  unfold engine_detected, checkGSAP, caught_call,
    register_plugins, registerPlugin, counter.
  unfold_m. intros D.
  destruct (registerThrows (env w) ScrollTriggerPlugin) eqn:E1; exec.
  - intros [= <-]. now wnorm.
  - destruct (g_ScrollToPlugin _) eqn:E2; exec; [|discriminate].
    destruct (registerThrows (env w) ScrollToPlugin) eqn:E3; exec;
      [|discriminate].
    intros [= <-]. now wnorm.
Qed.

Lemma invocations_first_call a w :
  invocations (first_call a w) = S (invocations w).
Proof.
  unfold invocations, first_call. cbn [log].
  rewrite filter_app, length_app. cbn. lia.
Qed.

Lemma invocations_retry_call e w :
  invocations (retry_call e w) = S (invocations w).
Proof.
  unfold retry_call. rewrite invocations_log. cbn. lia.
Qed.

Lemma invocations_caught_call a w e :
  invocations (caught_call a w e) = S (invocations w).
Proof.
  unfold invocations, caught_call. cbn [log].
  rewrite filter_app, length_app. cbn. lia.
Qed.

(** C9.  When both globals are there and registering the plugins throws [e],
    [checkGSAP] does not let [e] escape: it logs the warning with [e], and
    then calls the callback -- the outcome of [checkGSAP] is the outcome of
    that one call, made in a world whose log ends with the success message,
    the warning and the mark of the call.  A callback that leaves the marks
    alone is thus called exactly once. *)
Theorem registration_failure_is_not_fatal cb attempts w e :
  engine_detected w = true ->
  fst (register_plugins (globals (env w) (clock w)) w) = Throw e ->
  checkGSAP cb attempts w = cb (caught_call attempts w e) /\
  log (caught_call attempts w e) =
    log w ++ [(clock w, ConsoleLog msg_loaded);
              (clock w, ConsoleWarn msg_plugin_failed (Some e));
              (clock w, CallbackInvoked)] /\
  (quiet cb ->
   invocations (snd (checkGSAP cb attempts w)) = S (invocations w)).
Proof.
  intros D R. rewrite (checkGSAP_caught cb attempts w e D R).
  repeat split. intros Q. now rewrite Q, invocations_caught_call.
Qed.

(** C10.  When both globals are there and registration succeeds, the
    callback is first called inside the [try] block.  If that call throws,
    the [catch] block logs the registration warning and calls the callback a
    second time, and the outcome of [checkGSAP] is the outcome of the second
    call; if it returns, that is all.  So on the success path a callback that
    leaves the marks alone is called once or twice, and twice exactly when
    its first call throws. *)
Theorem throwing_callback_is_called_twice cb attempts w :
  engine_detected w = true ->
  fst (register_plugins (globals (env w) (clock w)) w) = Ok tt ->
  quiet cb ->
  (forall e w2,
     cb (first_call attempts w) = (Throw e, w2) ->
     checkGSAP cb attempts w = cb (retry_call e w2) /\
     invocations (snd (checkGSAP cb attempts w)) = 2 + invocations w) /\
  (forall u w2,
     cb (first_call attempts w) = (Ok u, w2) ->
     checkGSAP cb attempts w = (Ok u, w2) /\
     invocations (snd (checkGSAP cb attempts w)) = 1 + invocations w) /\
  (invocations (snd (checkGSAP cb attempts w)) = 1 + invocations w \/
   invocations (snd (checkGSAP cb attempts w)) = 2 + invocations w).
Proof.
  intros D R Q. rewrite (checkGSAP_registered cb attempts w D R).
  pose proof (Q (first_call attempts w)) as Q1.
  rewrite invocations_first_call in Q1.
  destruct (cb (first_call attempts w)) as [[u|e] w2] eqn:E; cbn [snd] in *.
  - split; [intros ? ? [=]|]. split; [|left; lia].
    intros ? ? [= <- <-]. split; [reflexivity|]. cbn [snd]. lia.
  - assert (invocations (snd (cb (retry_call e w2))) = 2 + invocations w)
      by (rewrite Q, invocations_retry_call; lia).
    split; [|split; [intros ? ? [=]|now right]].
    intros ? ? [= <- <-]. now split.
Qed.

(** ** The loader: polling *)

Lemma checkGSAP_absent cb a w :
  engine_detected w = false ->
  a < List.length (heap (rt w)) ->
  checkGSAP cb a w =
  (Ok tt, if (counter a w + 1 <? maxAttempts)%Z then poll_again a w
          else give_up_polling a w).
Proof.
  unfold engine_detected, checkGSAP, counter, poll_again, give_up_polling,
    setTimeout, initCSS3Fallbacks.
  intros D L. unfold clock in *. exec. cbn [heap with_heap].
  rewrite nth_update_nth_same by assumption.
  destruct (_ <? _)%Z; exec; now wnorm.
Qed.

Lemma advance_with_eq cb fuel t w :
  advance_with cb fuel t w =
  match next_timer (timers (rt w)) with
  | None => Some (set_clock t w)
  | Some tm =>
      if (t_due tm <=? t)%Z then
        match fuel with
        | O => None
        | S fuel' => advance_with cb fuel' t (fire_with cb tm w)
        end
      else Some (set_clock t w)
  end.
Proof. destruct fuel; reflexivity. Qed.

Lemma fire_poll cb a k due w i :
  never_detected w ->
  polling a k due w ->
  timers (rt w) = [{| t_id := i; t_due := due; t_fn := TCheckGSAP a |}] ->
  let w' := set_clock due (remove_timer i w) in
  fire_with cb {| t_id := i; t_due := due; t_fn := TCheckGSAP a |} w =
  if (k + 1 <? maxAttempts)%Z then poll_again a w' else give_up_polling a w'.
Proof.
  intros N [_ C L K] E w'. unfold fire_with, task.
  cbn [t_due t_id t_fn run_timer_with].
  fold w'.
  assert (H1 : engine_detected w' = false) by apply N.
  assert (H2 : a < List.length (heap (rt w'))) by exact L.
  rewrite (checkGSAP_absent cb a w' H1 H2).
  replace (counter a w') with k by (symmetry; exact C).
  reflexivity.
Qed.

Lemma polling_poll_again a k due w i :
  polling a k due w ->
  timers (rt w) = [{| t_id := i; t_due := due; t_fn := TCheckGSAP a |}] ->
  polling a (k + 1) (due + 100)
          (poll_again a (set_clock due (remove_timer i w))).
Proof.
  intros [_ C L K] E. split.
  - eexists. unfold poll_again, set_clock, remove_timer. cbn.
    rewrite E. cbn. rewrite Nat.eqb_refl. cbn. unfold clock. cbn.
    rewrite Z.max_r by exact K. reflexivity.
  - unfold counter, poll_again, set_clock, remove_timer. cbn.
    rewrite nth_update_nth_same by exact L. unfold counter in C.
    unfold counter. cbn. rewrite C. reflexivity.
  - unfold poll_again, set_clock, remove_timer. cbn.
    rewrite length_update_nth. exact L.
  - unfold poll_again, set_clock, remove_timer, clock. cbn.
    unfold clock in K. lia.
Qed.

Lemma never_detected_env w w' :
  globals (env w') = globals (env w) -> never_detected w -> never_detected w'.
Proof. unfold never_detected. intros -> N. exact N. Qed.

Lemma advance_polling cb a hd lg :
  forall n k due w fuel T,
    never_detected w ->
    polling a k due w ->
    head (dom w) = hd -> log w = lg ->
    (1 <= k <= 49)%Z -> n = Z.to_nat (49 - k) -> n < fuel ->
    (due + 100 * (49 - k) <= T)%Z ->
    exists wf,
      advance_with cb fuel T w = Some wf /\
      head (dom wf) = hd ++ [StyleElement fallbackCSS] /\
      log wf = lg ++ [((due + 100 * (49 - k))%Z,
                       ConsoleWarn msg_load_failed None)] /\
      timers (rt wf) = [] /\
      counter a wf = 50%Z.
Proof.
  induction n as [|n IH]; intros k due w fuel T N P Hh Hl Hk Hn Hf HT.
  - assert (k = 49%Z) by lia. subst k.
    pose proof P as PP. destruct PP as [[i E] C L K].
    destruct fuel as [|fuel]; [lia|].
    rewrite advance_with_eq, E. cbn [next_timer t_due].
    replace (due <=? T)%Z with true by (symmetry; apply Z.leb_le; lia).
    rewrite (fire_poll cb a _ due w i N P E).
    change (49 + 1 <? maxAttempts)%Z with false. cbv iota.
    rewrite advance_with_eq.
    unfold give_up_polling at 1.
    cbn [rt timers with_heap set_clock remove_timer set_env set_rt
         with_timers].
    rewrite E. cbn [filter t_id]. rewrite Nat.eqb_refl. cbn [negb next_timer].
    eexists. split; [reflexivity|].
    unfold give_up_polling, set_clock, remove_timer, counter, clock.
    cbn. rewrite E. cbn. rewrite Nat.eqb_refl. cbn.
    rewrite nth_update_nth_same by exact L.
    unfold clock in K. rewrite Z.max_r by exact K.
    rewrite Hh, Hl. unfold counter in C. rewrite C.
    repeat split. do 3 f_equal. lia.
  - pose proof P as PP. destruct PP as [[i E] C L K].
    destruct fuel as [|fuel]; [lia|].
    rewrite advance_with_eq, E. cbn [next_timer t_due].
    replace (due <=? T)%Z with true by (symmetry; apply Z.leb_le; lia).
    rewrite (fire_poll cb a _ due w i N P E).
    replace (k + 1 <? maxAttempts)%Z with true
      by (symmetry; apply Z.ltb_lt; unfold maxAttempts; lia).
    destruct (IH (k + 1)%Z (due + 100)%Z
                 (poll_again a (set_clock due (remove_timer i w))) fuel T)
      as (wf & A & B1 & B2 & B3 & B4); try lia.
    + eapply never_detected_env; [|exact N]. reflexivity.
    + now apply polling_poll_again.
    + exact Hh.
    + exact Hl.
    + exists wf. repeat split; auto.
      rewrite B2. do 3 f_equal. lia.
Qed.

Lemma advance_polling_early cb a :
  forall fuel k due w T w',
    never_detected w ->
    polling a k due w ->
    (1 <= k <= 49)%Z ->
    (T < due + 100 * (49 - k))%Z ->
    advance_with cb fuel T w = Some w' ->
    head (dom w') = head (dom w) /\ log w' = log w.
Proof.
  induction fuel as [|fuel IH]; intros k due w T w' N P Hk HT;
    pose proof P as PP; destruct PP as [[i E] C L K];
    rewrite advance_with_eq, E; cbn [next_timer t_due];
    destruct (due <=? T)%Z eqn:D; try discriminate;
    try (intros [= <-]; split; reflexivity).
  apply Z.leb_le in D.
  rewrite (fire_poll cb a k due w i N P E).
  replace (k + 1 <? maxAttempts)%Z with true
    by (symmetry; apply Z.ltb_lt; unfold maxAttempts; lia).
  intros A.
  apply (IH (k + 1)%Z (due + 100)%Z) in A; try lia.
  - exact A.
  - eapply never_detected_env; [|exact N]. reflexivity.
  - now apply polling_poll_again.
Qed.

Lemma waitForGSAP_absent cb w :
  engine_detected w = false ->
  waitForGSAP cb w =
  (Ok tt, poll_again (List.length (heap (rt w)))
            (set_rt (with_heap (fun h => h ++ [CNum 0])) w)).
Proof.
  intros D. unfold waitForGSAP, alloc. unfold bind at 1.
  rewrite checkGSAP_absent.
  - unfold counter. cbn. rewrite nth_middle. reflexivity.
  - exact D.
  - cbn. rewrite length_app. cbn. lia.
Qed.

Lemma polling_started w :
  timers (rt w) = [] ->
  polling (List.length (heap (rt w))) 1 (clock w + 100)
    (poll_again (List.length (heap (rt w)))
       (set_rt (with_heap (fun h => h ++ [CNum 0])) w)).
Proof.
  intros E. split.
  - eexists. unfold poll_again. cbn. rewrite E. reflexivity.
  - unfold counter, poll_again. cbn.
    rewrite nth_update_nth_same by (rewrite length_app; cbn; lia).
    unfold counter. cbn. now rewrite nth_middle.
  - unfold poll_again. cbn. rewrite length_update_nth, length_app. cbn. lia.
  - unfold poll_again, clock. cbn. lia.
Qed.

Lemma invocations_same_log w w' :
  log w' = log w -> invocations w' = invocations w.
Proof. unfold invocations. now intros ->. Qed.

(** C1.  Start the loader in a world with no timer pending in which the two
    globals are never both defined.  Then it polls 50 times, 100 ms apart:
    once time has reached 4900 ms after the start, the queue is empty, the
    counter stands at 50, the head of the document has gained exactly one
    element -- the fallback stylesheet -- the only thing logged is the
    warning, stamped 4900 ms after the start, and the callback has not been
    called.  Before that time nothing is injected and nothing is called.
    49 units of fuel are enough, whatever the callback is. *)
Theorem fallback_after_polling_budget cb w0 :
  timers (rt w0) = [] ->
  never_detected w0 ->
  (forall fuel T,
     49 <= fuel -> (clock w0 + 4900 <= T)%Z ->
     exists wf,
       advance_with cb fuel T (snd (waitForGSAP cb w0)) = Some wf /\
       head (dom wf) = head (dom w0) ++ [StyleElement fallbackCSS] /\
       log wf = log w0 ++ [((clock w0 + 4900)%Z,
                            ConsoleWarn msg_load_failed None)] /\
       invocations wf = invocations w0 /\
       timers (rt wf) = [] /\
       counter (List.length (heap (rt w0))) wf = 50%Z) /\
  (forall fuel T w',
     (T < clock w0 + 4900)%Z ->
     advance_with cb fuel T (snd (waitForGSAP cb w0)) = Some w' ->
     head (dom w') = head (dom w0) /\ invocations w' = invocations w0).
Proof.
  intros E N. rewrite (waitForGSAP_absent cb w0 (N _)). cbn [snd].
  pose proof (polling_started w0 E) as P.
  set (w1 := poll_again _ _) in *.
  assert (N1 : never_detected w1)
    by (eapply never_detected_env; [|exact N]; reflexivity).
  split.
  - intros fuel T Hf HT.
    destruct (advance_polling cb (List.length (heap (rt w0)))
                (head (dom w0)) (log w0)
                48 1%Z (clock w0 + 100)%Z w1 fuel T N1 P)
      as (wf & A & B1 & B2 & B3 & B4); try reflexivity; try lia.
    exists wf.
    replace (clock w0 + 4900)%Z
      with (clock w0 + 100 + 100 * (49 - 1))%Z by lia.
    repeat split; auto.
    unfold invocations. rewrite B2, filter_app, length_app. cbn. lia.
  - intros fuel T w' HT A.
    apply (advance_polling_early cb _ fuel 1%Z (clock w0 + 100)%Z
             w1 T w' N1 P) in A; try lia.
    destruct A as [A1 A2]. split; [exact A1|].
    now apply invocations_same_log.
Qed.

(** ** Invariants of computations *)

Create HintDb ready.

Section Invariants.
Variable Inv : World -> Prop.

Lemma returns_keeps {A} (m : M A) : returns Inv m -> keeps Inv m.
Proof.
  intros H w I. destruct (H w I) as (a & w' & E & I'). now rewrite E.
Qed.

Lemma keeps_ret {A} (a : A) : keeps Inv (ret a).
Proof. intros w I. exact I. Qed.

Lemma keeps_throw {A} e : keeps Inv (@throw A e).
Proof. intros w I. exact I. Qed.

Lemma keeps_gets {A} (f : World -> A) : keeps Inv (gets f).
Proof. intros w I. exact I. Qed.

Lemma keeps_modify f : (forall w, Inv w -> Inv (f w)) -> keeps Inv (modify f).
Proof. intros H w I. now apply H. Qed.

Lemma keeps_bind {A B} (m : M A) (k : A -> M B) :
  keeps Inv m -> (forall a, keeps Inv (k a)) -> keeps Inv (bind m k).
Proof.
  intros Hm Hk w I. unfold bind. specialize (Hm w I).
  destruct (m w) as [[a|e] w']; cbn in *; [now apply Hk | exact Hm].
Qed.

Lemma keeps_try_catch {A} (m : M A) h :
  keeps Inv m -> (forall e, keeps Inv (h e)) -> keeps Inv (try_catch m h).
Proof.
  intros Hm Hh w I. unfold try_catch. specialize (Hm w I).
  destruct (m w) as [[a|e] w']; cbn in *; [exact Hm | now apply Hh].
Qed.

Lemma keeps_forEach_from {A} (l : list A) f :
  (forall x i, keeps Inv (f x i)) -> forall i, keeps Inv (forEach_from i l f).
Proof.
  intros Hf. induction l as [|x l IH]; intros i; cbn [forEach_from].
  - apply keeps_ret.
  - apply keeps_bind; [apply Hf | intros _; apply IH].
Qed.

Lemma keeps_forEach {A} (l : list A) f :
  (forall x i, keeps Inv (f x i)) -> keeps Inv (forEach l f).
Proof. intros Hf. now apply keeps_forEach_from. Qed.

Lemma returns_ret {A} (a : A) : returns Inv (ret a).
Proof. intros w I. now exists a, w. Qed.

Lemma returns_gets {A} (f : World -> A) : returns Inv (gets f).
Proof. intros w I. now exists (f w), w. Qed.

Lemma returns_modify f : (forall w, Inv w -> Inv (f w)) -> returns Inv (modify f).
Proof. intros H w I. exists tt, (f w). split; [reflexivity | now apply H]. Qed.

Lemma returns_bind {A B} (m : M A) (k : A -> M B) :
  returns Inv m -> (forall a, returns Inv (k a)) -> returns Inv (bind m k).
Proof.
  intros Hm Hk w I. unfold bind.
  destruct (Hm w I) as (a & w' & E & I'). rewrite E. now apply Hk.
Qed.

Lemma returns_forEach_from {A} (l : list A) f :
  (forall x i, returns Inv (f x i)) -> forall i, returns Inv (forEach_from i l f).
Proof.
  intros Hf. induction l as [|x l IH]; intros i; cbn [forEach_from].
  - apply returns_ret.
  - apply returns_bind; [apply Hf | intros _; apply IH].
Qed.

Lemma returns_forEach {A} (l : list A) f :
  (forall x i, returns Inv (f x i)) -> returns Inv (forEach l f).
Proof. intros Hf. now apply returns_forEach_from. Qed.
End Invariants.

(** Decompose a goal [keeps Inv m] or [returns Inv m] along the structure of
    [m]; [leaf] closes what is left at primitives. *)
Ltac hoare_step leaf :=
  lazymatch goal with
  | |- keeps _ (bind _ _) => apply keeps_bind; [|intro]
  | |- keeps _ (ret _) => apply keeps_ret
  | |- keeps _ (throw _) => apply keeps_throw
  | |- keeps _ (gets _) => apply keeps_gets
  | |- keeps _ (try_catch _ _) => apply keeps_try_catch; [|intro]
  | |- keeps _ (forEach _ _) => apply keeps_forEach; intros ? ?
  | |- keeps _ (if ?b then _ else _) => destruct b
  | |- keeps _ (match ?x with _ => _ end) => destruct x
  | |- returns _ (bind _ _) => apply returns_bind; [|intro]
  | |- returns _ (ret _) => apply returns_ret
  | |- returns _ (gets _) => apply returns_gets
  | |- returns _ (forEach _ _) => apply returns_forEach; intros ? ?
  | |- returns _ (if ?b then _ else _) => destruct b
  | |- returns _ (match ?x with _ => _ end) => destruct x
  | |- _ => leaf
  end.

Ltac hoare leaf := repeat (hoare_step leaf).

(** *** Calls on the engine never fail once [this.gsap] is set *)

Ltac ready_leaf :=
  first
    [ assumption
    | solve [eauto with ready]
    | let w := fresh "w" in
      let H := fresh "H" in
      intros w [H ?];
      unfold gsap_ready;
      cbv [emit modify alloc addEventListener new_tween new_trigger tween_kill write read
           read_tween read_bool read_num this_ScrollTrigger gets
           gsap_set gsap_to gsap_timeline timeline_to gsap_config this_gsap
           ScrollTrigger_batch ScrollTrigger_create ScrollTrigger_config
           classList_add classList_remove bind ret ctl];
      cbv [ctl] in H; cbn; rewrite ?H;
      repeat match goal with
             | G : gsap ?c = true |- context [gsap ?c] => rewrite G
             end; cbn;
      eauto 6 ].

Lemma returns_setInitialStates c : returns (gsap_ready c) setInitialStates.
Proof. unfold setInitialStates. hoare ready_leaf. Qed.

Lemma returns_initSimpleAnimations c : returns (gsap_ready c) initSimpleAnimations.
Proof. unfold initSimpleAnimations. hoare ready_leaf. Qed.

Lemma returns_animateHero c : returns (gsap_ready c) animateHero.
Proof. unfold animateHero. hoare ready_leaf. Qed.

Lemma returns_animateSections c : returns (gsap_ready c) animateSections.
Proof. unfold animateSections. hoare ready_leaf. Qed.

Lemma returns_animateCards c : returns (gsap_ready c) animateCards.
Proof. unfold animateCards, bind_card_hover. hoare ready_leaf. Qed.

Lemma returns_animateButtons c : returns (gsap_ready c) animateButtons.
Proof. unfold animateButtons, bind_button_hover. hoare ready_leaf. Qed.

Lemma returns_animateFloatingElements c :
  returns (gsap_ready c) animateFloatingElements.
Proof. unfold animateFloatingElements. hoare ready_leaf. Qed.

Lemma returns_handleScroll c h s : returns (gsap_ready c) (handleScroll h s).
Proof. unfold handleScroll. hoare ready_leaf. Qed.

#[local] Hint Resolve returns_handleScroll : ready.

Lemma returns_initHeaderScrollEffect c :
  returns (gsap_ready c) initHeaderScrollEffect.
Proof.
  unfold initHeaderScrollEffect. hoare ready_leaf.
Qed.

Lemma returns_animatePhilosophySection c :
  returns (gsap_ready c) animatePhilosophySection.
Proof. unfold animatePhilosophySection. hoare ready_leaf. Qed.

#[local] Hint Resolve returns_setInitialStates returns_animateHero
  returns_animateSections returns_animateCards returns_animateButtons
  returns_animateFloatingElements returns_initHeaderScrollEffect
  returns_animatePhilosophySection returns_initSimpleAnimations : ready.

Lemma returns_initFullAnimations c : returns (gsap_ready c) initFullAnimations.
Proof. unfold initFullAnimations. hoare ready_leaf. Qed.

Lemma run_bind {A B} (m : M A) (k : A -> M B) w a w' :
  m w = (Ok a, w') -> bind m k w = k a w'.
Proof. intros E. unfold bind. now rewrite E. Qed.

(** Run the first statement of a sequence through a [returns] fact. *)
Ltac run_returns H I :=
  lazymatch goal with
  | |- context [bind ?m ?k ?w] =>
      let a := fresh "a" in
      let w' := fresh "w" in
      let E := fresh "E" in
      let I' := fresh "I" in
      destruct (H w I) as (a & w' & E & I');
      rewrite (run_bind m k w a w' E); clear E
  end.


#[local] Hint Resolve returns_initFullAnimations : ready.

(** Run the first pending statement [m] of an unfolded sequence, which
    returns under [gsap_ready c]. *)
Ltac run_ready c I :=
  lazymatch goal with
  | |- context [match ?m ?w with _ => _ end] =>
      let H := fresh "H" in
      let a := fresh "a" in
      let w' := fresh "w" in
      let E := fresh "E" in
      let I' := fresh "I" in
      assert (H : returns (gsap_ready c) m)
        by (unfold prefersReducedMotion; hoare ready_leaf);
      destruct (H w I) as (a & w' & E & I');
      rewrite E; clear E H I; cbv iota beta
  end.

Lemma init_first_call w :
  isInitialized (ctl w) = false ->
  g_gsap (globals (env w) (clock w)) = true ->
  exists w',
    init w = (Ok tt, w') /\
    ctl w' =
      with_isInitialized true
        (with_ScrollTrigger (g_ScrollTrigger (globals (env w) (clock w)))
           (with_gsap true (ctl w))).
Proof.
  intros U G. unfold init, set_this_gsap, set_this_ScrollTrigger.
  unfold clock, ctl in *. exec. unfold set_this_isInitialized. rewrite G.
  set (c := with_ScrollTrigger (g_ScrollTrigger (globals (env w) (now (env w))))
              (with_gsap true (AnimationController (app w)))).
  match goal with
  | |- context [gsap_config _ ?w1] =>
      assert (I : gsap_ready c w1) by (split; reflexivity)
  end.
  run_ready c I. run_ready c I0. run_ready c I. run_ready c I0.
  exec. destruct I as [I _]. unfold ctl in I. eexists. split; [reflexivity|].
  cbn. now rewrite I.
Qed.

(** ** The controller: [init] *)

Lemma entered_log w w' evs :
  log w' = log w ++ evs -> entered w w' = entered_in evs.
Proof.
  unfold entered. intros ->.
  now rewrite skipn_app, skipn_all, Nat.sub_diag.
Qed.

Lemma init_again w :
  isInitialized (ctl w) = true ->
  init w = (Ok tt, set_log (fun l => l ++ [(clock w, Enter "init")]) w).
Proof. intros I. unfold init. unfold clock, ctl in *. now exec. Qed.

Lemma init_without_engine w :
  isInitialized (ctl w) = false ->
  g_gsap (globals (env w) (clock w)) = false ->
  exists e w',
    init w = (Throw e, w') /\
    log w' = log w ++ [(clock w, Enter "init")] /\
    eng w' = eng w /\ rt w' = rt w /\ dom w' = dom w /\
    isInitialized (ctl w') = false.
Proof.
  intros U G. unfold init, set_this_gsap, set_this_ScrollTrigger,
    gsap_config, this_gsap.
  unfold clock, ctl in *. exec. cbn. rewrite ?G. exec.
  do 2 eexists. split; [reflexivity|]. cbn. now rewrite U.
Qed.

Lemma init_reduced w :
  isInitialized (ctl w) = false ->
  g_gsap (globals (env w) (clock w)) = true ->
  reduced_motion w = true ->
  exists w',
    init w = (Ok tt, w') /\
    log w' = log w ++ [(clock w, Enter "init");
                       (clock w, Enter "prefersReducedMotion");
                       (clock w, Enter "initSimpleAnimations");
                       (clock w, ConsoleLog msg_initialized)] /\
    tweens (eng w') = tweens (eng w) ++ simple_batch w /\
    triggers (eng w') = triggers (eng w) /\
    rt w' = rt w /\ dom w' = dom w /\
    isInitialized (ctl w') = true.
Proof.
  intros U G R.
  unfold init, set_this_gsap, set_this_ScrollTrigger, gsap_config,
    this_gsap, prefersReducedMotion, initSimpleAnimations, gsap_set, gsap_to,
    this_gsap, new_tween, set_this_isInitialized, ScrollTrigger_config,
    reduced_motion, simple_batch.
  unfold clock, ctl, document, reduced_motion in *.
  exec. cbn. rewrite ?G. exec.
  destruct (g_ScrollTrigger _); exec; cbn; rewrite ?G; exec;
    (eexists; split; [reflexivity|]); cbn; rewrite <- !app_assoc;
    repeat split.
Qed.

(** C2.  When the reduced-motion query matches, a call of [init] enters
    neither [initFullAnimations] nor any step of the full choreography,
    whatever the state it is called in.  Called on an uninitialised
    controller with the engine defined, it returns, and the methods it
    enters are [init], [prefersReducedMotion] and [initSimpleAnimations]
    and no other: the engine gains the two calls of the simple batch and no
    scroll trigger, and no listener, cell, timer or class of the page
    changes. *)
Theorem reduced_motion_runs_only_the_simple_batch w :
  reduced_motion w = true ->
  (forall m, In m ("initFullAnimations" :: full_choreography) ->
             ~ In m (entered w (snd (init w)))) /\
  (isInitialized (ctl w) = false ->
   g_gsap (globals (env w) (clock w)) = true ->
   fst (init w) = Ok tt /\
   entered w (snd (init w)) =
     ["init"; "prefersReducedMotion"; "initSimpleAnimations"] /\
   tweens (eng (snd (init w))) = tweens (eng w) ++ simple_batch w /\
   triggers (eng (snd (init w))) = triggers (eng w) /\
   rt (snd (init w)) = rt w /\
   dom (snd (init w)) = dom w).
Proof.
  intros R.
  assert (E : entered w (snd (init w)) = ["init"] \/
              entered w (snd (init w)) =
                ["init"; "prefersReducedMotion"; "initSimpleAnimations"]).
  { destruct (isInitialized (ctl w)) eqn:U.
    - left. rewrite (init_again w U). cbn [snd].
      now rewrite (entered_log w _ [(clock w, Enter "init")]).
    - destruct (g_gsap (globals (env w) (clock w))) eqn:G.
      + right. destruct (init_reduced w U G R) as (w' & -> & L & _).
        cbn [snd]. now rewrite (entered_log w w' _ L).
      + left. destruct (init_without_engine w U G) as (e & w' & -> & L & _).
        cbn [snd]. now rewrite (entered_log w w' _ L). }
  split.
  - intros m Hm Hin. unfold full_choreography in Hm. cbn [In] in Hm.
    destruct E as [E|E]; rewrite E in Hin; cbn [In] in Hin;
      intuition (subst; discriminate).
  - intros U G.
    destruct (init_reduced w U G R) as (w' & -> & L & T & Tr & Rt & D & _).
    cbn [fst snd]. rewrite (entered_log w w' _ L). repeat split; auto.
Qed.

(** C6.  The first call of [init] -- on an uninitialised controller, with
    the engine defined as the loader guarantees -- returns with the
    controller initialised.  From then on a call of [init] does nothing: it
    returns at once, entering no other method and leaving the engine, the
    page, the listeners, the timers and the controller as they were. *)
Theorem init_is_idempotent w :
  isInitialized (ctl w) = false ->
  g_gsap (globals (env w) (clock w)) = true ->
  exists w1,
    init w = (Ok tt, w1) /\
    isInitialized (ctl w1) = true /\
    forall w2,
      isInitialized (ctl w2) = true ->
      fst (init w2) = Ok tt /\
      state_of (snd (init w2)) = state_of w2 /\
      entered w2 (snd (init w2)) = ["init"].
Proof.
  intros U G. destruct (init_first_call w U G) as (w1 & E & C).
  exists w1. split; [exact E|]. split; [now rewrite C|].
  intros w2 I. rewrite (init_again w2 I). cbn [fst snd].
  repeat split.
  now rewrite (entered_log w2 _ [(clock w2, Enter "init")]).
Qed.

(** ** The controller: reveals without the scroll-trigger plugin *)

Lemma bind_cards_from cards : forall i w,
  forEach_from i cards (fun card _ => bind_card_hover card) w =
  (Ok tt,
   set_rt (fun r =>
     with_listeners
       (fun ls => ls ++ card_listeners cards (List.length (heap r)))
       (with_heap
          (fun h => h ++ repeat (CTween None) (List.length cards)) r)) w).
Proof.
  induction cards as [|card cards IH]; intros i w; cbn [forEach_from].
  - unfold ret, set_rt, with_listeners, with_heap. cbn.
    rewrite !app_nil_r. now destruct w as [? ? ? [] ? ?].
  - unfold bind at 1. unfold bind_card_hover at 1.
    unfold alloc, addEventListener. exec. rewrite IH.
    unfold set_rt, with_listeners, with_heap. cbn.
    rewrite length_app, Nat.add_1_r, <- !app_assoc. reflexivity.
Qed.






(** ** The header's scroll listener *)

Lemma has_class_add c n : has_class (classes_add c n) c = true.
Proof.
  unfold classes_add, has_class. cbn.
  destruct (existsb (String.eqb c) (classes n)) eqn:E; [exact E|].
  rewrite existsb_app. cbn.
  now rewrite String.eqb_refl, orb_true_r.
Qed.

Lemma has_class_remove c n : has_class (classes_remove c n) c = false.
Proof.
  unfold classes_remove, has_class. cbn.
  induction (classes n) as [|k l IH]; cbn; [reflexivity|].
  destruct (String.eqb c k) eqn:E; cbn; [exact IH|]. now rewrite E.
Qed.

Lemma nth_error_update_nth_same {A} i (f : A -> A) l :
  nth_error (update_nth i f l) i = option_map f (nth_error l i).
Proof.
  revert i; induction l as [|x l IH]; intros [|i]; cbn; auto.
Qed.

Lemma handleScroll_run h c w cur :
  c < List.length (heap (rt w)) ->
  nth c (heap (rt w)) (CTween None) = CBool cur ->
  handleScroll h c w =
  (Ok tt,
   if Bool.eqb (past_threshold (scrollOffset w)) cur then w
   else if past_threshold (scrollOffset w) then
     set_log (fun l => l ++ [(clock w, ClassListAdd h "scrolled")])
       (set_dom (with_body (update_nth h (classes_add "scrolled")))
          (set_rt (with_heap (update_nth c (fun _ => CBool true))) w))
   else
     set_log (fun l => l ++ [(clock w, ClassListRemove h "scrolled")])
       (set_dom (with_body (update_nth h (classes_remove "scrolled")))
          (set_rt (with_heap (update_nth c (fun _ => CBool false))) w))).
Proof.
  intros L E. unfold handleScroll, classList_add, classList_remove.
  exec. destruct (Bool.eqb _ cur) eqn:B; exec; [reflexivity|].
  cbn [heap with_heap]. rewrite nth_update_nth_same by exact L.
  destruct (past_threshold _); exec; reflexivity.
Qed.

Lemma scrollOffset_with_scroll y w :
  scrollOffset (set_env (with_scroll y) w) = y.
Proof. unfold scrollOffset. cbn. now destruct (Qeq_bool y 0). Qed.

Lemma deliver_scroll h c w y :
  header_bound h c w ->
  deliver (Scroll y) w =
  snd (handleScroll h c (set_env (with_scroll y) w)).
Proof.
  intros [L C F H]. unfold deliver, dispatch.
  change (filter _ (listeners (rt (set_env (with_scroll y) w))))
    with (scroll_listeners w).
  rewrite L. cbn [fold_left l_handler run_handler]. unfold task.
  rewrite (handleScroll_run h c _ (past_threshold (scrollOffset w)));
    [reflexivity | exact C | exact F].
Qed.

Lemma header_scrolled_update h f w :
  h < List.length (document w) ->
  header_scrolled h (set_dom (with_body (update_nth h f)) w) =
  match nth_error (document w) h with
  | Some n => has_class (f n) "scrolled"
  | None => false
  end.
Proof.
  intros H. unfold header_scrolled, document. cbn.
  rewrite nth_error_update_nth_same.
  now destruct (nth_error (body (dom w)) h).
Qed.

Lemma class_mutations_log w e :
  class_mutations (set_log (fun l => l ++ [e]) w) =
  class_mutations w + (if is_class_mutation e then 1 else 0).
Proof.
  unfold class_mutations. cbn. rewrite filter_app, length_app. cbn.
  now destruct (is_class_mutation e).
Qed.

Lemma scrollOffset_env w w' :
  env w' = env w -> scrollOffset w' = scrollOffset w.
Proof. unfold scrollOffset. now intros ->. Qed.

(** The world [handleScroll] leaves when the flag has to change. *)
Lemma header_bound_flip h c w (s : bool) e f :
  header_bound h c w ->
  past_threshold (scrollOffset w) = negb s ->
  forall y,
  past_threshold y = s ->
  (forall n, has_class (f n) "scrolled" = s) ->
  let w' :=
    set_log (fun l => l ++ [e])
      (set_dom (with_body (update_nth h f))
         (set_rt (with_heap (update_nth c (fun _ => CBool s)))
            (set_env (with_scroll y) w))) in
  header_bound h c w' /\ scrollOffset w' = y /\ header_scrolled h w' = s.
Proof.
  intros [L C F H] P y Py Hf w'.
  assert (O : scrollOffset w' = y).
  { transitivity (scrollOffset (set_env (with_scroll y) w));
      [now apply scrollOffset_env | apply scrollOffset_with_scroll]. }
  split; [split|split].
  - exact L.
  - unfold w'. cbn. now rewrite length_update_nth.
  - rewrite O, Py. unfold w'. cbn.
    now rewrite nth_update_nth_same by exact C.
  - unfold w', document. cbn. now rewrite length_update_nth.
  - exact O.
  - unfold w', header_scrolled, document. cbn.
    rewrite nth_error_update_nth_same.
    destruct (nth_error (body (dom w)) h) eqn:N; cbn; [apply Hf|].
    apply nth_error_None in N. unfold document in H. lia.
Qed.

Lemma scroll_step h c w y :
  header_bound h c w ->
  header_bound h c (deliver (Scroll y) w) /\
  scrollOffset (deliver (Scroll y) w) = y /\
  (past_threshold y = past_threshold (scrollOffset w) ->
   log (deliver (Scroll y) w) = log w /\
   dom (deliver (Scroll y) w) = dom w) /\
  (past_threshold y <> past_threshold (scrollOffset w) ->
   header_scrolled h (deliver (Scroll y) w) = past_threshold y /\
   class_mutations (deliver (Scroll y) w) = S (class_mutations w)).
Proof.
  intros B. rewrite (deliver_scroll h c w y B).
  pose proof B as [L C F H].
  rewrite (handleScroll_run h c _ (past_threshold (scrollOffset w)));
    [| exact C | exact F].
  rewrite scrollOffset_with_scroll. cbn [snd].
  destruct (Bool.eqb (past_threshold y) (past_threshold (scrollOffset w)))
    eqn:E.
  - apply Bool.eqb_prop in E.
    split; [split|split; [|split]]; try congruence.
    + exact L.
    + exact C.
    + rewrite scrollOffset_with_scroll. cbn. rewrite F. now rewrite E.
    + exact H.
    + apply scrollOffset_with_scroll.
    + intros _. now split.
  - apply Bool.eqb_false_iff in E.
    destruct (past_threshold y) eqn:P.
    + destruct (header_bound_flip h c w true
                  (clock (set_env (with_scroll y) w),
                   ClassListAdd h "scrolled")
                  (classes_add "scrolled") B) with (y := y)
        as (B' & O & S); auto using has_class_add.
      { now destruct (past_threshold (scrollOffset w)). }
      split; [exact B'|]. split; [exact O|]. split; [congruence|].
      intros _. split; [exact S|].
      rewrite class_mutations_log. cbn. unfold class_mutations. cbn. lia.
    + destruct (header_bound_flip h c w false
                  (clock (set_env (with_scroll y) w),
                   ClassListRemove h "scrolled")
                  (classes_remove "scrolled") B) with (y := y)
        as (B' & O & S); auto using has_class_remove.
      { now destruct (past_threshold (scrollOffset w)). }
      split; [exact B'|]. split; [exact O|]. split; [congruence|].
      intros _. split; [exact S|].
      rewrite class_mutations_log. cbn. unfold class_mutations. cbn. lia.
Qed.

Lemma past_threshold_lt y : past_threshold y = true <-> (50 < y)%Q.
Proof.
  unfold past_threshold. rewrite negb_true_iff.
  split; intros H.
  - apply Qnot_le_lt. intros L. apply Qle_bool_iff in L. congruence.
  - destruct (Qle_bool y 50) eqn:E; [|reflexivity].
    apply Qle_bool_iff in E. exfalso. exact (Qlt_not_le _ _ H E).
Qed.

Lemma querySelector_lt d s e :
  querySelector d s = Some e -> e < List.length d.
Proof.
  unfold querySelector, querySelectorAll. intros H.
  assert (I : In e (filter (matches d s) (seq 0 (List.length d)))).
  { destruct (filter _ _); [discriminate|]. injection H as ->. now left. }
  apply filter_In in I. destruct I as [I _]. apply in_seq in I. lia.
Qed.

Lemma filter_listens_app t ty l1 l2 :
  filter (listens t ty) (l1 ++ l2) =
  filter (listens t ty) l1 ++ filter (listens t ty) l2.
Proof. apply filter_app. Qed.

Lemma initHeaderScrollEffect_binds w0 h :
  querySelector (document w0) (sel "site-header") = Some h ->
  scroll_listeners w0 = [] ->
  exists c,
    header_bound h c (snd (initHeaderScrollEffect w0)) /\
    (header_scrolled h w0 = false ->
     header_scrolled h (snd (initHeaderScrollEffect w0)) =
     past_threshold (scrollOffset (snd (initHeaderScrollEffect w0)))).
Proof.
  intros Q L. pose proof (querySelector_lt _ _ _ Q) as Hh.
  exists (List.length (heap (rt w0))).
  unfold initHeaderScrollEffect, alloc, addEventListener.
  unfold document in Q. exec. cbv beta.
  match goal with
  | |- context [handleScroll h ?c ?w] => set (w1 := w)
  end.
  assert (C : List.length (heap (rt w0)) < List.length (heap (rt w1)))
    by (unfold w1; cbn; rewrite length_app; cbn; lia).
  assert (F : nth (List.length (heap (rt w0))) (heap (rt w1)) (CTween None)
              = CBool false) by (unfold w1; cbn; now rewrite nth_middle).
  assert (L1 : scroll_listeners w1 =
               [{| l_target := OnWindow; l_type := "scroll";
                   l_handler := HScroll h (List.length (heap (rt w0))) |}]).
  { unfold w1, scroll_listeners in *. cbn. rewrite filter_app, L.
    reflexivity. }
  assert (O : scrollOffset w1 = scrollOffset w0)
    by (now apply scrollOffset_env).
  rewrite (handleScroll_run h _ w1 false C F). cbn [snd].
  rewrite O.
  destruct (past_threshold (scrollOffset w0)) eqn:P; cbn [Bool.eqb].
  - assert (O' : forall w', env w' = env w1 -> scrollOffset w' = scrollOffset w0)
      by (intros w' E; rewrite <- O; now apply scrollOffset_env).
    split; [split|].
    + exact L1.
    + cbn. now rewrite length_update_nth.
    + rewrite O' by reflexivity. rewrite P. cbn.
      now rewrite nth_update_nth_same by exact C.
    + unfold document. cbn. now rewrite length_update_nth.
    + intros _. rewrite O' by reflexivity. rewrite P.
      unfold header_scrolled, document. cbn.
      rewrite nth_error_update_nth_same.
      destruct (nth_error (body (dom w0)) h) eqn:N; cbn [option_map];
        [apply has_class_add|].
      apply nth_error_None in N. unfold document in Hh. lia.
  - split; [split|].
    + exact L1.
    + exact C.
    + rewrite O, P. exact F.
    + exact Hh.
    + intros S. rewrite O, P. exact S.
Qed.

Lemma scrolls_track h c ys : forall w,
  header_bound h c w ->
  header_scrolled h w = past_threshold (scrollOffset w) ->
  header_bound h c (scrolls ys w) /\
  header_scrolled h (scrolls ys w) = past_threshold (scrollOffset (scrolls ys w)).
Proof.
  induction ys as [|y ys IH]; intros w B T; cbn [scrolls fold_left];
    [now split|].
  destruct (scroll_step h c w y B) as (B' & O & Same & Flip).
  apply IH; [exact B'|]. rewrite O.
  destruct (bool_dec (past_threshold y) (past_threshold (scrollOffset w)))
    as [E|E].
  - destruct (Same E) as [_ D]. unfold header_scrolled, document.
    rewrite D. fold (document w). fold (header_scrolled h w). congruence.
  - now destruct (Flip E).
Qed.

Lemma scrolls_bound h c ys : forall w,
  header_bound h c w -> header_bound h c (scrolls ys w).
Proof.
  induction ys as [|y ys IH]; intros w B; cbn [scrolls fold_left];
    [exact B|].
  apply IH. now destruct (scroll_step h c w y B).
Qed.

(** C3, as amended.  Let [initHeaderScrollEffect] run on a page whose
    header does not carry the class yet, with no scroll listener bound
    before.  After any sequence of scroll events the header carries
    ["scrolled"] exactly when the offset exceeds 50.  A further scroll
    event that stays on the same side of the threshold changes neither the
    log nor the page: no class is added or removed; one that crosses the
    threshold makes exactly one mutation of the class list.  (This second
    part does not depend on the classes the header started with.) *)
Theorem header_class_tracks_scroll_offset w0 h ys :
  querySelector (document w0) (sel "site-header") = Some h ->
  scroll_listeners w0 = [] ->
  header_scrolled h w0 = false ->
  tracks_offset w0 h ys /\
  forall y,
    (past_threshold y =
     past_threshold (scrollOffset (scrolls ys (snd (initHeaderScrollEffect w0)))) ->
     log (deliver (Scroll y) (scrolls ys (snd (initHeaderScrollEffect w0)))) =
     log (scrolls ys (snd (initHeaderScrollEffect w0))) /\
     dom (deliver (Scroll y) (scrolls ys (snd (initHeaderScrollEffect w0)))) =
     dom (scrolls ys (snd (initHeaderScrollEffect w0)))) /\
    (past_threshold y <>
     past_threshold (scrollOffset (scrolls ys (snd (initHeaderScrollEffect w0)))) ->
     class_mutations
       (deliver (Scroll y) (scrolls ys (snd (initHeaderScrollEffect w0)))) =
     S (class_mutations (scrolls ys (snd (initHeaderScrollEffect w0))))).
Proof.
  intros Q L S.
  destruct (initHeaderScrollEffect_binds w0 h Q L) as (c & B & T).
  destruct (scrolls_track h c ys _ B (T S)) as (B' & T').
  split.
  - unfold tracks_offset. rewrite T'. apply past_threshold_lt.
  - intros y. destruct (scroll_step h c _ y B') as (_ & _ & Same & Flip).
    split; [exact Same|]. intros E. now destruct (Flip E).
Qed.

(** C3, as stated, fails when the header is served with the class already
    on it: the flag of the listener starts at [false] whatever the page
    says, so at offsets 10 and then 30 nothing removes the class. *)
Lemma preset_class_is_not_tracked :
  ~ tracks_offset preset_world 0 [10%Q; 30%Q].
Proof.
  unfold tracks_offset.
  replace (header_scrolled 0 _) with true by (vm_compute; reflexivity).
  replace (scrollOffset _) with 30%Q by (vm_compute; reflexivity).
  intros [H _]. specialize (H eq_refl). discriminate H.
Qed.

(** ** The controller: [cleanup] *)

Lemma forEach_kill (m : list (Elem * TweenRef)) : forall i w,
  forEach_from i m (fun entry _ => kill_if_set (snd entry)) w =
  (Ok tt, set_eng (with_tweens (kill_refs (map snd m))) w).
Proof.
  induction m as [|[card r] m IH]; intros i w; cbn [forEach_from map snd].
  - unfold ret, kill_refs. cbn. now destruct w as [? ? [] ? ? ?].
  - unfold bind at 1. destruct r as [id|]; cbn [kill_if_set].
    + unfold tween_kill, modify. rewrite IH. unfold kill_refs. reflexivity.
    + unfold ret. rewrite IH. unfold kill_refs. cbn.
      now destruct w as [? ? [] ? ? ?].
Qed.

Lemma cleanup_run w :
  cleanup w =
  (Ok tt,
   {| env := env w; dom := dom w;
      eng :=
        with_tweens
          (fun ts => (if gsap (ctl w) then map kill_tween else fun l => l)
                       (kill_refs (map snd (cardHoverTweens (ctl w))) ts))
          (with_triggers
             (if ScrollTrigger (ctl w) then map kill_trigger
              else fun l => l)
             (eng w));
      rt := rt w;
      app := with_controller (with_cardHoverTweens (fun _ => [])) (app w);
      log := log w ++ [(clock w, Enter "cleanup")] |}).
Proof.
  unfold cleanup, forEach, ScrollTrigger_killAll, gsap_killTweensOf_all.
  unfold ctl, clock. exec. rewrite forEach_kill. exec.
  destruct (ScrollTrigger _), (gsap _); exec; reflexivity.
Qed.

Lemma nth_error_update_nth_other {A} i j (f : A -> A) l :
  i <> j -> nth_error (update_nth i f l) j = nth_error l j.
Proof.
  revert i j; induction l as [|x l IH]; intros [|i] [|j] N; cbn; auto;
    try congruence.
Qed.

Lemma killed_update_nth j id ts :
  (forall t, nth_error ts id = Some t -> tw_killed t = true) ->
  forall t, nth_error (update_nth j kill_tween ts) id = Some t ->
            tw_killed t = true.
Proof.
  intros H t. destruct (Nat.eq_dec j id) as [->|N].
  - rewrite nth_error_update_nth_same.
    destruct (nth_error ts id); cbn; [|discriminate].
    now intros [= <-].
  - rewrite nth_error_update_nth_other by exact N. apply H.
Qed.

Lemma killed_kill_refs refs : forall ts id,
  (forall t, nth_error ts id = Some t -> tw_killed t = true) ->
  forall t, nth_error (kill_refs refs ts) id = Some t -> tw_killed t = true.
Proof.
  induction refs as [|[j|] refs IH]; intros ts id H; cbn.
  - exact H.
  - apply IH. now apply killed_update_nth.
  - now apply IH.
Qed.

Lemma kill_refs_kills refs : forall ts id,
  In (Some id) refs ->
  forall t, nth_error (kill_refs refs ts) id = Some t -> tw_killed t = true.
Proof.
  induction refs as [|r refs IH]; intros ts id I; [destruct I|].
  destruct I as [->|I]; cbn.
  - apply killed_kill_refs. intros t.
    rewrite nth_error_update_nth_same.
    destruct (nth_error ts id); cbn; [|discriminate]. now intros [= <-].
  - now apply IH.
Qed.





(** ** Invariants of the event loop *)

Lemma next_timer_In q tm : next_timer q = Some tm -> In tm q.
Proof.
  revert tm; induction q as [|t q IH]; intros tm; cbn; [discriminate|].
  destruct (next_timer q) as [u|].
  - destruct (t_due u <? t_due t)%Z; intros [= <-]; auto.
  - intros [= <-]. now left.
Qed.

Lemma reachable_advance fuel t : forall w w',
  reachable w -> advance fuel t w = Some w' -> reachable w'.
Proof.
  unfold advance.
  induction fuel as [|fuel IH]; intros w w' R; rewrite advance_with_eq;
    destruct (next_timer (timers (rt w))) as [tm|] eqn:N;
    try (intros [= <-]; now apply reach_tick);
    destruct (t_due tm <=? t)%Z;
    try discriminate; try (intros [= <-]; now apply reach_tick).
  intros A. apply (IH _ _ (reach_fire tm w R (next_timer_In _ _ N)) A).
Qed.

Lemma reachable_run fuel schedule : forall w w',
  reachable w -> run fuel schedule w = Some w' -> reachable w'.
Proof.
  unfold run.
  induction schedule as [|[t i] s IH]; intros w w' R; cbn [run_with].
  - now intros [= <-].
  - destruct (advance_with onReady fuel t w) as [w1|] eqn:A; [|discriminate].
    apply IH. apply reach_deliver. exact (reachable_advance fuel t w w1 R A).
Qed.

Section EventLoop.
Variable Inv : World -> Prop.
Hypothesis Inv_env : forall f w, Inv w -> Inv (set_env f w).
Hypothesis Inv_log : forall f w, Inv w -> Inv (set_log f w).
Hypothesis Inv_untimer : forall id w, Inv w -> Inv (remove_timer id w).
Hypothesis Inv_handler : forall h, keeps Inv (run_handler h).
Hypothesis Inv_timer : forall f, keeps Inv (run_timer_with onReady f).
Hypothesis Inv_load : forall e d, Inv (snd (main (initial_world e d))).

Lemma Inv_task m w : keeps Inv m -> Inv w -> Inv (task m w).
Proof.
  intros K I. unfold task. specialize (K w I).
  destruct (m w) as [[u|e] w']; cbn in K; [exact K|]. now apply Inv_log.
Qed.

Lemma Inv_dispatch t ty w : Inv w -> Inv (dispatch t ty w).
Proof.
  unfold dispatch. generalize (filter (listens t ty) (listeners (rt w))).
  intros ls. revert w. induction ls as [|l ls IH]; intros w I; cbn; auto.
  apply IH. now apply Inv_task.
Qed.

Lemma Inv_deliver i w : Inv w -> Inv (deliver i w).
Proof.
  intros I. destruct i; cbn [deliver]; apply Inv_dispatch; auto.
Qed.

Lemma Inv_fire tm w : Inv w -> Inv (fire tm w).
Proof.
  intros I. unfold fire, fire_with. apply Inv_task; [apply Inv_timer|].
  unfold set_clock. now apply Inv_env, Inv_untimer.
Qed.

Theorem Inv_reachable w : reachable w -> Inv w.
Proof.
  induction 1.
  - unfold task. pose proof (Inv_load e d) as I.
    destruct (main (initial_world e d)) as [[u|x] w']; cbn in I; auto.
  - now apply Inv_deliver.
  - now apply Inv_fire.
  - unfold set_clock. now apply Inv_env.
Qed.
End EventLoop.

(** ** The engine holds only what the controller made *)

Ltac unfold_prims :=
  cbv [emit modify alloc addEventListener new_tween new_trigger tween_kill
       write read read_tween read_bool read_num this_ScrollTrigger gets
       gsap_set gsap_to gsap_timeline timeline_to gsap_config this_gsap
       ScrollTrigger_batch ScrollTrigger_create ScrollTrigger_config
       ScrollTrigger_killAll ScrollTrigger_refresh gsap_killTweensOf_all
       classList_add classList_remove setTimeout clearTimeout kill_if_set
       cardHoverTweens_set set_this_gsap set_this_ScrollTrigger
       set_this_isInitialized console_log console_warn initCSS3Fallbacks
       registerPlugin window_globals
       bind ret throw ctl clock document].

Create HintDb known.

Lemma update_nth_nil {A} i (f : A -> A) : update_nth i f [] = [].
Proof. now destruct i. Qed.

Ltac known_leaf :=
  first
    [ assumption
    | solve [eauto with known]
    | let w := fresh "w" in
      let J1 := fresh "J" in
      let J2 := fresh "J" in
      let J3 := fresh "J" in
      intros w (J1 & J2 & J3);
      unfold engine_known in *; unfold_prims; unfold ctl in *;
      repeat match goal with
             | |- context [if ?b then _ else _] => destruct b eqn:?
             | |- context [match ?x with _ => _ end] => destruct x eqn:?
             end;
      cbn in *;
      repeat split; intros;
      repeat match goal with
             | U : isInitialized _ = false |- _ =>
                 destruct (J1 U) as (? & ? & ?); clear J1
             | U : isInitialized _ = true |- _ =>
                 pose proof (J2 U); clear J2
             | U : ScrollTrigger _ = false |- _ =>
                 pose proof (J3 U); clear J3
             end;
      repeat match goal with
             | H : tweens _ = [] |- _ => rewrite H in *
             | H : triggers _ = [] |- _ => rewrite H in *
             end;
      cbn; rewrite ?update_nth_nil; auto; try congruence ].

Lemma known_card_mouseenter c h : keeps engine_known (card_mouseenter c h).
Proof. unfold card_mouseenter. hoare known_leaf. Qed.

Lemma known_card_mouseleave c h : keeps engine_known (card_mouseleave c h).
Proof. unfold card_mouseleave. hoare known_leaf. Qed.

Lemma known_btn_hover v1 v2 b i c1 c2 :
  keeps engine_known (btn_hover v1 v2 b i c1 c2).
Proof. unfold btn_hover. hoare known_leaf. Qed.

Lemma known_handleScroll h c : keeps engine_known (handleScroll h c).
Proof. unfold handleScroll. hoare known_leaf. Qed.

Lemma known_anchor_click a : keeps engine_known (anchor_click a).
Proof.
  unfold anchor_click. hoare known_leaf.
Qed.

Lemma known_on_resize : keeps engine_known on_resize.
Proof. unfold on_resize. hoare known_leaf. Qed.

Lemma known_on_page_load : keeps engine_known on_page_load.
Proof. unfold on_page_load. hoare known_leaf. Qed.

Lemma known_refresh : keeps engine_known refresh.
Proof. unfold refresh. hoare known_leaf. Qed.

Lemma known_cleanup : keeps engine_known cleanup.
Proof.
  intros w (J1 & J2 & J3). rewrite cleanup_run. unfold engine_known, ctl in *.
  cbn. split; [|split]; intros U.
  - destruct (J1 U) as (G & T & R). rewrite G, T, R.
    assert (K : forall refs, kill_refs refs [] = []).
    { induction refs as [|[i|] refs IH]; cbn; auto.
      now rewrite update_nth_nil. }
    rewrite K. now destruct (ScrollTrigger _).
  - auto.
  - rewrite (J3 U). now rewrite U.
Qed.

Lemma known_initSmoothScrolling : keeps engine_known initSmoothScrolling.
Proof. unfold initSmoothScrolling. hoare known_leaf. Qed.


Ltac run_with_returns H I :=
  lazymatch goal with
  | |- context [match ?m ?w with _ => _ end] =>
      let a := fresh "a" in
      let w' := fresh "w" in
      let E := fresh "E" in
      let I' := fresh "I" in
      destruct (H w I) as (a & w' & E & I');
      cbv [ret] in E; rewrite E; clear E I; cbv iota beta
  end.

Lemma init_first_call_with (Inv : World -> Prop) w :
  isInitialized (ctl w) = false ->
  g_gsap (globals (env w) (clock w)) = true ->
  Inv (init_prefix w) ->
  returns Inv (gsap_config [("force3D", VBool true);
                            ("nullTargetWarn", VBool false)]) ->
  (forall st,
     returns Inv (if st : bool
                  then ScrollTrigger_config
                         [("ignoreMobileResize", VBool true)]
                  else ret tt)) ->
  returns Inv prefersReducedMotion ->
  (forall r, returns Inv (if r : bool then initSimpleAnimations
                          else initFullAnimations)) ->
  exists w2, Inv w2 /\ init w = (Ok tt, init_suffix w2).
Proof.
  intros U G I H1 H2 H3 H4.
  unfold init, set_this_gsap, set_this_ScrollTrigger, init_suffix.
  unfold init_prefix in I.
  unfold clock, ctl in *. exec. unfold set_this_isInitialized. rewrite G.
  run_with_returns H1 I.
  match goal with
  | |- context [if ?b then _ else _] => generalize b; intros st
  end.
  run_with_returns (H2 st) I0.
  run_with_returns H3 I.
  run_with_returns (H4 a1) I0.
  exec. now exists w3.
Qed.

(** *** Without [this.ScrollTrigger] no trigger is made *)

Lemma returns_bind_gets (Inv : World -> Prop) {A B} (f : World -> A) v
  (k : A -> M B) :
  (forall w, Inv w -> f w = v) ->
  returns Inv (k v) -> returns Inv (bind (gets f) k).
Proof.
  intros F K w I. unfold bind, gets. rewrite (F w I). now apply K.
Qed.

Create HintDb notrig.

Ltac notrig_leaf :=
  first
    [ assumption
    | solve [eauto with notrig]
    | let w := fresh "w" in
      let H := fresh "H" in
      let G := fresh "G" in
      let S := fresh "S" in
      let T := fresh "T" in
      intros w (H & G & S & T);
      unfold no_trigger_ready; unfold_prims; cbv [ctl] in H; cbn;
      rewrite ?H, ?G, ?S; cbn; eauto 8 ].

Ltac notrig_step :=
  lazymatch goal with
  | |- returns (no_trigger_ready _ _) (bind this_ScrollTrigger _) =>
      apply (returns_bind_gets _ _ false);
      [ intros ? (-> & _ & ? & _); assumption | cbn [negb] ]
  | |- _ => hoare_step notrig_leaf
  end.

Ltac notrig := repeat notrig_step.

Lemma notrig_setInitialStates c tr :
  returns (no_trigger_ready c tr) setInitialStates.
Proof. unfold setInitialStates. notrig. Qed.

Lemma notrig_initSimpleAnimations c tr :
  returns (no_trigger_ready c tr) initSimpleAnimations.
Proof. unfold initSimpleAnimations. notrig. Qed.

Lemma notrig_animateHero c tr : returns (no_trigger_ready c tr) animateHero.
Proof. unfold animateHero. notrig. Qed.

Lemma notrig_animateSections c tr :
  returns (no_trigger_ready c tr) animateSections.
Proof. unfold animateSections. notrig. Qed.

Lemma notrig_animateCards c tr :
  returns (no_trigger_ready c tr) animateCards.
Proof. unfold animateCards, bind_card_hover. notrig. Qed.

Lemma notrig_animateButtons c tr :
  returns (no_trigger_ready c tr) animateButtons.
Proof. unfold animateButtons, bind_button_hover. notrig. Qed.

Lemma notrig_animateFloatingElements c tr :
  returns (no_trigger_ready c tr) animateFloatingElements.
Proof. unfold animateFloatingElements. notrig. Qed.

Lemma notrig_handleScroll c tr h s :
  returns (no_trigger_ready c tr) (handleScroll h s).
Proof. unfold handleScroll. notrig. Qed.

#[local] Hint Resolve notrig_handleScroll : notrig.

Lemma notrig_initHeaderScrollEffect c tr :
  returns (no_trigger_ready c tr) initHeaderScrollEffect.
Proof. unfold initHeaderScrollEffect. notrig. Qed.

Lemma notrig_animatePhilosophySection c tr :
  returns (no_trigger_ready c tr) animatePhilosophySection.
Proof. unfold animatePhilosophySection. notrig. Qed.

#[local] Hint Resolve notrig_setInitialStates notrig_animateHero
  notrig_animateSections notrig_animateCards notrig_animateButtons
  notrig_animateFloatingElements notrig_initHeaderScrollEffect
  notrig_animatePhilosophySection notrig_initSimpleAnimations : notrig.

Lemma notrig_initFullAnimations c tr :
  returns (no_trigger_ready c tr) initFullAnimations.
Proof. unfold initFullAnimations. notrig. Qed.

#[local] Hint Resolve notrig_initFullAnimations : notrig.

Lemma init_without_engine' w :
  isInitialized (ctl w) = false ->
  g_gsap (globals (env w) (clock w)) = false ->
  exists e,
    init w =
    (Throw e,
     set_app (with_controller
                (with_ScrollTrigger
                   (g_ScrollTrigger (globals (env w) (clock w)))))
       (set_app (with_controller (with_gsap false))
          (set_log (fun l => l ++ [(clock w, Enter "init")]) w))).
Proof.
  intros U G. unfold init, set_this_gsap, set_this_ScrollTrigger,
    gsap_config, this_gsap.
  unfold clock, ctl in *. exec. cbn. rewrite ?G. exec.
  eexists. reflexivity.
Qed.

#[local] Hint Resolve returns_initSimpleAnimations
  returns_initFullAnimations : ready.

Lemma known_init : keeps engine_known init.
Proof.
  intros w J. destruct (isInitialized (ctl w)) eqn:U.
  - rewrite (init_again w U). exact J.
  - destruct J as (J1 & J2 & J3). destruct (J1 U) as (G0 & T0 & R0).
    destruct (g_gsap (globals (env w) (clock w))) eqn:G.
    + destruct (g_ScrollTrigger (globals (env w) (clock w))) eqn:S.
      * assert (I : gsap_ready (ctl (init_prefix w)) (init_prefix w))
          by now split.
        destruct (init_first_call_with _ w U G I)
          as (w2 & (C & _) & ->);
          [hoare ready_leaf | intros; hoare ready_leaf
          | unfold prefersReducedMotion; hoare ready_leaf
          | intros; hoare ready_leaf |].
        cbn [snd]. unfold engine_known, init_suffix, init_prefix, ctl in *.
        cbn. rewrite C. cbn. rewrite S.
        split; [discriminate|]. split; [reflexivity|discriminate].
      * assert (I : no_trigger_ready (ctl (init_prefix w)) []
                      (init_prefix w)).
        { unfold no_trigger_ready, init_prefix, ctl. cbn. now rewrite S. }
        destruct (init_first_call_with _ w U G I)
          as (w2 & (C & _ & _ & T) & ->);
          [notrig | intros; notrig
          | unfold prefersReducedMotion; notrig
          | intros; notrig |].
        cbn [snd]. unfold engine_known, init_suffix, init_prefix, ctl in *.
        cbn. rewrite C. cbn.
        split; [discriminate|]. split; [reflexivity|]. intros _. exact T.
    + destruct (init_without_engine' w U G) as (e & ->). cbn [snd].
      unfold engine_known, ctl in *. cbn. rewrite U.
      split; [now intros _|]. split; [discriminate|]. now intros _.
Qed.

#[local] Hint Resolve known_init known_initSmoothScrolling known_cleanup
  known_refresh known_on_page_load known_on_resize known_anchor_click
  known_handleScroll known_btn_hover known_card_mouseenter
  known_card_mouseleave : known.

Lemma known_onReady : keeps engine_known onReady.
Proof. unfold onReady. hoare known_leaf. Qed.

Lemma known_checkGSAP cb a :
  keeps engine_known cb -> keeps engine_known (checkGSAP cb a).
Proof.
  intros K. unfold checkGSAP, register_plugins, invoke. hoare known_leaf.
Qed.

Lemma known_waitForGSAP cb :
  keeps engine_known cb -> keeps engine_known (waitForGSAP cb).
Proof.
  intros K. unfold waitForGSAP. pose proof (known_checkGSAP cb) as C.
  hoare known_leaf.
Qed.

Lemma known_initialize : keeps engine_known initialize.
Proof. apply known_waitForGSAP, known_onReady. Qed.

#[local] Hint Resolve known_initialize : known.

Lemma known_run_handler h : keeps engine_known (run_handler h).
Proof.
  destruct h; cbn [run_handler]; unfold btn_mouseenter, btn_mouseleave;
    auto with known.
Qed.

Lemma known_run_timer f : keeps engine_known (run_timer_with onReady f).
Proof.
  destruct f; cbn [run_timer_with]; auto with known.
  apply known_checkGSAP, known_onReady.
Qed.

Lemma known_main : keeps engine_known main.
Proof. unfold main. hoare known_leaf. Qed.

Lemma known_initial e d : engine_known (initial_world e d).
Proof. unfold engine_known. cbn. repeat split; auto; discriminate. Qed.

Theorem reachable_engine_known w : reachable w -> engine_known w.
Proof.
  apply Inv_reachable.
  - intros f w0 J. exact J.
  - intros f w0 J. exact J.
  - intros id w0 J. exact J.
  - apply known_run_handler.
  - apply known_run_timer.
  - intros e d. apply known_main, known_initial.
Qed.

(** ** The top-level listeners *)

Create HintDb top.

Ltac top_leaf :=
  first
    [ assumption
    | solve [eauto with top]
    | let w := fresh "w" in
      let H1 := fresh "H" in
      let H2 := fresh "H" in
      let H3 := fresh "H" in
      intros w (H1 & H2 & H3);
      unfold top_listeners, listeners_for in *; unfold_prims;
      repeat match goal with
             | |- context [if ?b then _ else _] => destruct b eqn:?
             | |- context [match ?x with _ => _ end] => destruct x eqn:?
             end;
      cbn [rt listeners with_listeners with_heap with_timers with_nextTimer
           set_rt set_log set_eng set_dom set_app set_env snd fst];
      rewrite ?filter_app, ?map_app, ?H1, ?H2, ?H3;
      cbn; rewrite ?app_nil_r; auto ].

Section TopListeners.
Variables l1 l2 l3 : list Handler.

Lemma top_card_mouseenter c h : keeps (top_listeners l1 l2 l3) (card_mouseenter c h).
Proof. unfold card_mouseenter. hoare top_leaf. Qed.

Lemma top_card_mouseleave c h : keeps (top_listeners l1 l2 l3) (card_mouseleave c h).
Proof. unfold card_mouseleave. hoare top_leaf. Qed.

Lemma top_btn_hover v1 v2 b i c1 c2 : keeps (top_listeners l1 l2 l3) (btn_hover v1 v2 b i c1 c2).
Proof. unfold btn_hover. hoare top_leaf. Qed.

Lemma top_handleScroll h c : keeps (top_listeners l1 l2 l3) (handleScroll h c).
Proof. unfold handleScroll. hoare top_leaf. Qed.

Lemma top_anchor_click a : keeps (top_listeners l1 l2 l3) (anchor_click a).
Proof. unfold anchor_click. hoare top_leaf. Qed.

Lemma top_on_resize : keeps (top_listeners l1 l2 l3) on_resize.
Proof. unfold on_resize. hoare top_leaf. Qed.

Lemma top_on_page_load : keeps (top_listeners l1 l2 l3) on_page_load.
Proof. unfold on_page_load. hoare top_leaf. Qed.

Lemma top_refresh : keeps (top_listeners l1 l2 l3) refresh.
Proof. unfold refresh. hoare top_leaf. Qed.

Lemma top_cleanup : keeps (top_listeners l1 l2 l3) cleanup.
Proof. intros w I. rewrite cleanup_run. exact I. Qed.

Lemma top_initSmoothScrolling : keeps (top_listeners l1 l2 l3) initSmoothScrolling.
Proof. unfold initSmoothScrolling. hoare top_leaf. Qed.

Lemma top_setInitialStates : keeps (top_listeners l1 l2 l3) setInitialStates.
Proof. unfold setInitialStates. hoare top_leaf. Qed.

Lemma top_initSimpleAnimations : keeps (top_listeners l1 l2 l3) initSimpleAnimations.
Proof. unfold initSimpleAnimations. hoare top_leaf. Qed.

Lemma top_animateHero : keeps (top_listeners l1 l2 l3) animateHero.
Proof. unfold animateHero. hoare top_leaf. Qed.

Lemma top_animateSections : keeps (top_listeners l1 l2 l3) animateSections.
Proof. unfold animateSections. hoare top_leaf. Qed.

Lemma top_animateCards : keeps (top_listeners l1 l2 l3) animateCards.
Proof. unfold animateCards, bind_card_hover. hoare top_leaf. Qed.

Lemma top_animateButtons : keeps (top_listeners l1 l2 l3) animateButtons.
Proof. unfold animateButtons, bind_button_hover. hoare top_leaf. Qed.

Lemma top_animateFloatingElements : keeps (top_listeners l1 l2 l3) animateFloatingElements.
Proof. unfold animateFloatingElements. hoare top_leaf. Qed.

#[local] Hint Resolve top_handleScroll : top.

Lemma top_initHeaderScrollEffect : keeps (top_listeners l1 l2 l3) initHeaderScrollEffect.
Proof. unfold initHeaderScrollEffect. hoare top_leaf. Qed.

Lemma top_animatePhilosophySection : keeps (top_listeners l1 l2 l3) animatePhilosophySection.
Proof. unfold animatePhilosophySection. hoare top_leaf. Qed.

#[local] Hint Resolve top_setInitialStates top_animateHero top_animateSections
  top_animateCards top_animateButtons top_animateFloatingElements
  top_initHeaderScrollEffect top_animatePhilosophySection
  top_initSimpleAnimations : top.

Lemma top_initFullAnimations : keeps (top_listeners l1 l2 l3) initFullAnimations.
Proof. unfold initFullAnimations. hoare top_leaf. Qed.

#[local] Hint Resolve top_initFullAnimations : top.

Lemma top_init : keeps (top_listeners l1 l2 l3) init.
Proof. unfold init, prefersReducedMotion. hoare top_leaf. Qed.

#[local] Hint Resolve top_init top_initSmoothScrolling top_cleanup top_refresh
  top_on_page_load top_on_resize top_anchor_click top_btn_hover
  top_card_mouseenter top_card_mouseleave : top.

Lemma top_onReady : keeps (top_listeners l1 l2 l3) onReady.
Proof. unfold onReady. hoare top_leaf. Qed.

Lemma top_checkGSAP cb a : keeps (top_listeners l1 l2 l3) cb -> keeps (top_listeners l1 l2 l3) (checkGSAP cb a).
Proof.
  intros K. unfold checkGSAP, register_plugins, invoke. hoare top_leaf.
Qed.

Lemma top_waitForGSAP cb : keeps (top_listeners l1 l2 l3) cb -> keeps (top_listeners l1 l2 l3) (waitForGSAP cb).
Proof.
  intros K. unfold waitForGSAP. pose proof (top_checkGSAP cb) as C.
  hoare top_leaf.
Qed.

Lemma top_initialize : keeps (top_listeners l1 l2 l3) initialize.
Proof. apply top_waitForGSAP, top_onReady. Qed.

#[local] Hint Resolve top_initialize : top.

Lemma top_run_handler h : keeps (top_listeners l1 l2 l3) (run_handler h).
Proof.
  destruct h; cbn [run_handler]; unfold btn_mouseenter, btn_mouseleave;
    auto with top.
Qed.

Lemma top_run_timer f : keeps (top_listeners l1 l2 l3) (run_timer_with onReady f).
Proof.
  destruct f; cbn [run_timer_with]; auto with top.
  apply top_checkGSAP, top_onReady.
Qed.
End TopListeners.

(** *** The callback and the loader always return *)

Ltac total_leaf :=
  first
    [ assumption
    | let w := fresh "w" in
      intros w _; unfold_prims; cbn; eauto ].

Lemma initSmoothScrolling_returns w :
  exists w', initSmoothScrolling w = (Ok tt, w').
Proof.
  assert (R : returns (fun _ => True) initSmoothScrolling)
    by (unfold initSmoothScrolling; hoare total_leaf).
  destruct (R w I) as ([] & w' & E & _). eauto.
Qed.

Lemma init_returns w :
  g_gsap (globals (env w) (clock w)) = true ->
  exists w', init w = (Ok tt, w').
Proof.
  intros G. destruct (isInitialized (ctl w)) eqn:U.
  - rewrite (init_again w U). eauto.
  - destruct (init_first_call w U G) as (w' & E & _). eauto.
Qed.

Lemma onReady_returns w :
  g_gsap (globals (env w) (clock w)) = true ->
  exists w', onReady w = (Ok tt, w').
Proof.
  intros G. unfold onReady, bind.
  destruct (init_returns w G) as (w1 & ->).
  apply initSmoothScrolling_returns.
Qed.

Lemma checkGSAP_onReady_returns a w :
  exists w', checkGSAP onReady a w = (Ok tt, w').
Proof.
  destruct (engine_detected w) eqn:D.
  - assert (G : g_gsap (globals (env w) (clock w)) = true)
      by (unfold engine_detected in D; now apply andb_prop in D).
    destruct (fst (register_plugins (globals (env w) (clock w)) w))
      as [[]|e] eqn:R.
    + rewrite (checkGSAP_registered onReady a w D R).
      destruct (onReady_returns (first_call a w) G) as (w' & ->). eauto.
    + rewrite (checkGSAP_caught onReady a w e D R).
      apply onReady_returns. exact G.
  - unfold engine_detected, checkGSAP, setTimeout, initCSS3Fallbacks in *.
    unfold clock in *. exec.
    destruct (_ <? _)%Z; exec; eauto.
Qed.

Lemma initialize_returns w : exists w', initialize w = (Ok tt, w').
Proof.
  unfold initialize, waitForGSAP, alloc. unfold bind at 1.
  apply checkGSAP_onReady_returns.
Qed.

Lemma top_main_binds e d :
  exists w', main (initial_world e d) = (Ok tt, w') /\ top_bound w'.
Proof.
  unfold main. unfold bind at 1. unfold gets at 1.
  set (w0 := initial_world e d).
  assert (I0 : top_listeners [] [] [] w0) by (repeat split).
  assert (S : exists w1,
             (if String.eqb (readyState (env w0)) "loading"
              then addEventListener OnDocument "DOMContentLoaded" HInitialize
              else initialize) w0 = (Ok tt, w1) /\
             top_listeners [] [] [] w1).
  { destruct (String.eqb _ _).
    - eexists. split; [reflexivity|]. repeat split.
    - destruct (initialize_returns w0) as (w1 & E). exists w1.
      split; [exact E|].
      pose proof (top_initialize [] [] [] w0 I0) as K.
      now rewrite E in K. }
  destruct S as (w1 & E & K1 & K2 & K3).
  unfold bind at 1. rewrite E. unfold addEventListener. exec.
  eexists. split; [reflexivity|].
  unfold top_bound, top_listeners, listeners_for in *.
  cbn [rt listeners with_listeners set_rt].
  rewrite !filter_app, !map_app, K1, K2, K3. now cbn.
Qed.

Theorem reachable_top_bound w : reachable w -> top_bound w.
Proof.
  apply Inv_reachable.
  - intros f w0 J. exact J.
  - intros f w0 J. exact J.
  - intros id w0 J. exact J.
  - apply top_run_handler.
  - apply top_run_timer.
  - intros e d. destruct (top_main_binds e d) as (w' & -> & T). exact T.
Qed.

(** ** Unloading the page *)


Lemma deliver_beforeunload w :
  top_bound w -> deliver BeforeUnload w = snd (cleanup w).
Proof.
  intros (_ & U & _). unfold deliver, dispatch, listeners_for in *.
  destruct (filter _ _) as [|l [|l' ls]]; try discriminate.
  injection U as U. cbn [fold_left]. rewrite U. cbn [run_handler].
  unfold task. now rewrite cleanup_run.
Qed.


(** ** The resize listener *)

Lemma on_resize_run w :
  on_resize w =
  (Ok tt,
   set_app (with_resizeTimeout (Some (nextTimer (rt w))))
     (set_rt (fun r =>
        with_nextTimer (S (nextTimer r))
          (with_timers
             (fun q => without_timer (resizeTimeout (app w)) q ++
                       [{| t_id := nextTimer r;
                           t_due := (clock w + 250)%Z;
                           t_fn := TRefresh |}]) r)) w)).
Proof.
  unfold on_resize, clearTimeout, setTimeout, without_timer.
  destruct (resizeTimeout (app w)) eqn:E; unfold clock; exec;
    rewrite ?E; exec; destruct w as [? ? ? [] ? ?]; reflexivity.
Qed.

Lemma deliver_resize w :
  top_bound w -> deliver Resize w = snd (on_resize w).
Proof.
  intros (R & _ & _). unfold deliver, dispatch, listeners_for in *.
  destruct (filter _ _) as [|l [|l' ls]]; try discriminate.
  injection R as R. cbn [fold_left]. rewrite R. cbn [run_handler].
  unfold task. now rewrite on_resize_run.
Qed.

Lemma top_bound_rt w w' : rt w' = rt w -> top_bound w -> top_bound w'.
Proof.
  unfold top_bound, top_listeners, listeners_for. now intros ->.
Qed.

Lemma top_bound_listeners w w' :
  listeners (rt w') = listeners (rt w) -> top_bound w -> top_bound w'.
Proof.
  unfold top_bound, top_listeners, listeners_for. now intros ->.
Qed.

Lemma refresh_calls_log w w' :
  log w' = log w -> refresh_calls w' = refresh_calls w.
Proof. unfold refresh_calls. now intros ->. Qed.

(** One resize event of a burst: nothing fires on the way to it, and the
    listener replaces the pending refresh. *)
Lemma resize_step fuel prev t w :
  top_bound w -> refresh_pending (prev + 250) w ->
  (prev <= t < prev + 250)%Z ->
  exists w0,
    advance fuel t w = Some w0 /\
    top_bound (deliver Resize w0) /\
    refresh_pending (Z.max (clock w) t + 250) (deliver Resize w0) /\
    clock (deliver Resize w0) = Z.max (clock w) t /\
    refresh_calls (deliver Resize w0) = refresh_calls w.
Proof.
  intros B (id & Q & P) Ht. unfold advance. rewrite advance_with_eq, Q.
  cbn [next_timer t_due].
  replace (prev + 250 <=? t)%Z with false by (symmetry; apply Z.leb_gt; lia).
  eexists. split; [reflexivity|].
  assert (B' : top_bound (set_clock t w)) by (revert B; now apply top_bound_rt).
  rewrite (deliver_resize _ B'), on_resize_run. cbn [snd].
  split; [revert B'; now apply top_bound_listeners|].
  split; [|split; [reflexivity|reflexivity]].
  exists (nextTimer (rt w)). unfold refresh_pending, without_timer. cbn.
  rewrite P, Q. cbn. rewrite Nat.eqb_refl. cbn. unfold clock. cbn.
  now split.
Qed.

Lemma first_resize fuel t1 w0 :
  top_bound w0 -> timers (rt w0) = [] -> (clock w0 <= t1)%Z ->
  exists w,
    advance fuel t1 w0 = Some w /\
    top_bound (deliver Resize w) /\
    refresh_pending (t1 + 250) (deliver Resize w) /\
    clock (deliver Resize w) = t1 /\
    refresh_calls (deliver Resize w) = refresh_calls w0.
Proof.
  intros B Q C. unfold advance. rewrite advance_with_eq, Q.
  cbn [next_timer]. eexists. split; [reflexivity|].
  assert (B' : top_bound (set_clock t1 w0))
    by (revert B; now apply top_bound_rt).
  rewrite (deliver_resize _ B'), on_resize_run. cbn [snd].
  split; [revert B'; now apply top_bound_listeners|].
  split; [|split; [apply Z.max_r; exact C | reflexivity]].
  exists (nextTimer (rt w0)). unfold refresh_pending, without_timer. cbn.
  rewrite Q. unfold clock in *. cbn. rewrite Z.max_r by exact C.
  split; [|reflexivity]. now destruct (resizeTimeout (app w0)).
Qed.

Lemma burst_run fuel : forall ts prev w,
  top_bound w -> refresh_pending (prev + 250) w -> clock w = prev ->
  burst prev ts ->
  exists w1,
    run fuel (resizes ts) w = Some w1 /\
    top_bound w1 /\
    refresh_pending (last_time prev ts + 250) w1 /\
    clock w1 = last_time prev ts /\
    refresh_calls w1 = refresh_calls w.
Proof.
  unfold run.
  induction ts as [|t ts IH]; intros prev w B P C Hb;
    cbn [resizes map run_with last_time].
  - exists w. subst prev.
    split; [reflexivity|]. split; [exact B|]. now split.
  - destruct Hb as [Ht Hb].
    destruct (resize_step fuel prev t w B P Ht)
      as (w0 & A & B' & P' & C' & R').
    unfold advance in A. rewrite A.
    rewrite C, Z.max_r in P', C' by lia.
    destruct (IH t (deliver Resize w0) B' P' C' Hb)
      as (w1 & E & B1 & P1 & C1 & R1).
    exists w1. split; [exact E|]. split; [exact B1|]. split; [exact P1|].
    split; [exact C1|]. congruence.
Qed.

Lemma refresh_run w :
  exists w',
    refresh w = (Ok tt, w') /\
    log w' = log w ++ [(clock w, Enter "refresh")] /\
    rt w' = rt w.
Proof.
  unfold refresh, ScrollTrigger_refresh. unfold clock, ctl. exec.
  destruct (ScrollTrigger _); exec; eexists; now repeat split.
Qed.

Lemma pending_refresh_fires fuel due T w :
  refresh_pending due w -> (clock w <= due)%Z -> (due <= T)%Z ->
  1 <= fuel ->
  exists wf,
    advance fuel T w = Some wf /\
    refresh_calls wf = refresh_calls w ++ [due] /\
    timers (rt wf) = [].
Proof.
  intros (id & Q & P) C HT Hf. destruct fuel as [|fuel]; [lia|].
  unfold advance. rewrite advance_with_eq, Q. cbn [next_timer t_due].
  replace (due <=? T)%Z with true by (symmetry; apply Z.leb_le; lia).
  unfold fire_with, task. cbn [t_fn t_id t_due run_timer_with].
  destruct (refresh_run (set_clock due (remove_timer id w)))
    as (w' & -> & L & R).
  assert (Q' : timers (rt w') = []).
  { rewrite R. cbn. rewrite Q. cbn. now rewrite Nat.eqb_refl. }
  rewrite advance_with_eq, Q'. cbn [next_timer].
  eexists. split; [reflexivity|]. split; [|exact Q'].
  unfold refresh_calls. cbn [log set_clock set_env]. rewrite L.
  rewrite filter_app, map_app. cbn. unfold clock. cbn.
  now rewrite Z.max_r by exact C.
Qed.

(** C8.  Take a world the page can reach in which no timer is pending, and
    a burst of resize events in which each event comes less than 250 ms
    after the one before.  While the burst lasts [refresh] is not called,
    and after each event exactly one timer is pending, the one that event
    set: the listener first clears the timer it remembers and then sets a
    new one, 250 ms ahead.  Once 250 ms have passed after the last event,
    [refresh] has been called exactly once, at that instant, and nothing
    is pending.  One unit of fuel is enough. *)
Theorem resize_burst_refreshes_once w0 t1 ts fuel T :
  reachable w0 ->
  timers (rt w0) = [] ->
  (clock w0 <= t1)%Z ->
  burst t1 ts ->
  (last_time t1 ts + 250 <= T)%Z ->
  1 <= fuel ->
  (forall w,
     timers (rt (snd (on_resize w))) =
     without_timer (resizeTimeout (app w)) (timers (rt w)) ++
     [{| t_id := nextTimer (rt w); t_due := (clock w + 250)%Z;
         t_fn := TRefresh |}]) /\
  exists w1 wf,
    run fuel (resizes (t1 :: ts)) w0 = Some w1 /\
    refresh_calls w1 = refresh_calls w0 /\
    refresh_pending (last_time t1 ts + 250) w1 /\
    advance fuel T w1 = Some wf /\
    refresh_calls wf = refresh_calls w0 ++ [(last_time t1 ts + 250)%Z] /\
    timers (rt wf) = [].
Proof.
  intros R Q C Hb HT Hf. split.
  - intros w. now rewrite on_resize_run.
  - pose proof (reachable_top_bound w0 R) as B.
    destruct (first_resize fuel t1 w0 B Q C) as (w & A & B' & P' & C' & R').
    destruct (burst_run fuel ts t1 (deliver Resize w) B' P' C' Hb)
      as (w1 & E & B1 & P1 & C1 & R1).
    destruct (pending_refresh_fires fuel _ T w1 P1) as (wf & F & RF & QF);
      try lia.
    exists w1, wf. unfold run in *. cbn [resizes map run_with].
    unfold advance in A. rewrite A. repeat split; auto; congruence.
Qed.

(** ** The hover listeners of the cards *)

Lemma active_hover_lt ts e i : active_hover ts e i -> i < List.length ts.
Proof.
  intros (t & N & _). apply nth_error_Some. congruence.
Qed.

Lemma active_hover_app ts t e i :
  active_hover (ts ++ [t]) e i ->
  active_hover ts e i \/
  (i = List.length ts /\ is_card_hover e t = true /\ tw_killed t = false).
Proof.
  intros (t' & N & H & K).
  destruct (Nat.lt_ge_cases i (List.length ts)) as [L|L].
  - left. exists t'. rewrite nth_error_app1 in N by exact L. auto.
  - right. rewrite nth_error_app2 in N by exact L.
    destruct (i - List.length ts) as [|k] eqn:E; cbn in N.
    + injection N as <-. split; [lia|auto].
    + now destruct k.
Qed.

Lemma is_card_hover_kill e t :
  is_card_hover e (kill_tween t) = is_card_hover e t.
Proof. reflexivity. Qed.

Lemma active_hover_kill j ts e i :
  active_hover (update_nth j kill_tween ts) e i ->
  active_hover ts e i /\ i <> j.
Proof.
  intros (t & N & H & K). destruct (Nat.eq_dec j i) as [->|D].
  - rewrite nth_error_update_nth_same in N.
    destruct (nth_error ts i); cbn in N; [|discriminate].
    injection N as <-. discriminate K.
  - rewrite nth_error_update_nth_other in N by exact D.
    split; [now exists t | congruence].
Qed.

Lemma active_hover_map_kill ts e i :
  ~ active_hover (map kill_tween ts) e i.
Proof.
  intros (t & N & H & K). rewrite nth_error_map in N.
  destruct (nth_error ts i); cbn in N; [|discriminate].
  injection N as <-. discriminate K.
Qed.

Lemma active_hover_kill_refs refs : forall ts e i,
  active_hover (kill_refs refs ts) e i -> active_hover ts e i.
Proof.
  induction refs as [|[j|] refs IH]; intros ts e i A; cbn in A; auto.
  apply IH in A. now apply active_hover_kill in A.
Qed.

Lemma hover_ok_tweens ts ts' hp ls tms :
  (forall e i, active_hover ts' e i -> active_hover ts e i) ->
  hover_ok ts hp ls tms -> hover_ok ts' hp ls tms.
Proof.
  intros W [A B C D E]. split; auto.
  - intros card cell i I H. apply (D card cell i I). now apply W.
  - intros e i H. apply (E e i). now apply W.
Qed.

Lemma hover_ok_new_tween ts t hp ls tms :
  (forall e, is_card_hover e t = false) ->
  hover_ok ts hp ls tms -> hover_ok (ts ++ [t]) hp ls tms.
Proof.
  intros N. apply hover_ok_tweens. intros e i A.
  apply active_hover_app in A. destruct A as [A|(_ & H & _)]; [exact A|].
  rewrite N in H. discriminate.
Qed.

Lemma hover_ok_kill ts j hp ls tms :
  hover_ok ts hp ls tms -> hover_ok (update_nth j kill_tween ts) hp ls tms.
Proof.
  apply hover_ok_tweens. intros e i A. now apply active_hover_kill in A.
Qed.

Lemma hover_ok_alloc ts hp v ls tms :
  hover_ok ts hp ls tms -> hover_ok ts (hp ++ [v]) ls tms.
Proof.
  intros [A B C D E]. split; auto.
  - intros c I. rewrite length_app. specialize (A c I). lia.
  - intros card cell i I H. rewrite app_nth1; [exact (D card cell i I H)|].
    apply A. left. apply in_map_iff. now exists (card, cell).
Qed.

Lemma hover_ok_write ts hp c v ls tms :
  ~ In c (map snd (cards_of ls)) ->
  hover_ok ts hp ls tms ->
  hover_ok ts (update_nth c (fun _ => v) hp) ls tms.
Proof.
  intros N [A B C D E]. split; auto.
  - intros c' I. rewrite length_update_nth. now apply A.
  - intros card cell i I H.
    rewrite nth_update_nth_other; [exact (D card cell i I H)|].
    intros ->. apply N. apply in_map_iff. now exists (card, cell).
Qed.

Lemma cards_of_app ls ls' : cards_of (ls ++ ls') = cards_of ls ++ cards_of ls'.
Proof. apply flat_map_app. Qed.

Lemma other_cells_listen ls l tms c :
  In c (other_cells (ls ++ [l]) tms) <->
  In c (other_cells ls tms) \/ In c (handler_cells (l_handler l)).
Proof.
  unfold other_cells. rewrite flat_map_app, !in_app_iff. cbn.
  rewrite app_nil_r. tauto.
Qed.

Lemma other_cells_timer ls tms tm c :
  In c (other_cells ls (tms ++ [tm])) <->
  In c (other_cells ls tms) \/ In c (timer_cells (t_fn tm)).
Proof.
  unfold other_cells. rewrite flat_map_app, !in_app_iff. cbn.
  rewrite app_nil_r. tauto.
Qed.

Lemma other_cells_filter ls tms p c :
  In c (other_cells ls (filter p tms)) -> In c (other_cells ls tms).
Proof.
  unfold other_cells. rewrite !in_app_iff, !in_flat_map.
  intros [H|(tm & I & H)]; [now left|]. right. exists tm.
  apply filter_In in I. tauto.
Qed.

(** A listener of another kind whose variables are allocated and are not
    [hoverTween] variables. *)
Lemma hover_ok_listen ts hp ls tms t ty h :
  card_of h = None ->
  (forall c, In c (handler_cells h) ->
             c < List.length hp /\ ~ In c (map snd (cards_of ls))) ->
  hover_ok ts hp ls tms ->
  hover_ok ts hp (ls ++ [{| l_target := t; l_type := ty; l_handler := h |}])
           tms.
Proof.
  intros N S [A B C D E].
  assert (Q : cards_of (ls ++ [{| l_target := t; l_type := ty;
                                  l_handler := h |}]) = cards_of ls).
  { rewrite cards_of_app. cbn. rewrite N. cbn. now rewrite app_nil_r. }
  split; rewrite ?Q; auto.
  - intros c [I|I]; [apply A; now left|].
    apply other_cells_listen in I. destruct I as [I|I]; [apply A; now right|].
    now apply S.
  - intros card cell I O. apply other_cells_listen in O.
    destruct O as [O|O]; [exact (B card cell I O)|].
    apply (S cell O). apply in_map_iff. now exists (card, cell).
Qed.

Lemma hover_ok_timer ts hp ls tms tm :
  (forall c, In c (timer_cells (t_fn tm)) ->
             c < List.length hp /\ ~ In c (map snd (cards_of ls))) ->
  hover_ok ts hp ls tms -> hover_ok ts hp ls (tms ++ [tm]).
Proof.
  intros S [A B C D E]. split; auto.
  - intros c [I|I]; [apply A; now left|].
    apply other_cells_timer in I. destruct I as [I|I]; [apply A; now right|].
    now apply S.
  - intros card cell I O. apply other_cells_timer in O.
    destruct O as [O|O]; [exact (B card cell I O)|].
    apply (S cell O). apply in_map_iff. now exists (card, cell).
Qed.

Lemma hover_ok_untimer ts hp ls tms p :
  hover_ok ts hp ls tms -> hover_ok ts hp ls (filter p tms).
Proof.
  intros [A B C D E]. split; auto.
  - intros c [I|I]; apply A; [now left|right].
    now apply other_cells_filter in I.
  - intros card cell I O. apply other_cells_filter in O.
    exact (B card cell I O).
Qed.

(** The pair of hover listeners of a card that has none yet, on a
    variable no closure holds. *)
Lemma hover_ok_listen_card ts hp ls tms card cell :
  (forall c, ~ In (card, c) (cards_of ls)) ->
  cell < List.length hp ->
  ~ In cell (map snd (cards_of ls)) ->
  ~ In cell (other_cells ls tms) ->
  hover_ok ts hp ls tms ->
  hover_ok ts hp
    (ls ++ [{| l_target := OnElem card; l_type := "mouseenter";
               l_handler := HCardEnter card cell |}]
        ++ [{| l_target := OnElem card; l_type := "mouseleave";
               l_handler := HCardLeave card cell |}])
    tms.
Proof.
  intros N L F O [A B C D E].
  assert (Q : forall p,
            In p (cards_of
                    (ls ++ [{| l_target := OnElem card;
                               l_type := "mouseenter";
                               l_handler := HCardEnter card cell |}]
                        ++ [{| l_target := OnElem card;
                               l_type := "mouseleave";
                               l_handler := HCardLeave card cell |}])) <->
            In p (cards_of ls) \/ p = (card, cell)).
  { intros p. rewrite !cards_of_app, !in_app_iff. cbn. intuition. }
  assert (Q' : forall c,
            In c (other_cells
                    (ls ++ [{| l_target := OnElem card;
                               l_type := "mouseenter";
                               l_handler := HCardEnter card cell |}]
                        ++ [{| l_target := OnElem card;
                               l_type := "mouseleave";
                               l_handler := HCardLeave card cell |}]) tms) <->
            In c (other_cells ls tms)).
  { intros c. unfold other_cells. rewrite !flat_map_app, !in_app_iff. cbn.
    tauto. }
  assert (NA : forall i, ~ active_hover ts card i).
  { intros i H. destruct (E card i H) as (c & I). exact (N c I). }
  split.
  - intros c [I|I].
    + apply in_map_iff in I. destruct I as ([e c'] & <- & I).
      apply Q in I. destruct I as [I|[= -> ->]]; [|exact L].
      apply A. left. apply in_map_iff. now exists (e, c').
    + apply Q' in I. apply A. now right.
  - intros e c I I'. apply Q' in I'. apply Q in I.
    destruct I as [I|[= -> ->]]; [exact (B e c I I') | exact (O I')].
  - intros e c e' c' I I'. apply Q in I. apply Q in I'.
    destruct I as [I|[= -> ->]], I' as [I'|[= -> ->]].
    + exact (C e c e' c' I I').
    + split; intros ->; exfalso.
      * exact (N c I).
      * apply F. apply in_map_iff. now exists (e, cell).
    + split; intros <-; exfalso.
      * exact (N c' I').
      * apply F. apply in_map_iff. now exists (e', cell).
    + tauto.
  - intros e c i I H. apply Q in I.
    destruct I as [I|[= -> ->]]; [exact (D e c i I H)|].
    exfalso. exact (NA i H).
  - intros e i H. destruct (E e i H) as (c & I). exists c. apply Q. now left.
Qed.

(** A hover listener of [card] runs: the tween its variable holds is
    killed, then a new tween on the card is made and stored there. *)
Lemma hover_ok_card_fire ts hp ls tms card cell vars :
  hover_ok ts hp ls tms ->
  In (card, cell) (cards_of ls) ->
  let old := match nth cell hp (CTween None) with
             | CTween t => t
             | _ => None
             end in
  let ts1 := match old with
             | Some id => update_nth id kill_tween ts
             | None => ts
             end in
  hover_ok ts1 hp ls tms /\
  hover_ok (ts1 ++ [tween_to (TElement (Some card)) vars])
           (update_nth cell (fun _ => CTween (Some (List.length ts1))) hp)
           ls tms.
Proof.
  intros K I old ts1. pose proof K as [A B C D E].
  assert (L : cell < List.length hp).
  { apply A. left. apply in_map_iff. now exists (card, cell). }
  assert (W : forall e i, active_hover ts1 e i ->
                          active_hover ts e i /\ old <> Some i).
  { intros e i H. unfold ts1 in H. destruct old as [id|] eqn:O.
    - apply active_hover_kill in H. destruct H as [H N].
      split; [exact H | congruence].
    - split; [exact H | discriminate]. }
  assert (K1 : hover_ok ts1 hp ls tms).
  { revert K. apply hover_ok_tweens. intros e i H. now apply W in H. }
  split; [exact K1|]. split.
  - intros c Ic. rewrite length_update_nth. now apply A.
  - exact B.
  - exact C.
  - intros e c i Ie H. apply active_hover_app in H.
    destruct H as [H|(-> & H & _)].
    + apply W in H. destruct H as [H N].
      pose proof (D e c i Ie H) as Dc.
      destruct (Nat.eq_dec cell c) as [<-|Ne].
      * exfalso. apply N. unfold old. now rewrite Dc.
      * now rewrite nth_update_nth_other by exact Ne.
    + unfold is_card_hover, tween_to in H. cbn in H.
      apply andb_prop in H. destruct H as [H _].
      apply Nat.eqb_eq in H. subst e.
      assert (c = cell) by (apply (C card c card cell Ie I); reflexivity).
      subst c. now rewrite nth_update_nth_same by exact L.
  - intros e i H. apply active_hover_app in H.
    destruct H as [H|(-> & H & _)].
    + apply W in H. destruct H as [H _]. exact (E e i H).
    + unfold is_card_hover, tween_to in H. cbn in H.
      apply andb_prop in H. destruct H as [H _].
      apply Nat.eqb_eq in H. subst e. now exists cell.
Qed.

(** *** Tweens that are not hover tweens of a card *)

Lemma not_hover_kind e k t v d :
  k <> KTo ->
  is_card_hover e {| tw_kind := k; tw_targets := t; tw_vars := v;
                     tw_killed := d |} = false.
Proof. unfold is_card_hover. cbn. now destruct k. Qed.

Lemma not_hover_vars e k t v d :
  Obj_eqb v cardHoverIn || Obj_eqb v cardHoverOut = false ->
  is_card_hover e {| tw_kind := k; tw_targets := t; tw_vars := v;
                     tw_killed := d |} = false.
Proof.
  intros H. unfold is_card_hover. cbn. rewrite H.
  destruct k, t as [| |[x|]|]; auto using andb_false_r.
Qed.

Lemma not_hover_targets e k t v d :
  (forall x, t <> TElement (Some x)) ->
  is_card_hover e {| tw_kind := k; tw_targets := t; tw_vars := v;
                     tw_killed := d |} = false.
Proof.
  intros H. unfold is_card_hover. cbn.
  destruct k, t as [| |[x|]|]; auto. now destruct (H x).
Qed.

Ltac not_hover :=
  let e := fresh "e" in
  intros e;
  first [ apply not_hover_kind; discriminate
        | apply not_hover_targets; discriminate
        | apply not_hover_vars; reflexivity ].

(** *** The methods of the setup keep the hover listeners apart *)

Lemma other_cells_app ls t1 t2 c :
  In c (other_cells ls (t1 ++ t2)) <->
  In c (other_cells ls t1) \/ In c (other_cells ls t2).
Proof.
  unfold other_cells. rewrite flat_map_app, !in_app_iff. tauto.
Qed.

Lemma hover_ok_untimer_ph ts hp ls ph tms p :
  hover_ok ts hp ls (ph ++ tms) -> hover_ok ts hp ls (ph ++ filter p tms).
Proof.
  intros [A B C D E].
  assert (S : forall c, In c (other_cells ls (ph ++ filter p tms)) ->
                        In c (other_cells ls (ph ++ tms))).
  { intros c I. apply other_cells_app in I. apply other_cells_app.
    destruct I as [I|I]; [now left|right].
    now apply other_cells_filter in I. }
  split; auto.
  - intros c [I|I]; apply A; [now left|right]. now apply S.
  - intros card cell I O. exact (B card cell I (S _ O)).
Qed.

(** What a primitive leaves of [hover_core]. *)
Ltac core_step K :=
  first
    [ exact K
    | apply hover_ok_new_tween; [not_hover | core_step K]
    | apply hover_ok_kill; core_step K
    | apply hover_ok_alloc; core_step K
    | apply hover_ok_untimer_ph; core_step K
    | rewrite app_assoc; apply hover_ok_timer; [cbn; tauto | core_step K]
    | apply hover_ok_listen;
      [reflexivity | cbn; tauto | core_step K] ].

Create HintDb hov.

Ltac post_leaf :=
  first
    [ assumption
    | solve [eauto with hov]
    | let w := fresh "w" in
      let H := fresh "H" in
      let G := fresh "G" in
      let K := fresh "K" in
      intros w (H & G & K);
      unfold hov_post, hover_core in *; unfold_prims; cbv [ctl] in H;
      cbn; rewrite ?H, ?G; cbn;
      do 2 eexists; (split; [reflexivity|]);
      cbn; (split; [auto|]); (split; [auto|]);
      core_step K ].

Ltac pre_leaf :=
  first
    [ assumption
    | solve [eauto with hov]
    | let w := fresh "w" in
      let H := fresh "H" in
      let G := fresh "G" in
      let K := fresh "K" in
      let N := fresh "N" in
      intros w (H & G & K & N);
      unfold hov_pre, hover_core in *; unfold_prims; cbv [ctl] in H;
      cbn; rewrite ?H, ?G; cbn;
      do 2 eexists; (split; [reflexivity|]);
      cbn; (split; [auto|]); (split; [auto|]);
      (split; [core_step K | assumption]) ].

Lemma pre_setInitialStates ph c : returns (hov_pre ph c) setInitialStates.
Proof. unfold setInitialStates. hoare pre_leaf. Qed.

Lemma pre_animateHero ph c : returns (hov_pre ph c) animateHero.
Proof. unfold animateHero. hoare pre_leaf. Qed.

Lemma pre_animateSections ph c : returns (hov_pre ph c) animateSections.
Proof. unfold animateSections. hoare pre_leaf. Qed.

Lemma pre_initSimpleAnimations ph c : returns (hov_pre ph c) initSimpleAnimations.
Proof. unfold initSimpleAnimations. hoare pre_leaf. Qed.

Lemma post_animateFloatingElements ph c :
  returns (hov_post ph c) animateFloatingElements.
Proof. unfold animateFloatingElements. hoare post_leaf. Qed.

Lemma post_animatePhilosophySection ph c :
  returns (hov_post ph c) animatePhilosophySection.
Proof. unfold animatePhilosophySection. hoare post_leaf. Qed.

Lemma fresh_not_card ts hp ls tms k :
  hover_ok ts hp ls tms ->
  ~ In (List.length hp + k) (map snd (cards_of ls)).
Proof.
  intros [A _ _ _ _] I.
  assert (List.length hp + k < List.length hp) by (apply A; now left). lia.
Qed.

Lemma fresh_not_other ts hp ls tms k :
  hover_ok ts hp ls tms ->
  ~ In (List.length hp + k) (other_cells ls tms).
Proof.
  intros [A _ _ _ _] I.
  assert (List.length hp + k < List.length hp) by (apply A; now right). lia.
Qed.

Lemma post_bind_button_hover ph c btn :
  returns (hov_post ph c) (bind_button_hover btn).
Proof.
  intros w (H & G & K). unfold bind_button_hover, alloc, addEventListener.
  exec. do 2 eexists. split; [reflexivity|].
  split; [exact H|]. split; [exact G|].
  unfold hover_core in *. cbn.
  pose proof (fresh_not_card _ _ _ _ 0 K) as F0.
  pose proof (fresh_not_card _ _ _ _ 1 K) as F1.
  rewrite Nat.add_0_r in F0.
  rewrite length_app. cbn [List.length].
  assert (K2 : hover_ok (tweens (eng w))
                 ((heap (rt w) ++ [CTween None]) ++ [CTween None])
                 (listeners (rt w)) (ph ++ timers (rt w)))
    by (now do 2 apply hover_ok_alloc).
  assert (S : forall x,
            In x [List.length (heap (rt w)); List.length (heap (rt w)) + 1] ->
            x < List.length ((heap (rt w) ++ [CTween None]) ++ [CTween None])
            /\ ~ In x (map snd (cards_of (listeners (rt w))))).
  { intros x [<-|[<-|[]]]; rewrite !length_app; cbn; split; auto; lia. }
  apply hover_ok_listen; [reflexivity| |].
  - intros x I. cbn in I.
    assert (Q : cards_of
                  (listeners (rt w) ++
                   [{| l_target := OnElem btn; l_type := "mouseenter";
                       l_handler :=
                         HBtnEnter btn
                           (querySelectorIn (body (dom w)) btn
                              (sel "btn-icon"))
                           (List.length (heap (rt w)))
                           (List.length (heap (rt w)) + 1) |}])
                = cards_of (listeners (rt w))).
    { rewrite cards_of_app. cbn. now rewrite app_nil_r. }
    rewrite Q. now apply S.
  - apply hover_ok_listen; [reflexivity| |exact K2].
    intros x I. now apply S.
Qed.

Lemma post_animateButtons ph c : returns (hov_post ph c) animateButtons.
Proof.
  unfold animateButtons. pose proof (post_bind_button_hover ph c).
  hoare post_leaf.
Qed.

Lemma post_initHeaderScrollEffect ph c :
  returns (hov_post ph c) initHeaderScrollEffect.
Proof.
  intros w (H & G & K).
  unfold initHeaderScrollEffect, alloc, addEventListener. exec.
  destruct (querySelector _ _) as [h|]; exec;
    [|do 2 eexists; split; [reflexivity|]; now split].
  match goal with
  | |- context [handleScroll h ?c ?w1] =>
      rewrite (handleScroll_run h c w1 false)
  end.
  2: { cbn. rewrite length_app. cbn. lia. }
  2: { cbn. now rewrite nth_middle. }
  do 2 eexists. split; [reflexivity|].
  pose proof (fresh_not_card _ _ _ _ 0 K) as F0. rewrite Nat.add_0_r in F0.
  assert (K1 : hover_ok (tweens (eng w)) (heap (rt w) ++ [CBool false])
                 (listeners (rt w) ++
                  [{| l_target := OnWindow; l_type := "scroll";
                      l_handler := HScroll h (List.length (heap (rt w))) |}])
                 (ph ++ timers (rt w))).
  { apply hover_ok_listen; [reflexivity| |now apply hover_ok_alloc].
    intros x [<-|[]]. rewrite length_app. cbn. split; [lia|exact F0]. }
  assert (Q : cards_of
                (listeners (rt w) ++
                 [{| l_target := OnWindow; l_type := "scroll";
                     l_handler := HScroll h (List.length (heap (rt w))) |}])
              = cards_of (listeners (rt w))).
  { rewrite cards_of_app. cbn. now rewrite app_nil_r. }
  destruct (Bool.eqb _ false); [|destruct (past_threshold _)];
    (split; [exact H|]); (split; [exact G|]);
    unfold hover_core; cbn; try exact K1;
    (apply hover_ok_write; [now rewrite Q | exact K1]).
Qed.

Lemma triple_bind (P R Q : World -> Prop) {A B} (m : M A) (k : A -> M B) :
  triple P m R -> (forall a, triple R (k a) Q) -> triple P (bind m k) Q.
Proof.
  intros Hm Hk w I. unfold bind.
  destruct (Hm w I) as (a & w' & E & I'). rewrite E. now apply Hk.
Qed.

Lemma triple_returns (P : World -> Prop) {A} (m : M A) :
  returns P m -> triple P m P.
Proof. intros H. exact H. Qed.

Lemma triple_weaken (P Q Q' : World -> Prop) {A} (m : M A) :
  (forall w, Q w -> Q' w) -> triple P m Q -> triple P m Q'.
Proof.
  intros W H w I. destruct (H w I) as (a & w' & E & I'). eauto.
Qed.

Lemma NoDup_querySelectorAll d s : NoDup (querySelectorAll d s).
Proof. unfold querySelectorAll. apply NoDup_filter, seq_NoDup. Qed.

Lemma hover_ok_bind_cards ts tms cards : forall hp ls,
  NoDup cards ->
  (forall card c, In card cards -> ~ In (card, c) (cards_of ls)) ->
  hover_ok ts hp ls tms ->
  hover_ok ts (hp ++ repeat (CTween None) (List.length cards))
           (ls ++ card_listeners cards (List.length hp)) tms.
Proof.
  induction cards as [|card cards IH]; intros hp ls N F K.
  - cbn. now rewrite !app_nil_r.
  - inversion N as [|? ? Nc Nr]; subst.
    cbn [List.length repeat card_listeners].
    replace (hp ++ CTween None :: repeat (CTween None) (List.length cards))
      with ((hp ++ [CTween None]) ++ repeat (CTween None) (List.length cards))
      by (now rewrite <- app_assoc).
    replace (S (List.length hp)) with (List.length (hp ++ [CTween None]))
      by (rewrite length_app; cbn; lia).
    match goal with
    | |- hover_ok _ _ (ls ++ ?a :: ?b :: ?r) _ =>
        replace (ls ++ a :: b :: r) with ((ls ++ [a] ++ [b]) ++ r)
          by (now rewrite <- app_assoc)
    end.
    apply IH; [exact Nr| |].
    + intros card' c I. rewrite !cards_of_app, !in_app_iff. cbn.
      intros [J|[[E|[]]|[E|[]]]];
        try (injection E as -> _; contradiction).
      exact (F card' c (or_intror I) J).
    + pose proof (fresh_not_card _ _ _ _ 0 K) as F0.
      pose proof (fresh_not_other _ _ _ _ 0 K) as F1.
      rewrite Nat.add_0_r in F0, F1.
      apply hover_ok_listen_card; auto.
      * intros c. apply F. now left.
      * rewrite length_app. cbn. lia.
      * now apply hover_ok_alloc.
Qed.

Lemma pre_post_animateCards ph c : triple (hov_pre ph c) animateCards (hov_post ph c).
Proof.
  intros w (H & G & K & N).
  unfold animateCards, gsap_to, this_gsap, new_tween, ScrollTrigger_batch,
    new_trigger, forEach.
  unfold ctl, document in *. exec. cbn. rewrite ?H.
  destruct (ScrollTrigger c); exec; cbn; rewrite ?H, ?G; exec;
    rewrite bind_cards_from;
    (do 2 eexists; split; [reflexivity|]);
    (split; [exact H|]); (split; [exact G|]);
    unfold hover_core; cbn;
    (apply hover_ok_bind_cards;
     [ apply NoDup_querySelectorAll
     | intros card x _; rewrite N; intros []
     | ]); [exact K|].
  apply hover_ok_new_tween; [not_hover | exact K].
Qed.

Lemma pre_post_initFullAnimations ph c :
  triple (hov_pre ph c) initFullAnimations (hov_post ph c).
Proof.
  unfold initFullAnimations.
  apply (triple_bind _ (hov_pre ph c)); [hoare pre_leaf | intros _].
  apply (triple_bind _ (hov_pre ph c)); [apply pre_setInitialStates | intros _].
  apply (triple_bind _ (hov_pre ph c)); [apply pre_animateHero | intros _].
  apply (triple_bind _ (hov_pre ph c)); [apply pre_animateSections | intros _].
  apply (triple_bind _ (hov_post ph c)); [apply pre_post_animateCards | intros _].
  apply (triple_bind _ (hov_post ph c)); [apply post_animateButtons | intros _].
  apply (triple_bind _ (hov_post ph c));
    [apply post_animateFloatingElements | intros _].
  apply (triple_bind _ (hov_post ph c));
    [apply post_initHeaderScrollEffect | intros _].
  apply post_animatePhilosophySection.
Qed.

Lemma init_first_call_triple (P Q : World -> Prop) w :
  isInitialized (ctl w) = false ->
  g_gsap (globals (env w) (clock w)) = true ->
  P (init_prefix w) ->
  returns P (gsap_config [("force3D", VBool true);
                          ("nullTargetWarn", VBool false)]) ->
  (forall st,
     returns P (if st : bool
                then ScrollTrigger_config
                       [("ignoreMobileResize", VBool true)]
                else ret tt)) ->
  returns P prefersReducedMotion ->
  (forall r, triple P (if r : bool then initSimpleAnimations
                       else initFullAnimations) Q) ->
  exists w2, Q w2 /\ init w = (Ok tt, init_suffix w2).
Proof.
  intros U G I H1 H2 H3 H4.
  unfold init, set_this_gsap, set_this_ScrollTrigger, init_suffix.
  unfold init_prefix in I.
  unfold clock, ctl in *. exec. unfold set_this_isInitialized. rewrite G.
  run_with_returns H1 I.
  match goal with
  | |- context [if ?b then _ else _] => generalize b; intros st
  end.
  run_with_returns (H2 st) I0.
  run_with_returns H3 I.
  run_with_returns (H4 a1) I0.
  exec. now exists w3.
Qed.

(** *** Every step of the page keeps the invariant *)

Ltac hovers_leaf :=
  first
    [ assumption
    | solve [eauto with hov]
    | let w := fresh "w" in
      let K := fresh "K" in
      let F := fresh "F" in
      intros w (K & F);
      unfold hovers_ok, hover_core in *; unfold_prims; unfold ctl in *;
      repeat match goal with
             | |- context [if ?b then _ else _] => destruct b eqn:?
             | |- context [match ?x with _ => _ end] => destruct x eqn:?
             end;
      cbn;
      (split;
       [ core_step K
       | rewrite ?cards_of_app; cbn; rewrite ?app_nil_r; auto ]) ].

Section Steps.
Variable ph : list Timer.

Lemma hovers_init : keeps (hovers_ok ph) init.
Proof.
  intros w (K & F). destruct (isInitialized (ctl w)) eqn:U.
  - rewrite (init_again w U). cbn [snd]. split; [exact K|].
    unfold ctl in *. cbn. rewrite U. discriminate.
  - specialize (F eq_refl).
    destruct (g_gsap (globals (env w) (clock w))) eqn:G.
    + assert (I : hov_pre ph (ctl (init_prefix w)) (init_prefix w)).
      { split; [reflexivity|]. split; [reflexivity|]. now split. }
      destruct (init_first_call_triple _ (hov_post ph (ctl (init_prefix w)))
                  w U G I)
        as (w2 & (C & _ & K2) & ->);
        [ hoare pre_leaf | intros; hoare pre_leaf
        | unfold prefersReducedMotion; hoare pre_leaf
        | intros [|];
          [ apply (triple_weaken _ (hov_pre ph (ctl (init_prefix w))));
            [ now intros ? (? & ? & ? & _) | apply pre_initSimpleAnimations ]
          | apply pre_post_initFullAnimations ]
        | ].
      cbn [snd]. split; [exact K2|].
      unfold init_suffix, ctl. cbn. discriminate.
    + destruct (init_without_engine' w U G) as (e & ->). cbn [snd].
      split; [exact K|]. intros _. exact F.
Qed.

Lemma hovers_initSmoothScrolling : keeps (hovers_ok ph) initSmoothScrolling.
Proof. unfold initSmoothScrolling. hoare hovers_leaf. Qed.

Lemma hovers_onReady : keeps (hovers_ok ph) onReady.
Proof.
  unfold onReady. pose proof hovers_init. pose proof hovers_initSmoothScrolling.
  hoare hovers_leaf.
Qed.

Lemma hovers_on_resize : keeps (hovers_ok ph) on_resize.
Proof. unfold on_resize. hoare hovers_leaf. Qed.

Lemma hovers_on_page_load : keeps (hovers_ok ph) on_page_load.
Proof. unfold on_page_load. hoare hovers_leaf. Qed.

Lemma hovers_refresh : keeps (hovers_ok ph) refresh.
Proof. unfold refresh. hoare hovers_leaf. Qed.

Lemma hovers_anchor_click a : keeps (hovers_ok ph) (anchor_click a).
Proof. unfold anchor_click. hoare hovers_leaf. Qed.

Lemma hovers_cleanup : keeps (hovers_ok ph) cleanup.
Proof.
  intros w (K & F). rewrite cleanup_run. split; [|exact F].
  unfold hover_core in *. cbn. revert K. apply hover_ok_tweens.
  intros e i A. destruct (gsap (ctl w)).
  - now apply active_hover_map_kill in A.
  - now apply active_hover_kill_refs in A.
Qed.
End Steps.

Lemma card_hover_fire ph w card cell vars :
  hovers_ok ph w ->
  In (card, cell) (cards_of (listeners (rt w))) ->
  hovers_ok ph
    (snd ((old <- read_tween cell ;;
           kill_if_set old ;;
           t <- gsap_to (TElement (Some card)) vars ;;
           write cell (CTween (Some t)) ;;
           cardHoverTweens_set card (Some t)) w)).
Proof.
  intros (K & F) I.
  destruct (hover_ok_card_fire _ _ _ _ card cell vars K I) as (K1 & K2).
  unfold kill_if_set, gsap_to, this_gsap, new_tween, cardHoverTweens_set,
    tween_kill.
  unfold hovers_ok, hover_core, ctl in *. exec.
  destruct (nth cell (heap (rt w)) (CTween None)) as [| |[id|]]; exec;
    cbn in K1, K2 |- *;
    destruct (gsap (AnimationController (app w))); exec; cbn;
    (split; [assumption|exact F]).
Qed.

Lemma hovers_card_mouseenter ph w card cell :
  hovers_ok ph w ->
  In (card, cell) (cards_of (listeners (rt w))) ->
  hovers_ok ph (snd (card_mouseenter card cell w)).
Proof. apply card_hover_fire. Qed.

Lemma hovers_card_mouseleave ph w card cell :
  hovers_ok ph w ->
  In (card, cell) (cards_of (listeners (rt w))) ->
  hovers_ok ph (snd (card_mouseleave card cell w)).
Proof. apply card_hover_fire. Qed.

Lemma not_card_cell ts hp ls tms c :
  hover_ok ts hp ls tms -> In c (other_cells ls tms) ->
  ~ In c (map snd (cards_of ls)).
Proof.
  intros [_ B _ _ _] O I. apply in_map_iff in I.
  destruct I as ([e c'] & <- & I). exact (B e c' I O).
Qed.

Lemma hovers_btn_hover ph w v1 v2 btn icon bT iT :
  Obj_eqb v1 cardHoverIn || Obj_eqb v1 cardHoverOut = false ->
  Obj_eqb v2 cardHoverIn || Obj_eqb v2 cardHoverOut = false ->
  hovers_ok ph w ->
  In bT (other_cells (listeners (rt w)) (ph ++ timers (rt w))) ->
  In iT (other_cells (listeners (rt w)) (ph ++ timers (rt w))) ->
  hovers_ok ph (snd (btn_hover v1 v2 btn icon bT iT w)).
Proof.
  intros V1 V2 (K & F) Ib Ii.
  pose proof (not_card_cell _ _ _ _ _ K Ib) as Nb.
  pose proof (not_card_cell _ _ _ _ _ K Ii) as Ni.
  unfold btn_hover, kill_if_set, gsap_to, this_gsap, new_tween, tween_kill.
  unfold hovers_ok, hover_core, ctl in *. exec.
  repeat match goal with
         | |- context [match nth ?c ?h ?d with _ => _ end] =>
             destruct (nth c h d) as [| |[?|]]; exec; cbn [heap with_heap]
         | |- context [if gsap ?x then _ else _] => destruct (gsap x); exec
         | |- context [match icon with _ => _ end] => destruct icon; exec
         end;
    cbn; (split; [|exact F]);
    repeat first
      [ exact K
      | apply hover_ok_write; [assumption|]
      | apply hover_ok_new_tween; [intros ?; now apply not_hover_vars|]
      | apply hover_ok_kill ].
Qed.

Lemma hovers_handleScroll ph w h c :
  hovers_ok ph w ->
  In c (other_cells (listeners (rt w)) (ph ++ timers (rt w))) ->
  hovers_ok ph (snd (handleScroll h c w)).
Proof.
  intros (K & F) I. pose proof (not_card_cell _ _ _ _ _ K I) as N.
  unfold handleScroll, classList_add, classList_remove.
  unfold hovers_ok, hover_core, ctl in *. exec.
  repeat match goal with
         | |- context [match nth ?c ?h ?d with _ => _ end] =>
             destruct (nth c h d) as [|[|]|]; exec; cbn [heap with_heap]
         | |- context [if ?b then _ else _] => destruct b; exec
         end;
    cbn; (split; [|exact F]);
    repeat first [ exact K | apply hover_ok_write; [assumption|] ].
Qed.

(** *** The loader *)

Lemma hover_ok_timers ts hp ls tms tms' :
  (forall c, In c (other_cells ls tms') -> In c (other_cells ls tms)) ->
  hover_ok ts hp ls tms -> hover_ok ts hp ls tms'.
Proof.
  intros S [A B C D E]. split; auto.
  - intros c [I|I]; apply A; auto.
  - intros card cell I O. exact (B card cell I (S _ O)).
Qed.

Lemma other_cells_phantom ls ph tms c :
  In c (flat_map (fun tm => timer_cells (t_fn tm)) ph) ->
  In c (other_cells ls (ph ++ tms)).
Proof.
  intros I. unfold other_cells. rewrite flat_map_app, !in_app_iff. auto.
Qed.

Lemma other_cells_cons ls tm tms c :
  In c (other_cells ls (tm :: tms)) <->
  In c (timer_cells (t_fn tm)) \/ In c (other_cells ls tms).
Proof.
  unfold other_cells. cbn [flat_map]. rewrite !in_app_iff. tauto.
Qed.

Lemma hovers_checkGSAP ph a :
  In a (flat_map (fun tm => timer_cells (t_fn tm)) ph) ->
  keeps (hovers_ok ph) (checkGSAP onReady a).
Proof.
  intros Ia.
  assert (W : forall v, keeps (hovers_ok ph) (write a v)).
  { intros v w (K & F). split; [|exact F].
    unfold hover_core in *. cbn. apply hover_ok_write; [|exact K].
    apply (not_card_cell _ _ _ _ _ K). now apply other_cells_phantom. }
  assert (T : keeps (hovers_ok ph) (setTimeout (TCheckGSAP a) 100)).
  { intros w (K & F). split; [|exact F].
    unfold hover_core in *. cbn. rewrite app_assoc.
    apply hover_ok_timer; [|exact K]. cbn. intros c [<-|[]].
    pose proof (other_cells_phantom (listeners (rt w)) ph (timers (rt w)) a Ia)
      as O.
    split; [apply (ho_alloc _ _ _ _ K); now right|].
    exact (not_card_cell _ _ _ _ _ K O). }
  pose proof (hovers_onReady ph) as R.
  unfold checkGSAP, register_plugins, invoke, read_num.
  hoare hovers_leaf.
Qed.

Lemma hovers_phantom tm ph w : hovers_ok (tm :: ph) w -> hovers_ok ph w.
Proof.
  intros (K & F). split; [|exact F]. unfold hover_core in *.
  revert K. apply hover_ok_timers. intros c I.
  cbn [app]. apply other_cells_cons. now right.
Qed.

Lemma hovers_waitForGSAP ph : keeps (hovers_ok ph) (waitForGSAP onReady).
Proof.
  intros w (K & F). unfold waitForGSAP, alloc. unfold bind at 1.
  set (a := List.length (heap (rt w))).
  set (tm := {| t_id := 0; t_due := 0; t_fn := TCheckGSAP a |}).
  apply (hovers_phantom tm).
  apply hovers_checkGSAP; [now left|].
  split; [|exact F]. unfold hover_core in *. cbn.
  apply (hover_ok_timers _ _ _ ((ph ++ timers (rt w)) ++ [tm])).
  - intros c I. apply other_cells_timer. apply other_cells_cons in I. tauto.
  - apply hover_ok_timer; [|now apply hover_ok_alloc].
    cbn. intros c [<-|[]]. split.
    + rewrite length_app. cbn. subst a. lia.
    + subst a. rewrite <- (Nat.add_0_r (List.length (heap (rt w)))).
      exact (fresh_not_card _ _ _ _ 0 K).
Qed.

Lemma hovers_initialize ph : keeps (hovers_ok ph) initialize.
Proof. apply hovers_waitForGSAP. Qed.

Lemma hovers_main : keeps (hovers_ok []) main.
Proof.
  pose proof (hovers_initialize []) as I.
  unfold main. hoare hovers_leaf.
Qed.

(** *** Listeners are never removed *)

Ltac bound_leaf :=
  first
    [ assumption
    | solve [eauto with hov]
    | let w := fresh "w" in
      let H := fresh "H" in
      intros w H;
      unfold_prims;
      repeat match goal with
             | |- context [if ?b then _ else _] => destruct b eqn:?
             | |- context [match ?x with _ => _ end] => destruct x eqn:?
             end;
      cbn [rt listeners with_listeners with_heap with_timers with_nextTimer
           set_rt set_log set_eng set_dom set_app set_env snd fst];
      rewrite ?in_app_iff; auto ].

Section Bound.
Variable l : Listener.

Lemma bound_card_mouseenter c h : keeps (bound l) (card_mouseenter c h).
Proof. unfold card_mouseenter, bound. hoare bound_leaf. Qed.

Lemma bound_card_mouseleave c h : keeps (bound l) (card_mouseleave c h).
Proof. unfold card_mouseleave, bound. hoare bound_leaf. Qed.

Lemma bound_btn_hover v1 v2 b i c1 c2 : keeps (bound l) (btn_hover v1 v2 b i c1 c2).
Proof. unfold btn_hover, bound. hoare bound_leaf. Qed.

Lemma bound_handleScroll h c : keeps (bound l) (handleScroll h c).
Proof. unfold handleScroll, bound. hoare bound_leaf. Qed.

Lemma bound_anchor_click a : keeps (bound l) (anchor_click a).
Proof. unfold anchor_click, bound. hoare bound_leaf. Qed.

Lemma bound_on_resize : keeps (bound l) on_resize.
Proof. unfold on_resize, bound. hoare bound_leaf. Qed.

Lemma bound_on_page_load : keeps (bound l) on_page_load.
Proof. unfold on_page_load, bound. hoare bound_leaf. Qed.

Lemma bound_refresh : keeps (bound l) refresh.
Proof. unfold refresh, bound. hoare bound_leaf. Qed.

Lemma bound_cleanup : keeps (bound l) cleanup.
Proof. intros w I. rewrite cleanup_run. exact I. Qed.

Lemma bound_initSmoothScrolling : keeps (bound l) initSmoothScrolling.
Proof. unfold initSmoothScrolling, bound. hoare bound_leaf. Qed.

Lemma bound_init : keeps (bound l) init.
Proof.
  pose proof bound_handleScroll as S. unfold bound in S.
  unfold init, prefersReducedMotion, initSimpleAnimations, initFullAnimations,
    setInitialStates, animateHero, animateSections, animateCards,
    bind_card_hover, animateButtons, bind_button_hover,
    animateFloatingElements, initHeaderScrollEffect,
    animatePhilosophySection, bound.
  hoare bound_leaf.
Qed.

Lemma bound_onReady : keeps (bound l) onReady.
Proof.
  pose proof bound_init. pose proof bound_initSmoothScrolling.
  unfold onReady. hoare bound_leaf.
Qed.

Lemma bound_checkGSAP a : keeps (bound l) (checkGSAP onReady a).
Proof.
  pose proof bound_onReady.
  unfold checkGSAP, register_plugins, invoke. hoare bound_leaf.
Qed.

Lemma bound_initialize : keeps (bound l) initialize.
Proof.
  pose proof bound_checkGSAP.
  unfold initialize, waitForGSAP. hoare bound_leaf.
Qed.

Lemma bound_run_handler h : keeps (bound l) (run_handler h).
Proof.
  destruct h; cbn [run_handler]; unfold btn_mouseenter, btn_mouseleave.
  - apply bound_card_mouseenter.
  - apply bound_card_mouseleave.
  - apply bound_btn_hover.
  - apply bound_btn_hover.
  - apply bound_handleScroll.
  - apply bound_anchor_click.
  - apply bound_on_resize.
  - apply bound_cleanup.
  - apply bound_on_page_load.
  - apply bound_initialize.
Qed.

Lemma bound_task h w : bound l w -> bound l (task (run_handler h) w).
Proof.
  intros B. unfold task. pose proof (bound_run_handler h w B) as K.
  destruct (run_handler h w) as [[u|e] w']; exact K.
Qed.
End Bound.

(** *** Every reachable world *)

Lemma cards_of_In l ls p :
  In l ls -> card_of (l_handler l) = Some p -> In p (cards_of ls).
Proof.
  intros I E. unfold cards_of. apply in_flat_map. exists l.
  split; [exact I|]. rewrite E. now left.
Qed.

Lemma other_cells_handler l ls tms c :
  In l ls -> In c (handler_cells (l_handler l)) -> In c (other_cells ls tms).
Proof.
  intros I H. unfold other_cells. apply in_app_iff. left.
  apply in_flat_map. now exists l.
Qed.

Lemma hovers_run_handler l w :
  hovers_ok [] w -> In l (listeners (rt w)) ->
  hovers_ok [] (snd (run_handler (l_handler l) w)).
Proof.
  intros K I. destruct l as [t ty h].
  pose proof (fun p => cards_of_In _ _ p I) as C.
  pose proof (fun c => other_cells_handler _ _ ([] ++ timers (rt w)) c I) as O.
  destruct h; cbn [run_handler l_handler] in *;
    unfold btn_mouseenter, btn_mouseleave.
  - apply hovers_card_mouseenter; [exact K | apply C; reflexivity].
  - apply hovers_card_mouseleave; [exact K | apply C; reflexivity].
  - apply hovers_btn_hover;
      [reflexivity | reflexivity | exact K | apply O; cbn; auto
      | apply O; cbn; auto].
  - apply hovers_btn_hover;
      [reflexivity | reflexivity | exact K | apply O; cbn; auto
      | apply O; cbn; auto].
  - apply hovers_handleScroll; [exact K | apply O; cbn; auto].
  - now apply hovers_anchor_click.
  - now apply hovers_on_resize.
  - now apply hovers_cleanup.
  - now apply hovers_on_page_load.
  - now apply hovers_initialize.
Qed.

Lemma hovers_set_log ph f w : hovers_ok ph w -> hovers_ok ph (set_log f w).
Proof. intros K. exact K. Qed.

Lemma hovers_set_env ph f w : hovers_ok ph w -> hovers_ok ph (set_env f w).
Proof. intros K. exact K. Qed.

Lemma hovers_task ph m w :
  hovers_ok ph (snd (m w)) -> hovers_ok ph (task m w).
Proof.
  unfold task. destruct (m w) as [[u|e] w']; cbn [snd]; auto.
Qed.

Lemma hovers_dispatch t ty w : hovers_ok [] w -> hovers_ok [] (dispatch t ty w).
Proof.
  unfold dispatch.
  assert (S : forall l, In l (filter (listens t ty) (listeners (rt w))) ->
                        In l (listeners (rt w)))
    by (intros l I; now apply filter_In in I).
  revert S. generalize (filter (listens t ty) (listeners (rt w))).
  intros ls. revert w. induction ls as [|l ls IH]; intros w S K; cbn; auto.
  apply IH.
  - intros l' I. apply bound_task. apply S. now right.
  - apply hovers_task, hovers_run_handler; [exact K|]. apply S. now left.
Qed.

Lemma hovers_deliver i w : hovers_ok [] w -> hovers_ok [] (deliver i w).
Proof.
  intros K. destruct i; cbn [deliver]; apply hovers_dispatch;
    auto using hovers_set_env.
Qed.

Lemma hovers_fire tm w :
  hovers_ok [] w -> In tm (timers (rt w)) -> hovers_ok [] (fire tm w).
Proof.
  intros (K & F) I. unfold fire, fire_with.
  apply hovers_task, (hovers_phantom tm).
  assert (K' : hovers_ok [tm]
                 (set_clock (t_due tm) (remove_timer (t_id tm) w))).
  { split; [|exact F]. unfold hover_core in *. cbn.
    revert K. apply hover_ok_timers. intros c O.
    apply other_cells_cons in O. destruct O as [O|O].
    - unfold other_cells. apply in_app_iff. right.
      apply in_flat_map. now exists tm.
    - cbn. now apply other_cells_filter in O. }
  destruct tm as [id due [a|]]; cbn [t_fn run_timer_with] in *.
  - apply hovers_checkGSAP; [now left | exact K'].
  - now apply hovers_refresh.
Qed.

Lemma hovers_initial e d : hovers_ok [] (initial_world e d).
Proof.
  split; [|reflexivity]. unfold hover_core. cbn.
  split; cbn; try tauto; intros c i (t & N & _); now destruct i.
Qed.

Lemma reachable_hovers_ok w : reachable w -> hovers_ok [] w.
Proof.
  induction 1.
  - apply hovers_task, hovers_main, hovers_initial.
  - now apply hovers_deliver.
  - now apply hovers_fire.
  - unfold set_clock. now apply hovers_set_env.
Qed.

(** *** At most one active hover tween on a card *)

Lemma active_hovers_spec card w i :
  In i (active_hovers card w) <-> active_hover (tweens (eng w)) card i.
Proof.
  unfold active_hovers, active_hover. rewrite filter_In, in_seq. split.
  - intros (_ & H). destruct (nth_error (tweens (eng w)) i) as [t|];
      [|discriminate].
    apply andb_prop in H. destruct H as (H1 & H2). exists t.
    repeat split; auto. now destruct (tw_killed t).
  - intros (t & N & H & D). split.
    + split; [lia|]. cbn. apply nth_error_Some. congruence.
    + rewrite N, H, D. reflexivity.
Qed.

Lemma NoDup_active_hovers card w : NoDup (active_hovers card w).
Proof. apply NoDup_filter, seq_NoDup. Qed.

Lemma NoDup_all_equal {A} (l : list A) :
  NoDup l -> (forall x y, In x l -> In y l -> x = y) -> List.length l <= 1.
Proof.
  intros N E. destruct l as [|x [|y l]]; cbn; auto.
  exfalso. inversion N as [|? ? X _]; subst. apply X.
  rewrite (E x y); cbn; auto.
Qed.

Lemma hover_ok_unique ts hp ls tms card i j :
  hover_ok ts hp ls tms ->
  active_hover ts card i -> active_hover ts card j -> i = j.
Proof.
  intros K Ai Aj. destruct (ho_bound _ _ _ _ K card i Ai) as (cell & I).
  pose proof (ho_own _ _ _ _ K card cell i I Ai) as Ei.
  pose proof (ho_own _ _ _ _ K card cell j I Aj) as Ej.
  congruence.
Qed.

Lemma hovers_at_most_one ph w card :
  hovers_ok ph w -> List.length (active_hovers card w) <= 1.
Proof.
  intros (K & _). apply NoDup_all_equal; [apply NoDup_active_hovers|].
  intros i j Ii Ij. apply active_hovers_spec in Ii, Ij.
  exact (hover_ok_unique _ _ _ _ card i j K Ii Ij).
Qed.

Lemma singleton_of_one {A} (l : list A) x :
  In x l -> List.length l <= 1 -> l = [x].
Proof.
  destruct l as [|y [|z l]]; cbn; try tauto; try lia.
  now intros [->|[]] _.
Qed.

Lemma card_hover_run w card cell vars :
  gsap (ctl w) = true ->
  exists w',
    (old <- read_tween cell ;;
     kill_if_set old ;;
     t <- gsap_to (TElement (Some card)) vars ;;
     write cell (CTween (Some t)) ;;
     cardHoverTweens_set card (Some t)) w = (Ok tt, w') /\
    tweens (eng w') = hover_step cell card vars w /\
    nth_error (heap (rt w')) cell =
      option_map (fun _ => CTween (Some (List.length (tweens (eng w)))))
                 (nth_error (heap (rt w)) cell).
Proof.
  intros G.
  unfold kill_if_set, gsap_to, this_gsap, new_tween, cardHoverTweens_set,
    tween_kill, hover_step, hover_kill, stored_tween.
  unfold ctl in *. exec.
  assert (U : forall (hp : list CellVal) v,
             nth_error (update_nth cell (fun _ => v) hp) cell =
             option_map (fun _ => v) (nth_error hp cell)).
  { intros hp v. revert cell. induction hp as [|x hp IH]; intros [|c]; cbn;
      auto. }
  destruct (nth cell (heap (rt w)) (CTween None)) as [| |[id|]]; exec;
    rewrite ?G; exec; cbn; eexists; (split; [reflexivity|]); cbn;
    rewrite ?length_update_nth; auto.
Qed.

Lemma length_kill_refs refs : forall ts,
  List.length (kill_refs refs ts) = List.length ts.
Proof.
  unfold kill_refs. induction refs as [|[id|] refs IH]; intros ts; cbn; auto.
  now rewrite IH, length_update_nth.
Qed.

Lemma card_hover_step w card cell vars :
  reachable w ->
  In (card, cell) (cards_of (listeners (rt w))) ->
  Obj_eqb vars cardHoverIn || Obj_eqb vars cardHoverOut = true ->
  exists w',
    (old <- read_tween cell ;;
     kill_if_set old ;;
     t <- gsap_to (TElement (Some card)) vars ;;
     write cell (CTween (Some t)) ;;
     cardHoverTweens_set card (Some t)) w = (Ok tt, w') /\
    tweens (eng w') = hover_step cell card vars w /\
    active_hovers card w' = [List.length (tweens (eng w))].
Proof.
  intros R I V. pose proof (reachable_hovers_ok w R) as K.
  assert (G : gsap (ctl w) = true).
  { destruct (reachable_engine_known w R) as (_ & E & _). apply E.
    destruct K as (_ & F). destruct (isInitialized (ctl w)); auto.
    rewrite (F eq_refl) in I. destruct I. }
  pose proof (card_hover_fire [] w card cell vars K I) as K'.
  destruct (card_hover_run w card cell vars G) as (w' & E & T & _).
  rewrite E in K'. cbn [snd] in K'.
  exists w'. split; [exact E|]. split; [exact T|].
  apply singleton_of_one; [|exact (hovers_at_most_one [] w' card K')].
  apply active_hovers_spec. rewrite T. unfold hover_step, hover_kill.
  exists (tween_to (TElement (Some card)) vars). split; [|split].
  - rewrite nth_error_app2 by (rewrite length_kill_refs; lia).
    rewrite length_kill_refs, Nat.sub_diag. reflexivity.
  - unfold is_card_hover. cbn. now rewrite Nat.eqb_refl, V.
  - reflexivity.
Qed.

Lemma reachable_inputs inputs : forall w,
  reachable w -> reachable (fold_left (fun w' i => deliver i w') inputs w).
Proof.
  induction inputs as [|i inputs IH]; intros w R; cbn; auto.
  apply IH. now apply reach_deliver.
Qed.

Lemma hover_kill_none ts hp ls tms card cell w :
  hover_ok ts hp ls tms ->
  ts = tweens (eng w) -> hp = heap (rt w) ->
  In (card, cell) (cards_of ls) ->
  forall i, ~ active_hover (hover_kill cell w) card i.
Proof.
  intros K -> -> I i A. unfold hover_kill, stored_tween, kill_refs in A.
  cbn [fold_left] in A.
  destruct (nth cell (heap (rt w)) (CTween None)) as [n|b|[id|]] eqn:E.
  - pose proof (ho_own _ _ _ _ K card cell i I A) as O. congruence.
  - pose proof (ho_own _ _ _ _ K card cell i I A) as O. congruence.
  - apply active_hover_kill in A. destruct A as (A & N).
    pose proof (ho_own _ _ _ _ K card cell i I A) as O. congruence.
  - pose proof (ho_own _ _ _ _ K card cell i I A) as O. congruence.
Qed.

(** C4.  On every world the page can reach, a card carries at most one
    hover tween that has not been killed, and this stays so whatever inputs
    are delivered next, in particular every interleaving of mouseenter and
    mouseleave events on the card.  Each of the two hover listeners of the
    card first kills the tween their shared variable holds, which leaves the
    card without an active hover tween, and then creates a new one, which is
    afterwards the only active hover tween of the card. *)
Theorem one_active_hover_tween_per_card (w : World) (card : Elem) :
  reachable w ->
  (forall inputs,
     List.length
       (active_hovers card (fold_left (fun w' i => deliver i w') inputs w))
     <= 1) /\
  (forall cell,
     In (card, cell) (cards_of (listeners (rt w))) ->
     (forall i, ~ active_hover (hover_kill cell w) card i) /\
     (exists w',
        card_mouseenter card cell w = (Ok tt, w') /\
        tweens (eng w') = hover_step cell card cardHoverIn w /\
        active_hovers card w' = [List.length (tweens (eng w))]) /\
     (exists w',
        card_mouseleave card cell w = (Ok tt, w') /\
        tweens (eng w') = hover_step cell card cardHoverOut w /\
        active_hovers card w' = [List.length (tweens (eng w))])).
Proof.
  intros R. split.
  - intros inputs.
    apply (hovers_at_most_one []), reachable_hovers_ok, reachable_inputs, R.
  - intros cell I. split; [|split].
    + destruct (reachable_hovers_ok w R) as (K & _).
      exact (hover_kill_none _ _ _ _ card cell w K eq_refl eq_refl I).
    + exact (card_hover_step w card cell cardHoverIn R I eq_refl).
    + exact (card_hover_step w card cell cardHoverOut R I eq_refl).
Qed.

(** ** Instances on the sample page *)

(** The sample page when the libraries never load: five seconds after the
    script has started the fallback stylesheet is the one element of the
    head and the callback has not been called. *)
Lemma fallback_after_polling_budget_witness :
  exists wf,
    advance_with onReady 49 5000
      (snd (waitForGSAP onReady (sample_world None false))) = Some wf /\
    head (dom wf) = [StyleElement fallbackCSS] /\
    invocations wf = 0.
Proof.
  destruct (fallback_after_polling_budget onReady (sample_world None false)
              eq_refl (fun t => eq_refl)) as (H & _).
  assert (L : (clock (sample_world None false) + 4900 <= 5000)%Z)
    by (apply Z.leb_le; reflexivity).
  destruct (H 49 5000%Z (le_n 49) L) as (wf & A & Hd & _ & I & _).
  exists wf. split; [exact A|]. split; [exact Hd | exact I].
Defined.

(** The sample page with reduced motion requested: [init] enters the simple
    batch and not, for one, [animateHero]. *)
Lemma reduced_motion_runs_only_the_simple_batch_witness :
  entered (sample_world (Some 0%Z) true)
          (snd (init (sample_world (Some 0%Z) true))) =
    ["init"; "prefersReducedMotion"; "initSimpleAnimations"] /\
  ~ In "animateHero"
       (entered (sample_world (Some 0%Z) true)
                (snd (init (sample_world (Some 0%Z) true)))).
Proof.
  destruct (reduced_motion_runs_only_the_simple_batch
              (sample_world (Some 0%Z) true) eq_refl) as (N & P).
  destruct (P eq_refl eq_refl) as (_ & E & _).
  split; [exact E|]. apply N. cbn. auto.
Defined.

(** The sample page scrolled to 10, then 80, then 30: the header, element
    0, carries the class exactly when the offset exceeds 50. *)
Lemma header_class_tracks_scroll_offset_witness :
  tracks_offset (sample_world (Some 0%Z) false) 0 [10%Q; 80%Q; 30%Q].
Proof.
  exact (proj1 (header_class_tracks_scroll_offset
                  (sample_world (Some 0%Z) false) 0 [10%Q; 80%Q; 30%Q]
                  eq_refl eq_refl eq_refl)).
Defined.

(** The first card of the sample page, element 12, entered and left by the
    pointer. *)
Lemma one_active_hover_tween_per_card_witness :
  List.length
    (active_hovers 12
       (fold_left (fun w' i => deliver i w')
                  [MouseEnter 12; MouseLeave 12] loaded_page)) <= 1.
Proof.
  exact (proj1 (one_active_hover_tween_per_card loaded_page 12
                  (reach_load _ _))
               [MouseEnter 12; MouseLeave 12]).
Defined.


(** [init] called twice on the sample page with the libraries loaded. *)
Lemma init_is_idempotent_witness :
  exists w1,
    init (sample_world (Some 0%Z) false) = (Ok tt, w1) /\
    isInitialized (ctl w1) = true /\
    state_of (snd (init w1)) = state_of w1.
Proof.
  destruct (init_is_idempotent (sample_world (Some 0%Z) false)
              eq_refl eq_refl) as (w1 & E & I & H).
  exists w1. split; [exact E|]. split; [exact I|].
  exact (proj1 (proj2 (H w1 I))).
Defined.


(** Three resize events on the loaded sample page, at 1000, 1100 and
    1300 ms: the one refresh comes at 1550 ms. *)
Lemma resize_burst_refreshes_once_witness :
  exists w1 wf,
    run 1 (resizes [1000; 1100; 1300]%Z) loaded_page = Some w1 /\
    advance 1 2000 w1 = Some wf /\
    refresh_calls wf = refresh_calls loaded_page ++ [1550%Z].
Proof.
  assert (T : timers (rt loaded_page) = []) by (vm_compute; reflexivity).
  assert (C : (clock loaded_page <= 1000)%Z)
    by (apply Z.leb_le; vm_compute; reflexivity).
  assert (B : burst 1000 [1100; 1300]%Z) by (cbn; lia).
  assert (L : (last_time 1000 [1100; 1300] + 250 <= 2000)%Z)
    by (apply Z.leb_le; reflexivity).
  destruct (resize_burst_refreshes_once loaded_page 1000 [1100; 1300]%Z
              1 2000 (reach_load _ _) T C B L (le_n 1))
    as (_ & w1 & wf & R & _ & _ & A & F & _).
  exists w1, wf. split; [exact R|]. split; [exact A | exact F].
Defined.

(** The sample page with an engine whose [registerPlugin] throws. *)
Lemma registration_failure_is_not_fatal_witness :
  invocations
    (snd (checkGSAP (ret tt) 0
            (polling_world (fun _ => Some "plugin unavailable")))) =
  S (invocations (polling_world (fun _ => Some "plugin unavailable"))).
Proof.
  destruct (registration_failure_is_not_fatal (ret tt) 0
              (polling_world (fun _ => Some "plugin unavailable"))
              (Thrown "plugin unavailable") eq_refl eq_refl)
    as (_ & _ & I).
  exact (I (fun w => eq_refl)).
Defined.

(** A callback that always throws is called twice. *)
Lemma throwing_callback_is_called_twice_witness :
  invocations
    (snd (checkGSAP (throw (Thrown "boom")) 0
            (polling_world (fun _ => None)))) =
  2 + invocations (polling_world (fun _ => None)).
Proof.
  destruct (throwing_callback_is_called_twice (throw (Thrown "boom")) 0
              (polling_world (fun _ => None)) eq_refl eq_refl
              (fun w => eq_refl)) as (H & _).
  exact (proj2 (H (Thrown "boom") _ eq_refl)).
Defined.

(** ** Exceptions on the page *)

Section BoundLoop.
Variable Inv : World -> Prop.
Hypothesis Inv_env : forall f w, Inv w -> Inv (set_env f w).
Hypothesis Inv_handler : forall l w,
  Inv w -> In l (listeners (rt w)) -> Inv (task (run_handler (l_handler l)) w).
Hypothesis Inv_fire : forall tm w,
  Inv w -> In tm (timers (rt w)) -> Inv (fire tm w).
Hypothesis Inv_load : forall e d, Inv (task main (initial_world e d)).

Lemma Inv_dispatch_bound t ty w : Inv w -> Inv (dispatch t ty w).
Proof.
  unfold dispatch.
  assert (S : forall l, In l (filter (listens t ty) (listeners (rt w))) ->
                        In l (listeners (rt w)))
    by (intros l I; now apply filter_In in I).
  revert S. generalize (filter (listens t ty) (listeners (rt w))).
  intros ls. revert w. induction ls as [|l ls IH]; intros w S K; cbn; auto.
  apply IH.
  - intros l' I. apply bound_task. apply S. now right.
  - apply Inv_handler; [exact K|]. apply S. now left.
Qed.

Lemma Inv_reachable_bound w : reachable w -> Inv w.
Proof.
  induction 1.
  - apply Inv_load.
  - destruct i; cbn [deliver]; apply Inv_dispatch_bound; auto.
  - now apply Inv_fire.
  - unfold set_clock. now apply Inv_env.
Qed.
End BoundLoop.

Lemma uncaught_log w l :
  uncaught (set_log (fun l0 => l0 ++ l) w) =
  uncaught w ++
  flat_map (fun e => match snd e with Uncaught x => [x] | _ => [] end) l.
Proof. unfold uncaught. cbn [log set_log]. now rewrite flat_map_app. Qed.

Ltac quiet_leaf :=
  first
    [ assumption
    | solve [eauto]
    | let w := fresh "w" in
      let H := fresh "H" in
      intros w H;
      unfold_prims;
      repeat match goal with
             | |- context [if ?b then _ else _] => destruct b eqn:?
             | |- context [match ?x with _ => _ end] => destruct x eqn:?
             end;
      unfold uncaught in *;
      cbn [rt dom log set_rt set_log set_eng set_dom set_app set_env snd fst];
      rewrite ?flat_map_app; cbn; rewrite ?app_nil_r; auto ].

(** Computations report nothing themselves: only the event loop does. *)
Section Quiet.
Variable u : list Exn.

Lemma quiet_init : keeps (fun w => uncaught w = u) init.
Proof.
  assert (S : forall e c, keeps (fun w => uncaught w = u) (handleScroll e c))
    by (intros e c; unfold handleScroll; hoare quiet_leaf).
  unfold init, prefersReducedMotion, initSimpleAnimations, initFullAnimations,
    setInitialStates, animateHero, animateSections, animateCards,
    bind_card_hover, animateButtons, bind_button_hover,
    animateFloatingElements, initHeaderScrollEffect,
    animatePhilosophySection.
  hoare quiet_leaf.
Qed.

Lemma quiet_run_handler h : keeps (fun w => uncaught w = u) (run_handler h).
Proof.
  pose proof quiet_init as I.
  destruct h; cbn [run_handler];
    unfold card_mouseenter, card_mouseleave, btn_mouseenter, btn_mouseleave,
      btn_hover, handleScroll, anchor_click, on_resize, cleanup,
      on_page_load, initialize, waitForGSAP, checkGSAP, register_plugins,
      invoke, onReady, initSmoothScrolling;
    hoare quiet_leaf.
Qed.

Lemma quiet_run_timer f :
  keeps (fun w => uncaught w = u) (run_timer_with onReady f).
Proof.
  pose proof quiet_init as I.
  destruct f; cbn [run_timer_with];
    unfold refresh, checkGSAP, register_plugins, invoke, onReady,
      initSmoothScrolling;
    hoare quiet_leaf.
Qed.

Lemma quiet_main : keeps (fun w => uncaught w = u) main.
Proof.
  pose proof quiet_init as I.
  unfold main, initialize, waitForGSAP, checkGSAP, register_plugins,
      invoke, onReady, initSmoothScrolling;
    hoare quiet_leaf.
Qed.
End Quiet.

(** *** The controller is ready whenever a hover listener is bound *)

Lemma init_without_engine_run w :
  isInitialized (ctl w) = false ->
  g_gsap (globals (env w) (clock w)) = false ->
  exists msg,
    init w =
    (Throw (TypeError msg),
     set_app (with_controller
                (with_ScrollTrigger
                   (g_ScrollTrigger (globals (env w) (clock w)))))
       (set_app (with_controller (with_gsap false))
          (set_log (fun l => l ++ [(clock w, Enter "init")]) w))).
Proof.
  intros U G. unfold init, set_this_gsap, set_this_ScrollTrigger,
    gsap_config, this_gsap.
  unfold clock, ctl in *. exec. cbn. rewrite ?G. exec.
  eexists. reflexivity.
Qed.

Lemma ready_init : keeps controller_ready init.
Proof.
  intros w (A & B). destruct (isInitialized (ctl w)) eqn:U.
  - rewrite (init_again w U). cbn [snd]. unfold controller_ready, ctl in *.
    cbn. rewrite U. split; [discriminate|exact B].
  - destruct (A eq_refl) as (G0 & N).
    destruct (g_gsap (globals (env w) (clock w))) eqn:G.
    + destruct (init_first_call w U G) as (w' & -> & C). cbn [snd].
      unfold controller_ready. rewrite C. cbn. split; [discriminate|auto].
    + destruct (init_without_engine_run w U G) as (msg & ->). cbn [snd].
      unfold controller_ready, ctl in *. cbn. rewrite U.
      split; [|discriminate]. intros _. split; [reflexivity|exact N].
Qed.

Ltac ready_page_leaf :=
  first
    [ assumption
    | solve [eauto]
    | let w := fresh "w" in
      let A := fresh "A" in
      let B := fresh "B" in
      intros w (A & B);
      unfold controller_ready in *; unfold_prims; unfold ctl in *;
      repeat match goal with
             | |- context [if ?b then _ else _] => destruct b eqn:?
             | |- context [match ?x with _ => _ end] => destruct x eqn:?
             end;
      cbn [rt app listeners AnimationController gsap isInitialized
           with_listeners with_heap with_timers with_nextTimer
           with_controller with_cardHoverTweens with_resizeTimeout
           with_scrollIntoView
           set_rt set_log set_eng set_dom set_app set_env snd fst];
      (split;
      [ let U := fresh "U" in
        let G := fresh "G" in
        let N := fresh "N" in
        let l := fresh "l" in
        let I := fresh "I" in
        intros U; destruct (A U) as (G & N); try congruence;
        (split; [first [exact G | reflexivity | congruence]|]);
        intros l I; rewrite ?in_app_iff in I; cbn [In] in I;
        repeat match goal with
               | H : _ \/ _ |- _ => destruct H
               | H : False |- _ => destruct H
               end;
        subst; auto
      | first [ exact B | solve [intros; congruence]
              | solve [let V := fresh "V" in
                       intros V; specialize (B V); congruence]
              | solve [auto] ] ]) ].

Lemma ready_run_handler h : keeps controller_ready (run_handler h).
Proof.
  pose proof ready_init as I.
  destruct h; cbn [run_handler];
    unfold card_mouseenter, card_mouseleave, btn_mouseenter, btn_mouseleave,
      btn_hover, handleScroll, anchor_click, on_resize, cleanup,
      on_page_load, initialize, waitForGSAP, checkGSAP, register_plugins,
      invoke, onReady, initSmoothScrolling;
    hoare ready_page_leaf.
Qed.

Lemma ready_run_timer f : keeps controller_ready (run_timer_with onReady f).
Proof.
  pose proof ready_init as I.
  destruct f; cbn [run_timer_with];
    unfold refresh, checkGSAP, register_plugins, invoke, onReady,
      initSmoothScrolling;
    hoare ready_page_leaf.
Qed.

Lemma ready_main : keeps controller_ready main.
Proof.
  pose proof ready_init as I.
  unfold main, initialize, waitForGSAP, checkGSAP, register_plugins,
      invoke, onReady, initSmoothScrolling;
    hoare ready_page_leaf.
Qed.

(** *** What a listener or a timer can throw *)

Lemma hover_bound_ready l w :
  controller_ready w -> In l (listeners (rt w)) ->
  is_hover (l_handler l) = true -> gsap (ctl w) = true.
Proof.
  intros (A & B) I H. destruct (isInitialized (ctl w)) eqn:U; [auto|].
  destruct (A eq_refl) as (_ & N). rewrite (N l I) in H. discriminate.
Qed.

Lemma btn_hover_returns v1 v2 btn icon bT iT w :
  gsap (ctl w) = true ->
  exists w', btn_hover v1 v2 btn icon bT iT w = (Ok tt, w').
Proof.
  intros G.
  unfold btn_hover, kill_if_set, gsap_to, this_gsap, new_tween, tween_kill.
  unfold ctl in *. exec.
  destruct (nth bT (heap (rt w)) (CTween None)) as [| |[?|]]; exec;
    cbn [heap with_heap];
    destruct (nth iT (heap (rt w)) (CTween None)) as [| |[?|]]; exec;
    cbn; rewrite ?G; exec; destruct icon; exec; cbn; rewrite ?G; exec;
    eexists; reflexivity.
Qed.

Lemma total_returns {A} (m : M A) w :
  returns (fun _ => True) m -> exists a w', m w = (Ok a, w').
Proof. intros R. destruct (R w I) as (a & w' & E & _). eauto. Qed.

Lemma handleScroll_returns h c w :
  exists w', handleScroll h c w = (Ok tt, w').
Proof.
  destruct (total_returns (handleScroll h c) w) as ([] & w' & E);
    [unfold handleScroll, classList_add, classList_remove;
     hoare total_leaf | eauto].
Qed.

Lemma on_resize_returns w : exists w', on_resize w = (Ok tt, w').
Proof. rewrite on_resize_run. eauto. Qed.

Lemma on_page_load_returns w : exists w', on_page_load w = (Ok tt, w').
Proof.
  destruct (total_returns on_page_load w) as ([] & w' & E);
    [unfold on_page_load; hoare total_leaf | eauto].
Qed.

Lemma refresh_returns w : exists w', refresh w = (Ok tt, w').
Proof. destruct (refresh_run w) as (w' & E & _). eauto. Qed.

Lemma anchor_click_outcome a w :
  (exists w', anchor_click a w = (Ok tt, w')) \/
  (exists msg, anchor_click a w = (Throw (SyntaxError msg), w)).
Proof.
  unfold anchor_click. exec.
  destruct (nth_error _ a) as [n|]; [|exec; eauto].
  destruct (href n) as [[|c [|c' s]]|]; exec; eauto.
  match goal with
  | |- context [querySelector ?d ?s] => destruct (querySelector d s)
  end; exec; eauto.
Qed.

Lemma handler_outcome l w :
  controller_ready w -> In l (listeners (rt w)) ->
  (exists w', run_handler (l_handler l) w = (Ok tt, w')) \/
  (is_anchor_click (l_handler l) = true /\
   exists msg, run_handler (l_handler l) w = (Throw (SyntaxError msg), w)).
Proof.
  intros R I. pose proof (hover_bound_ready l w R I) as G.
  destruct l as [t ty h]. cbn [l_handler] in *.
  destruct h; cbn [run_handler is_hover is_anchor_click] in *;
    unfold btn_mouseenter, btn_mouseleave.
  - left. destruct (card_hover_run w card hoverTween cardHoverIn (G eq_refl))
      as (w' & E & _). now exists w'.
  - left. destruct (card_hover_run w card hoverTween cardHoverOut (G eq_refl))
      as (w' & E & _). now exists w'.
  - left. now apply btn_hover_returns, G.
  - left. now apply btn_hover_returns, G.
  - left. apply handleScroll_returns.
  - destruct (anchor_click_outcome anchor w) as [O|O]; [now left|right].
    split; [reflexivity|exact O].
  - left. apply on_resize_returns.
  - left. rewrite cleanup_run. eauto.
  - left. apply on_page_load_returns.
  - left. apply initialize_returns.
Qed.

Lemma timer_returns f w :
  exists w', run_timer_with onReady f w = (Ok tt, w').
Proof.
  destruct f; cbn [run_timer_with].
  - apply checkGSAP_onReady_returns.
  - apply refresh_returns.
Qed.

Lemma safe_handler l w :
  page_safe w -> In l (listeners (rt w)) ->
  page_safe (task (run_handler (l_handler l)) w).
Proof.
  intros (R & S) I. unfold task.
  pose proof (ready_run_handler (l_handler l) w R) as R'.
  pose proof (quiet_run_handler (uncaught w) (l_handler l) w eq_refl) as Q.
  destruct (handler_outcome l w R I) as [(w' & E)|(_ & msg & E)];
    rewrite E in *; cbn [snd] in *.
  - split; [exact R'|]. now rewrite Q.
  - split; [exact R'|]. intros x. rewrite uncaught_log. cbn.
    rewrite in_app_iff. intros [X|[<-|[]]]; auto.
Qed.

Lemma safe_fire tm w : page_safe w -> page_safe (fire tm w).
Proof.
  intros (R & S). unfold fire, fire_with, task.
  set (w1 := set_clock (t_due tm) (remove_timer (t_id tm) w)).
  assert (R1 : controller_ready w1) by exact R.
  assert (S1 : uncaught w1 = uncaught w) by reflexivity.
  pose proof (ready_run_timer (t_fn tm) w1 R1) as R'.
  pose proof (quiet_run_timer (uncaught w1) (t_fn tm) w1 eq_refl) as Q.
  destruct (timer_returns (t_fn tm) w1) as (w' & E).
  rewrite E in *. cbn [snd] in *. split; [exact R'|].
  now rewrite Q, S1.
Qed.

Lemma safe_load e d : page_safe (task main (initial_world e d)).
Proof.
  assert (R : controller_ready (initial_world e d)).
  { split; [|discriminate]. intros _. split; [reflexivity|]. intros l []. }
  pose proof (ready_main _ R) as R'.
  pose proof (quiet_main [] (initial_world e d) eq_refl) as Q.
  destruct (top_main_binds e d) as (w' & E & _).
  unfold task. rewrite E in *. cbn [snd] in *. split; [exact R'|].
  rewrite Q. intros x [].
Qed.

Lemma reachable_page_safe w : reachable w -> page_safe w.
Proof.
  apply Inv_reachable_bound.
  - intros f w0 S. exact S.
  - apply safe_handler.
  - intros tm w0 S _. now apply safe_fire.
  - apply safe_load.
Qed.

(** X3.  On every state the page can reach, a hover listener is bound only
    when [this.gsap] is set, so that no call on the engine fails: every
    listener that is bound returns normally, except that the click listener
    of an in-page link may throw a [SyntaxError] -- it leaves the state as
    it was -- and every timer returns normally.  So the only exceptions the
    page has ever reported are such [SyntaxError]s. *)
Theorem only_link_clicks_can_throw w :
  reachable w ->
  (forall x, In x (uncaught w) -> is_syntax_error x = true) /\
  (forall l, In l (listeners (rt w)) -> is_hover (l_handler l) = true ->
             gsap (ctl w) = true) /\
  (forall l, In l (listeners (rt w)) ->
     (exists w', run_handler (l_handler l) w = (Ok tt, w')) \/
     (is_anchor_click (l_handler l) = true /\
      exists msg,
        run_handler (l_handler l) w = (Throw (SyntaxError msg), w))) /\
  (forall tm, In tm (timers (rt w)) ->
     exists w', run_timer_with onReady (t_fn tm) w = (Ok tt, w')).
Proof.
  intros R. destruct (reachable_page_safe w R) as (C & S).
  split; [exact S|]. split; [|split].
  - intros l. now apply hover_bound_ready.
  - intros l. now apply handler_outcome.
  - intros tm _. apply timer_returns.
Qed.

(** ** The loader: when the engine is found *)

Ltac frame_leaf :=
  first
    [ assumption
    | solve [eauto]
    | let w := fresh "w" in
      let H1 := fresh "H" in
      let H2 := fresh "H" in
      let H3 := fresh "H" in
      intros w (H1 & H2 & H3);
      unfold loader_frame in *; unfold_prims;
      repeat match goal with
             | |- context [if ?b then _ else _] => destruct b eqn:?
             | |- context [match ?x with _ => _ end] => destruct x eqn:?
             end;
      cbn [rt dom log timers head with_listeners with_heap with_timers
           with_nextTimer with_head with_body
           set_rt set_log set_eng set_dom set_app set_env snd fst];
      rewrite ?filter_app; cbn; rewrite ?app_nil_r; auto ].

Lemma frame_init q h marks : keeps (loader_frame q h marks) init.
Proof.
  assert (S : forall e c, keeps (loader_frame q h marks) (handleScroll e c))
    by (intros e c; unfold handleScroll; hoare frame_leaf).
  unfold init, prefersReducedMotion, initSimpleAnimations, initFullAnimations,
    setInitialStates, animateHero, animateSections, animateCards,
    bind_card_hover, animateButtons, bind_button_hover,
    animateFloatingElements, initHeaderScrollEffect,
    animatePhilosophySection.
  hoare frame_leaf.
Qed.

Lemma frame_initSmoothScrolling q h marks :
  keeps (loader_frame q h marks) initSmoothScrolling.
Proof. unfold initSmoothScrolling. hoare frame_leaf. Qed.

Lemma initialized_initSmoothScrolling : keeps initialized initSmoothScrolling.
Proof.
  unfold initSmoothScrolling, initialized.
  hoare ltac:(first [assumption | intros ? ?; unfold_prims; cbn; auto]).
Qed.

Lemma onReady_effect w :
  g_gsap (globals (env w) (clock w)) = true ->
  exists w',
    onReady w = (Ok tt, w') /\
    timers (rt w') = timers (rt w) /\
    head (dom w') = head (dom w) /\
    filter is_invocation (log w') = filter is_invocation (log w) /\
    isInitialized (ctl w') = true.
Proof.
  intros G.
  assert (F : loader_frame (timers (rt w)) (head (dom w))
                (filter is_invocation (log w)) w) by (repeat split).
  unfold onReady, bind.
  destruct (init_returns w G) as (w1 & E1).
  pose proof (frame_init _ _ _ w F) as F1. rewrite E1 in *. cbn [snd] in F1.
  assert (I1 : initialized w1).
  { destruct (isInitialized (ctl w)) eqn:U.
    - rewrite (init_again w U) in E1. injection E1 as <-. exact U.
    - destruct (init_first_call w U G) as (w1' & E1' & C).
      rewrite E1 in E1'. injection E1' as <-. unfold initialized.
      now rewrite C. }
  destruct (initSmoothScrolling_returns w1) as (w' & E2).
  pose proof (frame_initSmoothScrolling _ _ _ w1 F1) as F2.
  pose proof (initialized_initSmoothScrolling w1 I1) as I2.
  rewrite E2 in *. cbn [snd] in F2, I2.
  destruct F2 as (A & B & C). exists w'. repeat split; auto.
Qed.

Lemma detected_at_clock w :
  engine_detected w = detected_at (env w) (clock w).
Proof. reflexivity. Qed.

(** One poll that does not find the engine. *)
Lemma fire_absent_poll cb a k due w i :
  polling a k due w ->
  timers (rt w) = [{| t_id := i; t_due := due; t_fn := TCheckGSAP a |}] ->
  detected_at (env w) due = false ->
  (k + 1 < maxAttempts)%Z ->
  fire_with cb {| t_id := i; t_due := due; t_fn := TCheckGSAP a |} w =
  poll_again a (set_clock due (remove_timer i w)).
Proof.
  intros [_ C L K] E D B. unfold fire_with, task.
  cbn [t_due t_id t_fn run_timer_with].
  set (w' := set_clock due (remove_timer i w)).
  assert (H1 : engine_detected w' = false).
  { rewrite detected_at_clock. unfold w', set_clock, remove_timer, clock.
    cbn. unfold clock in K. now rewrite Z.max_r by exact K. }
  assert (H2 : a < List.length (heap (rt w'))) by exact L.
  rewrite (checkGSAP_absent cb a w' H1 H2).
  replace (counter a w') with k by (symmetry; exact C).
  apply Z.ltb_lt in B. now rewrite B.
Qed.

(** [n] polls in a row that do not find the engine leave the loader
    polling, and nothing else changed. *)
Lemma advance_absent_polls cb a :
  forall n k due w fuel T,
    polling a k due w ->
    (forall i, (0 <= i < Z.of_nat n)%Z ->
               detected_at (env w) (due + 100 * i) = false) ->
    (k + Z.of_nat n < maxAttempts)%Z ->
    (due + 100 * (Z.of_nat n - 1) <= T)%Z ->
    exists w',
      advance_with cb (n + fuel) T w = advance_with cb fuel T w' /\
      polling a (k + Z.of_nat n) (due + 100 * Z.of_nat n) w' /\
      globals (env w') = globals (env w) /\
      registerThrows (env w') = registerThrows (env w) /\
      dom w' = dom w /\ log w' = log w /\ app w' = app w /\ eng w' = eng w.
Proof.
  induction n as [|n IH]; intros k due w fuel T P A B HT.
  - exists w. cbn [Nat.add Z.of_nat]. rewrite Z.add_0_r, Z.mul_0_r, Z.add_0_r.
    split; [reflexivity|]. split; [exact P|]. repeat split.
  - pose proof P as PP. destruct PP as [[i E] C L K].
    cbn [Nat.add]. rewrite advance_with_eq, E. cbn [next_timer t_due].
    replace (due <=? T)%Z with true by (symmetry; apply Z.leb_le; lia).
    rewrite (fire_absent_poll cb a k due w i P E).
    + destruct (IH (k + 1)%Z (due + 100)%Z
                   (poll_again a (set_clock due (remove_timer i w))) fuel T)
        as (w' & A1 & A2 & A3 & A4 & A5 & A6 & A7 & A8).
      * now apply polling_poll_again.
      * intros j Hj. cbn [poll_again set_clock remove_timer env set_rt
                          set_env with_now globals].
        replace (due + 100 + 100 * j)%Z with (due + 100 * (j + 1))%Z by lia.
        apply A. lia.
      * lia.
      * lia.
      * exists w'. split; [exact A1|].
        replace (k + Z.of_nat (S n))%Z with (k + 1 + Z.of_nat n)%Z by lia.
        replace (due + 100 * Z.of_nat (S n))%Z
          with (due + 100 + 100 * Z.of_nat n)%Z by lia.
        split; [exact A2|]. repeat split; auto.
    + replace due with (due + 100 * 0)%Z by lia. apply A. lia.
    + lia.
Qed.

Lemma invocation_times_log w l :
  invocation_times (set_log (fun l0 => l0 ++ l) w) =
  invocation_times w ++ map fst (filter is_invocation l).
Proof.
  unfold invocation_times. cbn [log set_log].
  now rewrite filter_app, map_app.
Qed.

(** A poll that finds the engine. *)
Lemma checkGSAP_detected a w :
  engine_detected w = true ->
  exists wf,
    checkGSAP onReady a w = (Ok tt, wf) /\
    timers (rt wf) = timers (rt w) /\
    head (dom wf) = head (dom w) /\
    invocation_times wf = invocation_times w ++ [clock w] /\
    isInitialized (ctl wf) = true.
Proof.
  intros D.
  assert (G : g_gsap (globals (env w) (clock w)) = true)
    by (unfold engine_detected in D; now apply andb_prop in D).
  destruct (fst (register_plugins (globals (env w) (clock w)) w))
    as [[]|e] eqn:R.
  - rewrite (checkGSAP_registered onReady a w D R).
    destruct (onReady_effect (first_call a w) G) as (wf & -> & T & H & I & U).
    exists wf. split; [reflexivity|]. split; [exact T|]. split; [exact H|].
    split; [|exact U]. unfold invocation_times. rewrite I.
    unfold first_call. cbn [log]. rewrite filter_app, map_app. reflexivity.
  - rewrite (checkGSAP_caught onReady a w e D R).
    destruct (onReady_effect (caught_call a w e) G)
      as (wf & -> & T & H & I & U).
    exists wf. split; [reflexivity|]. split; [exact T|]. split; [exact H|].
    split; [|exact U]. unfold invocation_times. rewrite I.
    unfold caught_call. cbn [log]. rewrite filter_app, map_app. reflexivity.
Qed.

Lemma fire_detected_poll a k due w i :
  polling a k due w ->
  timers (rt w) = [{| t_id := i; t_due := due; t_fn := TCheckGSAP a |}] ->
  detected_at (env w) due = true ->
  exists wf,
    fire {| t_id := i; t_due := due; t_fn := TCheckGSAP a |} w = wf /\
    timers (rt wf) = [] /\
    head (dom wf) = head (dom w) /\
    invocation_times wf = invocation_times w ++ [due] /\
    isInitialized (ctl wf) = true.
Proof.
  intros [_ C L K] E D. unfold fire, fire_with, task.
  cbn [t_due t_id t_fn run_timer_with].
  set (w' := set_clock due (remove_timer i w)).
  assert (Cl : clock w' = due).
  { unfold w', set_clock, remove_timer, clock. cbn. unfold clock in K.
    now rewrite Z.max_r by exact K. }
  assert (H1 : engine_detected w' = true).
  { rewrite detected_at_clock, Cl. exact D. }
  destruct (checkGSAP_detected a w' H1) as (wf & -> & T & H & I & U).
  exists wf. split; [reflexivity|]. rewrite T, H, I, Cl.
  unfold w', set_clock, remove_timer. cbn. rewrite E. cbn.
  rewrite Nat.eqb_refl. cbn. auto.
Qed.

Lemma advance_idle cb fuel T w :
  timers (rt w) = [] -> advance_with cb fuel T w = Some (set_clock T w).
Proof. intros E. rewrite advance_with_eq, E. reflexivity. Qed.

Lemma advance_absent_early cb a :
  forall fuel n k due w T w',
    polling a k due w ->
    (forall i, (0 <= i < n)%Z ->
               detected_at (env w) (due + 100 * i) = false) ->
    (k + n < maxAttempts)%Z ->
    (T < due + 100 * n)%Z ->
    advance_with cb fuel T w = Some w' ->
    dom w' = dom w /\ log w' = log w /\ eng w' = eng w /\ app w' = app w.
Proof.
  induction fuel as [|fuel IH]; intros n k due w T w' P A B HT;
    pose proof P as PP; destruct PP as [[i E] C L K];
    rewrite advance_with_eq, E; cbn [next_timer t_due];
    destruct (due <=? T)%Z eqn:D; try discriminate;
    try (intros [= <-]; repeat split; reflexivity).
  apply Z.leb_le in D.
  rewrite (fire_absent_poll cb a k due w i P E).
  - intros Adv.
    apply (IH (n - 1)%Z (k + 1)%Z (due + 100)%Z) in Adv.
    + exact Adv.
    + now apply polling_poll_again.
    + intros j Hj. cbn [poll_again set_clock remove_timer env set_rt
                        set_env with_now globals].
      replace (due + 100 + 100 * j)%Z with (due + 100 * (j + 1))%Z by lia.
      apply A. lia.
    + lia.
    + lia.
  - replace due with (due + 100 * 0)%Z by lia. apply A. lia.
  - lia.
Qed.

(** X1.  The engine arrives while the loader polls.  Let the loader start
    with no timer pending, and let the engine be absent at the first [k]
    looks, 100 ms apart, and there at look [k], one of the 50 the loader
    makes.  Then the callback of the script is called exactly once, at that
    instant; it returns, with the controller initialized; polling stops and
    no fallback stylesheet is added.  Before that instant the callback is
    not called and the controller is untouched.  Only the instants of the
    looks matter: what the globals are in between is never seen. *)
Theorem engine_found_while_polling w0 k :
  timers (rt w0) = [] ->
  (0 <= k <= 49)%Z ->
  (forall i, (0 <= i < k)%Z ->
             detected_at (env w0) (clock w0 + 100 * i) = false) ->
  detected_at (env w0) (clock w0 + 100 * k) = true ->
  (forall fuel T,
     Z.to_nat k <= fuel -> (clock w0 + 100 * k <= T)%Z ->
     exists wf,
       advance fuel T (snd (initialize w0)) = Some wf /\
       invocation_times wf = invocation_times w0 ++ [(clock w0 + 100 * k)%Z] /\
       isInitialized (ctl wf) = true /\
       head (dom wf) = head (dom w0) /\
       timers (rt wf) = []) /\
  (forall fuel T w',
     (clock w0 <= T < clock w0 + 100 * k)%Z ->
     advance fuel T (snd (initialize w0)) = Some w' ->
     invocation_times w' = invocation_times w0 /\ app w' = app w0 /\
     eng w' = eng w0 /\ dom w' = dom w0).
Proof.
  intros E Hk A D. unfold advance, initialize.
  destruct (Z.eq_dec k 0) as [->|Nz].
  - rewrite Z.mul_0_r, Z.add_0_r in *. unfold waitForGSAP, alloc.
    unfold bind.
    set (w1 := set_rt (with_heap (fun h => h ++ [CNum 0])) w0).
    destruct (checkGSAP_detected (List.length (heap (rt w0))) w1 D)
      as (wf & -> & T1 & H1 & I1 & U1). cbn [snd].
    assert (Tf : timers (rt wf) = []) by (rewrite T1; exact E).
    split.
    + intros fuel T _ HT. rewrite (advance_idle onReady fuel T wf Tf).
      eexists. split; [reflexivity|]. unfold invocation_times in *.
      cbn. auto.
    + intros fuel T w' HT. rewrite (advance_idle onReady fuel T wf Tf).
      intros _. lia.
  - assert (D0 : engine_detected w0 = false).
    { rewrite detected_at_clock.
      replace (clock w0) with (clock w0 + 100 * 0)%Z by lia. apply A. lia. }
    rewrite (waitForGSAP_absent onReady w0 D0). cbn [snd].
    pose proof (polling_started w0 E) as P.
    set (a := List.length (heap (rt w0))) in *.
    set (w1 := poll_again a _) in *.
    assert (A1 : forall i, (0 <= i < k - 1)%Z ->
                 detected_at (env w1) (clock w0 + 100 + 100 * i) = false).
    { intros i Hi.
      replace (clock w0 + 100 + 100 * i)%Z
        with (clock w0 + 100 * (i + 1))%Z by lia.
      apply A. lia. }
    split.
    + intros fuel T Hf HT.
      destruct (advance_absent_polls onReady a (Z.to_nat (k - 1)) 1%Z
                  (clock w0 + 100)%Z w1 (fuel - Z.to_nat (k - 1)) T P)
        as (w2 & Adv & P2 & G2 & _ & D2 & L2 & Ap2 & _).
      * intros i Hi. apply A1. lia.
      * unfold maxAttempts. lia.
      * lia.
      * replace (Z.to_nat (k - 1) + (fuel - Z.to_nat (k - 1)))
          with fuel in Adv by lia.
        rewrite Adv.
        replace (1 + Z.of_nat (Z.to_nat (k - 1)))%Z with k in P2 by lia.
        replace (clock w0 + 100 + 100 * Z.of_nat (Z.to_nat (k - 1)))%Z
          with (clock w0 + 100 * k)%Z in P2 by lia.
        pose proof P2 as PP. destruct PP as [[i E2] _ _ _].
        destruct (fuel - Z.to_nat (k - 1)) as [|f] eqn:F; [lia|].
        rewrite advance_with_eq, E2. cbn [next_timer t_due].
        replace (clock w0 + 100 * k <=? T)%Z with true
          by (symmetry; apply Z.leb_le; lia).
        destruct (fire_detected_poll a k (clock w0 + 100 * k)%Z w2 i P2 E2)
          as (wf & Fi & Tf & Hf' & If & Uf).
        { unfold detected_at. rewrite G2. exact D. }
        unfold fire in Fi. rewrite Fi.
        rewrite (advance_idle onReady f T wf Tf).
        eexists. split; [reflexivity|]. cbn.
        unfold invocation_times in *. cbn.
        rewrite If, L2, Hf', D2. repeat split; auto.
    + intros fuel T w' HT Adv.
      apply (advance_absent_early onReady a fuel (k - 1)%Z 1%Z
               (clock w0 + 100)%Z w1 T w' P) in Adv.
      * destruct Adv as (Dm & Lg & En & Ap).
        unfold invocation_times. rewrite Lg, Dm, En, Ap. repeat split.
      * exact A1.
      * unfold maxAttempts. lia.
      * lia.
Qed.

Lemma fire_last_poll cb a due w i :
  polling a 49 due w ->
  timers (rt w) = [{| t_id := i; t_due := due; t_fn := TCheckGSAP a |}] ->
  detected_at (env w) due = false ->
  fire_with cb {| t_id := i; t_due := due; t_fn := TCheckGSAP a |} w =
  give_up_polling a (set_clock due (remove_timer i w)).
Proof.
  intros [_ C L K] E D. unfold fire_with, task.
  cbn [t_due t_id t_fn run_timer_with].
  set (w' := set_clock due (remove_timer i w)).
  assert (H1 : engine_detected w' = false).
  { rewrite detected_at_clock. unfold w', set_clock, remove_timer, clock.
    cbn. unfold clock in K. now rewrite Z.max_r by exact K. }
  assert (H2 : a < List.length (heap (rt w'))) by exact L.
  rewrite (checkGSAP_absent cb a w' H1 H2).
  replace (counter a w') with 49%Z by (symmetry; exact C).
  reflexivity.
Qed.

(** X2.  The loader looks 50 times and never again.  Let the loader start
    with no timer pending and let the engine be absent at each of its 50
    looks, 100 ms apart.  Then from the last look on -- 4900 ms after the
    start -- the fallback stylesheet is in place, no timer is left and the
    callback has not been called, whatever the callback is and whatever the
    globals are at any other instant: an engine that loads between two looks
    and goes, or one that loads after the last look, is never used. *)
Theorem engine_is_looked_for_fifty_times cb w0 :
  timers (rt w0) = [] ->
  (forall i, (0 <= i < 50)%Z ->
             detected_at (env w0) (clock w0 + 100 * i) = false) ->
  forall fuel T,
    49 <= fuel -> (clock w0 + 4900 <= T)%Z ->
    exists wf,
      advance_with cb fuel T (snd (waitForGSAP cb w0)) = Some wf /\
      head (dom wf) = head (dom w0) ++ [StyleElement fallbackCSS] /\
      invocation_times wf = invocation_times w0 /\
      timers (rt wf) = [] /\
      app wf = app w0 /\ eng wf = eng w0.
Proof.
  intros E A fuel T Hf HT.
  assert (D0 : engine_detected w0 = false).
  { rewrite detected_at_clock.
    replace (clock w0) with (clock w0 + 100 * 0)%Z by lia. apply A. lia. }
  rewrite (waitForGSAP_absent cb w0 D0). cbn [snd].
  pose proof (polling_started w0 E) as P.
  set (a := List.length (heap (rt w0))) in *.
  set (w1 := poll_again a _) in *.
  destruct (advance_absent_polls cb a 48 1%Z (clock w0 + 100)%Z w1
              (fuel - 48) T P)
    as (w2 & Adv & P2 & G2 & _ & D2 & L2 & Ap2 & En2).
  - intros i Hi.
    replace (clock w0 + 100 + 100 * i)%Z
      with (clock w0 + 100 * (i + 1))%Z by lia.
    apply A. lia.
  - unfold maxAttempts. lia.
  - lia.
  - replace (48 + (fuel - 48)) with fuel in Adv by lia. rewrite Adv.
    change (1 + Z.of_nat 48)%Z with 49%Z in P2.
    replace (clock w0 + 100 + 100 * Z.of_nat 48)%Z
      with (clock w0 + 4900)%Z in P2 by lia.
    pose proof P2 as PP. destruct PP as [[i E2] _ _ _].
    destruct (fuel - 48) as [|f] eqn:F; [lia|].
    rewrite advance_with_eq, E2. cbn [next_timer t_due].
    replace (clock w0 + 4900 <=? T)%Z with true
      by (symmetry; apply Z.leb_le; lia).
    rewrite (fire_last_poll cb a (clock w0 + 4900)%Z w2 i P2 E2).
    + rewrite advance_idle.
      * eexists. split; [reflexivity|].
        unfold invocation_times. cbn. rewrite D2, L2, Ap2, En2.
        rewrite filter_app. cbn. rewrite app_nil_r. repeat split.
        rewrite E2. cbn. now rewrite Nat.eqb_refl.
      * cbn. rewrite E2. cbn. now rewrite Nat.eqb_refl.
    + unfold detected_at. rewrite G2.
      replace (clock w0 + 4900)%Z with (clock w0 + 100 * 49)%Z by lia.
      apply A. lia.
Qed.

(** ** Timer handles and the page-load refresh *)

Lemma NoDup_map_filter {A B} (f : A -> B) (p : A -> bool) l :
  NoDup (map f l) -> NoDup (map f (filter p l)).
Proof.
  induction l as [|x l IH]; cbn; [auto|]. intros N.
  inversion N as [|? ? X N']; subst. destruct (p x); cbn; auto.
  constructor; auto. intros I. apply X.
  apply in_map_iff in I. destruct I as (y & E & I).
  apply filter_In in I. apply in_map_iff. exists y. tauto.
Qed.

Lemma fresh_filter p w :
  timer_ids_fresh w ->
  timer_ids_fresh (set_rt (with_timers (filter p)) w).
Proof.
  intros (A & B & C). split; [|split]; cbn.
  - intros tm I. apply filter_In in I. now apply A.
  - now apply NoDup_map_filter.
  - exact C.
Qed.

Lemma fresh_setTimeout f d : keeps timer_ids_fresh (setTimeout f d).
Proof.
  intros w (A & B & C). split; [|split]; cbn.
  - intros tm I. apply in_app_iff in I. destruct I as [I|[<-|[]]].
    + specialize (A tm I). lia.
    + cbn. lia.
  - rewrite map_app. cbn. apply NoDup_app.
    + exact B.
    + constructor; [intros []|constructor].
    + intros x I [<-|[]]. apply in_map_iff in I.
      destruct I as (tm & E & I). specialize (A tm I). lia.
  - intros id E. specialize (C id E). lia.
Qed.

Lemma fresh_on_resize : keeps timer_ids_fresh on_resize.
Proof.
  intros w (A & B & C). rewrite on_resize_run. cbn [snd].
  split; [|split]; cbn.
  - intros tm I. apply in_app_iff in I. destruct I as [I|[<-|[]]].
    + assert (I' : In tm (timers (rt w))).
      { unfold without_timer in I. destruct (resizeTimeout (app w)); auto.
        now apply filter_In in I. }
      specialize (A tm I'). lia.
    + cbn. lia.
  - rewrite map_app. cbn. apply NoDup_app.
    + unfold without_timer. destruct (resizeTimeout (app w)); auto.
      now apply NoDup_map_filter.
    + constructor; [intros []|constructor].
    + intros x I [<-|[]]. apply in_map_iff in I.
      destruct I as (tm & E & I).
      assert (I' : In tm (timers (rt w))).
      { unfold without_timer in I. destruct (resizeTimeout (app w)); auto.
        now apply filter_In in I. }
      specialize (A tm I'). lia.
  - intros id [= <-]. lia.
Qed.

Ltac fresh_leaf :=
  first
    [ assumption
    | solve [eauto]
    | let w := fresh "w" in
      let A := fresh "A" in
      let B := fresh "B" in
      let C := fresh "C" in
      intros w (A & B & C);
      unfold timer_ids_fresh in *; unfold_prims;
      repeat match goal with
             | |- context [if ?b then _ else _] => destruct b eqn:?
             | |- context [match ?x with _ => _ end] => destruct x eqn:?
             end;
      cbn [rt app timers nextTimer resizeTimeout
           with_listeners with_heap with_controller with_cardHoverTweens
           with_scrollIntoView
           set_rt set_log set_eng set_dom set_app set_env snd fst];
      (split; [exact A | split; [exact B | exact C]]) ].

Lemma fresh_init : keeps timer_ids_fresh init.
Proof.
  assert (S : forall e c, keeps timer_ids_fresh (handleScroll e c))
    by (intros e c; unfold handleScroll; hoare fresh_leaf).
  unfold init, prefersReducedMotion, initSimpleAnimations, initFullAnimations,
    setInitialStates, animateHero, animateSections, animateCards,
    bind_card_hover, animateButtons, bind_button_hover,
    animateFloatingElements, initHeaderScrollEffect,
    animatePhilosophySection.
  hoare fresh_leaf.
Qed.

Lemma fresh_run_handler h : keeps timer_ids_fresh (run_handler h).
Proof.
  pose proof fresh_init as I. pose proof fresh_setTimeout as T.
  pose proof fresh_on_resize as R.
  destruct h; cbn [run_handler]; try exact R;
    unfold card_mouseenter, card_mouseleave, btn_mouseenter, btn_mouseleave,
      btn_hover, handleScroll, anchor_click, cleanup,
      on_page_load, initialize, waitForGSAP, checkGSAP, register_plugins,
      invoke, onReady, initSmoothScrolling;
    hoare fresh_leaf.
Qed.

Lemma fresh_run_timer f : keeps timer_ids_fresh (run_timer_with onReady f).
Proof.
  pose proof fresh_init as I. pose proof fresh_setTimeout as T.
  destruct f; cbn [run_timer_with];
    unfold refresh, checkGSAP, register_plugins, invoke, onReady,
      initSmoothScrolling;
    hoare fresh_leaf.
Qed.

Lemma fresh_main : keeps timer_ids_fresh main.
Proof.
  pose proof fresh_init as I. pose proof fresh_setTimeout as T.
  unfold main, initialize, waitForGSAP, checkGSAP, register_plugins,
      invoke, onReady, initSmoothScrolling;
    hoare fresh_leaf.
Qed.

Lemma reachable_timer_ids_fresh w : reachable w -> timer_ids_fresh w.
Proof.
  apply Inv_reachable.
  - intros f w0 J. exact J.
  - intros f w0 J. exact J.
  - intros id w0 J. now apply fresh_filter.
  - apply fresh_run_handler.
  - apply fresh_run_timer.
  - intros e d. apply fresh_main. split; [|split]; cbn.
    + intros tm [].
    + constructor.
    + discriminate.
Qed.

Lemma on_page_load_run w :
  on_page_load w =
  (Ok tt,
   set_rt (fun r =>
     with_nextTimer (S (nextTimer r))
       (with_timers (fun q => q ++ [page_load_timer w]) r)) w).
Proof.
  unfold on_page_load, setTimeout, page_load_timer. exec. reflexivity.
Qed.

Lemma deliver_page_load w :
  top_bound w -> deliver AstroPageLoad w = snd (on_page_load w).
Proof.
  intros (_ & _ & R). unfold deliver, dispatch, listeners_for in *.
  destruct (filter _ _) as [|l [|l' ls]]; try discriminate.
  injection R as R. cbn [fold_left]. rewrite R. cbn [run_handler].
  unfold task. now rewrite on_page_load_run.
Qed.

Lemma refresh_eq w :
  refresh w =
  (Ok tt,
   (if ScrollTrigger (ctl w) then set_eng (with_refreshes S)
    else fun x => x)
     (set_log (fun l => l ++ [(clock w, Enter "refresh")]) w)).
Proof.
  unfold refresh, ScrollTrigger_refresh. unfold clock, ctl. exec.
  destruct (ScrollTrigger _); exec; reflexivity.
Qed.

(** Firing a refresh timer. *)
Lemma fire_refresh id due w :
  (clock w <= due)%Z ->
  exists wf,
    fire {| t_id := id; t_due := due; t_fn := TRefresh |} w = wf /\
    timers (rt wf) =
      filter (fun t => negb (Nat.eqb (t_id t) id)) (timers (rt w)) /\
    nextTimer (rt wf) = nextTimer (rt w) /\
    listeners (rt wf) = listeners (rt w) /\
    app wf = app w /\
    clock wf = due /\
    refresh_calls wf = refresh_calls w ++ [due].
Proof.
  intros C. unfold fire, fire_with, task.
  cbn [t_fn t_id t_due run_timer_with]. rewrite refresh_eq.
  eexists. split; [reflexivity|].
  unfold refresh_calls, clock in *.
  destruct (ScrollTrigger _); cbn; rewrite filter_app, map_app; cbn;
    rewrite Z.max_r by exact C; repeat split.
Qed.

Lemma lone_refresh_fires fuel id due T w :
  timers (rt w) = [{| t_id := id; t_due := due; t_fn := TRefresh |}] ->
  (clock w <= due)%Z -> (due <= T)%Z -> 1 <= fuel ->
  exists wf,
    advance fuel T w = Some wf /\
    refresh_calls wf = refresh_calls w ++ [due] /\
    timers (rt wf) = [].
Proof.
  intros Q C HT Hf. destruct fuel as [|fuel]; [lia|].
  unfold advance. rewrite advance_with_eq, Q. cbn [next_timer t_due].
  replace (due <=? T)%Z with true by (symmetry; apply Z.leb_le; lia).
  destruct (fire_refresh id due w C) as (w' & F & Q' & _ & _ & _ & _ & R').
  unfold fire in F. rewrite F.
  rewrite Q in Q'. cbn in Q'. rewrite Nat.eqb_refl in Q'. cbn in Q'.
  rewrite advance_with_eq, Q'. cbn [next_timer].
  eexists. split; [reflexivity|]. split; [exact R'|exact Q'].
Qed.

Lemma two_refreshes_fire fuel id1 id2 d1 d2 T w :
  timers (rt w) = [{| t_id := id1; t_due := d1; t_fn := TRefresh |};
                   {| t_id := id2; t_due := d2; t_fn := TRefresh |}] ->
  id1 <> id2 ->
  (clock w <= d1)%Z -> (d1 <= d2)%Z -> (d2 <= T)%Z -> 2 <= fuel ->
  exists wf,
    advance fuel T w = Some wf /\
    refresh_calls wf = refresh_calls w ++ [d1; d2] /\
    timers (rt wf) = [].
Proof.
  intros Q N C H12 HT Hf. destruct fuel as [|fuel]; [lia|].
  unfold advance. rewrite advance_with_eq, Q. cbn [next_timer t_due].
  replace (d2 <? d1)%Z with false by (symmetry; apply Z.ltb_ge; lia).
  cbn [t_due].
  replace (d1 <=? T)%Z with true by (symmetry; apply Z.leb_le; lia).
  destruct (fire_refresh id1 d1 w C) as (w' & F & Q' & _ & _ & _ & C' & R').
  unfold fire in F. rewrite F.
  rewrite Q in Q'. cbn in Q'. rewrite Nat.eqb_refl in Q'. cbn in Q'.
  apply Nat.eqb_neq in N. rewrite Nat.eqb_sym in N. rewrite N in Q'.
  cbn in Q'.
  destruct (lone_refresh_fires fuel id2 d2 T w' Q') as (wf & A & R2 & Q2);
    try lia.
  exists wf. split; [exact A|]. split; [|exact Q2].
  rewrite R2, R', <- app_assoc. reflexivity.
Qed.

(** X10.  A refresh scheduled by [astro:page-load] is neither debounced nor
    cancelled.  On every state the page can reach, the event adds a timer of
    its own, due 100 ms later, and removes none; a resize event removes at
    most the timer its own listener set before, so the refresh of a page
    load survives it.  Thus from a state with no timer pending, a page load
    followed by a resize gives two calls of [refresh], 100 and 250 ms later,
    and two page loads give two calls as well. *)
Theorem page_load_refresh_is_never_cancelled w :
  reachable w ->
  timers (rt (deliver AstroPageLoad w)) =
    timers (rt w) ++ [page_load_timer w] /\
  In (page_load_timer w)
     (timers (rt (deliver Resize (deliver AstroPageLoad w)))) /\
  (forall tm, In tm (timers (rt w)) ->
              resizeTimeout (app w) <> Some (t_id tm) ->
              In tm (timers (rt (deliver Resize w)))) /\
  (timers (rt w) = [] ->
   forall fuel T,
     2 <= fuel -> (clock w + 250 <= T)%Z ->
     (exists wf,
        advance fuel T (deliver Resize (deliver AstroPageLoad w)) = Some wf /\
        refresh_calls wf =
          refresh_calls w ++ [(clock w + 100)%Z; (clock w + 250)%Z] /\
        timers (rt wf) = []) /\
     (exists wf,
        advance fuel T (deliver AstroPageLoad (deliver AstroPageLoad w))
          = Some wf /\
        refresh_calls wf =
          refresh_calls w ++ [(clock w + 100)%Z; (clock w + 100)%Z] /\
        timers (rt wf) = [])).
Proof.
  intros R. pose proof (reachable_top_bound w R) as B.
  destruct (reachable_timer_ids_fresh w R) as (A & _ & C).
  assert (E1 : deliver AstroPageLoad w =
               set_rt (fun r =>
                 with_nextTimer (S (nextTimer r))
                   (with_timers (fun q => q ++ [page_load_timer w]) r)) w)
    by (rewrite (deliver_page_load w B), on_page_load_run; reflexivity).
  set (w1 := deliver AstroPageLoad w) in *.
  assert (B1 : top_bound w1)
    by (rewrite E1; revert B; now apply top_bound_listeners).
  assert (N1 : resizeTimeout (app w) <> Some (nextTimer (rt w)))
    by (intros E; specialize (C _ E); lia).
  assert (K : forall q,
            In (page_load_timer w)
               (without_timer (resizeTimeout (app w))
                              (q ++ [page_load_timer w]))).
  { intros q. unfold without_timer.
    destruct (resizeTimeout (app w)) as [i|] eqn:Ei.
    - apply filter_In. split; [apply in_app_iff; right; now left|].
      cbn. apply negb_true_iff, Nat.eqb_neq. congruence.
    - apply in_app_iff. right. now left. }
  split; [now rewrite E1|]. split; [|split].
  - rewrite (deliver_resize w1 B1), on_resize_run. cbn [snd].
    rewrite E1. cbn. apply in_app_iff. left. apply K.
  - intros tm I Ne. rewrite (deliver_resize w B), on_resize_run. cbn.
    apply in_app_iff. left. unfold without_timer.
    destruct (resizeTimeout (app w)) as [i|]; [|exact I].
    apply filter_In. split; [exact I|].
    apply negb_true_iff, Nat.eqb_neq. congruence.
  - intros Q fuel T Hf HT.
    set (w2 := deliver Resize w1).
    set (w3 := deliver AstroPageLoad w1).
    assert (E2 : w2 =
      set_app (with_resizeTimeout (Some (S (nextTimer (rt w)))))
        (set_rt (fun r =>
           with_nextTimer (S (S (nextTimer (rt w))))
             (with_timers
                (fun _ => [page_load_timer w;
                           {| t_id := S (nextTimer (rt w));
                              t_due := (clock w + 250)%Z;
                              t_fn := TRefresh |}]) r)) w)).
    { unfold w2. rewrite (deliver_resize w1 B1), on_resize_run. cbn [snd].
      rewrite E1. unfold set_app, set_rt, with_timers, with_nextTimer. cbn.
      rewrite Q. cbn [app]. unfold without_timer, page_load_timer.
      destruct (resizeTimeout (app w)) as [i|] eqn:Ei; [|reflexivity].
      cbn. replace (nextTimer (rt w) =? i) with false; [reflexivity|].
      symmetry. apply Nat.eqb_neq. congruence. }
    assert (E3 : w3 =
      set_rt (fun r =>
        with_nextTimer (S (S (nextTimer (rt w))))
          (with_timers
             (fun _ => [page_load_timer w;
                        {| t_id := S (nextTimer (rt w));
                           t_due := (clock w + 100)%Z;
                           t_fn := TRefresh |}]) r)) w).
    { unfold w3. rewrite (deliver_page_load w1 B1), on_page_load_run.
      cbn [snd]. rewrite E1.
      unfold set_rt, with_timers, with_nextTimer, page_load_timer. cbn.
      rewrite Q. reflexivity. }
    split.
    + destruct (two_refreshes_fire fuel (nextTimer (rt w))
                  (S (nextTimer (rt w))) (clock w + 100)%Z
                  (clock w + 250)%Z T w2)
        as (wf & Adv & Rf & Qf); try lia.
      * rewrite E2. reflexivity.
      * rewrite E2. unfold clock. cbn. lia.
      * exists wf. split; [exact Adv|]. split; [|exact Qf].
        rewrite Rf, E2. reflexivity.
    + destruct (two_refreshes_fire fuel (nextTimer (rt w))
                  (S (nextTimer (rt w))) (clock w + 100)%Z
                  (clock w + 100)%Z T w3)
        as (wf & Adv & Rf & Qf); try lia.
      * rewrite E3. reflexivity.
      * rewrite E3. unfold clock. cbn. lia.
      * exists wf. split; [exact Adv|]. split; [|exact Qf].
        rewrite Rf, E3. reflexivity.
Qed.

(** ** In-page links, scroll triggers, and the edges of [init] and [cleanup] *)

Lemma hd_error_filter_seq (p : nat -> bool) : forall n s t,
  hd_error (filter p (seq s n)) = Some t ->
  p t = true /\ s <= t < s + n /\ forall j, s <= j < t -> p j = false.
Proof.
  induction n as [|n IH]; intros s t; cbn; [discriminate|].
  destruct (p s) eqn:E; cbn.
  - intros [= <-]. repeat split; auto; lia.
  - intros H. destruct (IH _ _ H) as (P & R & N).
    split; [exact P|]. split; [lia|]. intros j Hj.
    destruct (Nat.eq_dec j s) as [->|D]; [exact E|]. apply N. lia.
Qed.

Lemma hd_error_filter_seq_none (p : nat -> bool) : forall n s,
  hd_error (filter p (seq s n)) = None ->
  forall j, s <= j < s + n -> p j = false.
Proof.
  induction n as [|n IH]; intros s; cbn; [intros _ j; lia|].
  destruct (p s) eqn:E; cbn; [discriminate|].
  intros H j Hj. destruct (Nat.eq_dec j s) as [->|D]; [exact E|].
  apply (IH _ H). lia.
Qed.

Lemma matches_by_id d i e :
  matches d [[ById i]] e =
  match nth_error d e with
  | Some n => match nodeId n with
              | Some j => String.eqb i j
              | None => false
              end
  | None => false
  end.
Proof.
  unfold matches, match_complex. cbn.
  destruct (nth_error d e) as [n|]; cbn; [|reflexivity].
  destruct (nodeId n); cbn; [|reflexivity].
  destruct (ancestors d e); cbn; now rewrite andb_true_r, orb_false_r.
Qed.

Lemma querySelector_by_id d i :
  match querySelector d [[ById i]] with
  | Some t => first_with_id d i t
  | None => no_such_id d i
  end.
Proof.
  unfold querySelector, querySelectorAll.
  destruct (hd_error _) as [t|] eqn:H.
  - apply hd_error_filter_seq in H. destruct H as (P & R & N).
    rewrite matches_by_id in P. split.
    + destruct (nth_error d t) as [n|]; [|discriminate].
      exists n. split; [reflexivity|].
      destruct (nodeId n) as [j|]; [|discriminate].
      apply String.eqb_eq in P. now subst.
    + intros j n Hj E Id. specialize (N j ltac:(lia)).
      rewrite matches_by_id, E, Id, String.eqb_refl in N. discriminate.
  - intros j n E Id.
    assert (L : j < List.length d) by (apply nth_error_Some; congruence).
    pose proof (hd_error_filter_seq_none _ _ _ H j ltac:(lia)) as N.
    rewrite matches_by_id, E, Id, String.eqb_refl in N. discriminate.
Qed.

(** X4.  A click on an in-page link.  Let the link, element [a], have the
    href ["#" ++ frag].  With an empty fragment -- the href is the bare
    ["#"] -- the listener throws a [SyntaxError] and changes nothing.  With
    a fragment that is a plain name it returns: when the document has an
    element with that id, a smooth scroll to the first such element is
    requested; when it has none, nothing is requested.  Nothing else
    changes: not the engine, the page, the listeners or the controller. *)
Theorem click_on_in_page_link a w n frag :
  nth_error (document w) a = Some n ->
  href n = Some (String "#" frag) ->
  (frag = "" ->
   exists msg, anchor_click a w = (Throw (SyntaxError msg), w)) /\
  (plain_fragment frag = true ->
   exists w',
     anchor_click a w = (Ok tt, w') /\
     state_of w' =
       (env w, dom w, eng w, rt w,
        with_scrollIntoView
          (fun l => l ++ match querySelector (document w) [[ById frag]] with
                         | Some t => [t]
                         | None => []
                         end) (app w)) /\
     log w' = log w /\
     match querySelector (document w) [[ById frag]] with
     | Some t => first_with_id (document w) frag t
     | None => no_such_id (document w) frag
     end).
Proof.
  intros N H. split.
  - intros ->. eexists. unfold anchor_click. unfold document in *. exec.
    reflexivity.
  - intros P. destruct frag as [|c frag]; [discriminate|].
    pose proof (querySelector_by_id (document w) (String c frag)) as Q.
    assert (E : anchor_click a w =
                (Ok tt,
                 match querySelector (document w) [[ById (String c frag)]] with
                 | Some t =>
                     set_app (with_scrollIntoView (fun l => l ++ [t])) w
                 | None => w
                 end)).
    { unfold anchor_click. unfold document in *. exec.
      destruct (querySelector _ _); exec; reflexivity. }
    rewrite E. unfold document in *.
    destruct (querySelector (body (dom w)) [[ById (String c frag)]]);
      eexists; (split; [reflexivity|]); (split; [|split; [reflexivity|exact Q]]).
    + reflexivity.
    + unfold state_of. cbn. do 2 f_equal.
      destruct (app w). unfold with_scrollIntoView. cbn.
      now rewrite app_nil_r.
Qed.

(** *** Reveals with the scroll-trigger plugin *)



(** *** [init] before the engine is there, and [cleanup] *)

(** X7.  [init] called while [window.gsap] is undefined throws a [TypeError]
    at its first call on the engine and leaves the controller uninitialized:
    nothing was created, bound or changed on the page.  The call can be
    repeated: once [window.gsap] is defined a call of [init] initializes the
    controller. *)
Theorem init_before_the_engine_is_there w :
  isInitialized (ctl w) = false ->
  g_gsap (globals (env w) (clock w)) = false ->
  exists msg w',
    init w = (Throw (TypeError msg), w') /\
    isInitialized (ctl w') = false /\
    gsap (ctl w') = false /\
    eng w' = eng w /\ rt w' = rt w /\ dom w' = dom w /\
    entered w w' = ["init"] /\
    forall f,
      g_gsap (globals (env (set_env f w')) (clock (set_env f w'))) = true ->
      exists w'',
        init (set_env f w') = (Ok tt, w'') /\
        isInitialized (ctl w'') = true.
Proof.
  intros U G.
  assert (E : exists msg,
    init w =
    (Throw (TypeError msg),
     set_app (with_controller
                (with_ScrollTrigger
                   (g_ScrollTrigger (globals (env w) (clock w)))))
       (set_app (with_controller (with_gsap false))
          (set_log (fun l => l ++ [(clock w, Enter "init")]) w)))).
  { unfold init, set_this_gsap, set_this_ScrollTrigger, gsap_config,
      this_gsap.
    unfold clock, ctl in *. exec. cbn. rewrite ?G. exec.
    eexists. reflexivity. }
  destruct E as (msg & E). rewrite E. do 2 eexists.
  split; [reflexivity|].
  assert (U' : forall f,
    isInitialized
      (ctl (set_env f
         (set_app (with_controller
                (with_ScrollTrigger
                   (g_ScrollTrigger (globals (env w) (clock w)))))
       (set_app (with_controller (with_gsap false))
          (set_log (fun l => l ++ [(clock w, Enter "init")]) w))))) = false)
    by (intros f; unfold ctl in *; cbn; exact U).
  split; [exact (U' (fun e => e))|]. split; [reflexivity|].
  split; [reflexivity|]. split; [reflexivity|]. split; [reflexivity|].
  split.
  - now rewrite (entered_log w _ [(clock w, Enter "init")]).
  - intros f G'. destruct (init_first_call _ (U' f) G') as (w'' & E' & C).
    exists w''. split; [exact E'|]. now rewrite C.
Qed.

(** X8.  [cleanup] is no reset.  It returns, and leaves every listener
    bound, every timer pending, every closure variable, the page and the
    registered plugins as they were, kills tweens without removing them, and
    the controller initialized if it was.  So after [cleanup] a call of
    [init] still does nothing: the animations are not set up again. *)
Theorem cleanup_is_no_reset w :
  fst (cleanup w) = Ok tt /\
  rt (snd (cleanup w)) = rt w /\
  dom (snd (cleanup w)) = dom w /\
  env (snd (cleanup w)) = env w /\
  isInitialized (ctl (snd (cleanup w))) = isInitialized (ctl w) /\
  gsap (ctl (snd (cleanup w))) = gsap (ctl w) /\
  ScrollTrigger (ctl (snd (cleanup w))) = ScrollTrigger (ctl w) /\
  plugins (eng (snd (cleanup w))) = plugins (eng w) /\
  List.length (tweens (eng (snd (cleanup w)))) = List.length (tweens (eng w)) /\
  (isInitialized (ctl w) = true ->
   fst (init (snd (cleanup w))) = Ok tt /\
   state_of (snd (init (snd (cleanup w)))) = state_of (snd (cleanup w))).
Proof.
  rewrite cleanup_run. cbn [fst snd].
  repeat (split; [reflexivity|]). split.
  - cbn. destruct (gsap (ctl w)); rewrite ?length_map, length_kill_refs;
      reflexivity.
  - intros U.
    match goal with
    | |- context [init ?w1] =>
        assert (U1 : isInitialized (ctl w1) = true) by exact U;
        rewrite (init_again w1 U1)
    end.
    split; reflexivity.
Qed.

(** ** The steps of the setup *)

Lemma entered_in_app l1 l2 :
  entered_in (l1 ++ l2) = entered_in l1 ++ entered_in l2.
Proof.
  induction l1 as [|[t e] l1 IH]; cbn; [reflexivity|].
  destruct e; cbn; now rewrite ?IH.
Qed.

Lemma setting_up_enter e c l0 l m :
  triple (setting_up e c l0 l) (emit (Enter m)) (setting_up e c l0 (l ++ [m])).
Proof.
  intros w (He & Hc & G & evs & L & En). unfold emit, modify.
  do 2 eexists. split; [reflexivity|].
  split; [exact He|]. split; [exact Hc|]. split; [exact G|].
  exists (evs ++ [(clock w, Enter m)]). cbn. split.
  - now rewrite L, app_assoc.
  - rewrite entered_in_app, En. reflexivity.
Qed.

Ltac setup_leaf :=
  first
    [ assumption
    | solve [eauto]
    | let w := fresh "w" in
      let He := fresh "He" in
      let Hc := fresh "Hc" in
      let G := fresh "G" in
      let evs := fresh "evs" in
      let L := fresh "L" in
      let En := fresh "En" in
      intros w (He & Hc & G & evs & L & En);
      unfold setting_up in *; unfold_prims; cbv [ctl] in Hc;
      cbn; rewrite ?Hc, ?G; cbn;
      do 2 eexists; (split; [reflexivity|]);
      cbn; (split; [exact He|]); (split; [exact Hc|]);
      (split; [first [exact G | reflexivity]|]);
      first
        [ exists evs; split; [exact L | exact En]
        | eexists (evs ++ [_]); split;
          [ rewrite L, <- app_assoc; reflexivity
          | rewrite entered_in_app, En; cbn; now rewrite app_nil_r ] ] ].

Section Setup.
Variables (e : Env) (c : Controller) (l0 : list (Z * Event)).

Lemma step_handleScroll l h s :
  returns (setting_up e c l0 l) (handleScroll h s).
Proof. unfold handleScroll, classList_add, classList_remove. hoare setup_leaf. Qed.

Lemma step_initSimpleAnimations l :
  triple (setting_up e c l0 l) initSimpleAnimations
         (setting_up e c l0 (l ++ ["initSimpleAnimations"])).
Proof.
  unfold initSimpleAnimations.
  apply (triple_bind _ _ _ _ _ (setting_up_enter e c l0 l _)). intros _.
  apply triple_returns. hoare setup_leaf.
Qed.

Lemma step_setInitialStates l :
  triple (setting_up e c l0 l) setInitialStates
         (setting_up e c l0 (l ++ ["setInitialStates"])).
Proof.
  unfold setInitialStates.
  apply (triple_bind _ _ _ _ _ (setting_up_enter e c l0 l _)). intros _.
  apply triple_returns. hoare setup_leaf.
Qed.

Lemma step_animateHero l :
  triple (setting_up e c l0 l) animateHero
         (setting_up e c l0 (l ++ ["animateHero"])).
Proof.
  unfold animateHero.
  apply (triple_bind _ _ _ _ _ (setting_up_enter e c l0 l _)). intros _.
  apply triple_returns. hoare setup_leaf.
Qed.

Lemma step_animateSections l :
  triple (setting_up e c l0 l) animateSections
         (setting_up e c l0 (l ++ ["animateSections"])).
Proof.
  unfold animateSections.
  apply (triple_bind _ _ _ _ _ (setting_up_enter e c l0 l _)). intros _.
  apply triple_returns. hoare setup_leaf.
Qed.

Lemma step_animateCards l :
  triple (setting_up e c l0 l) animateCards
         (setting_up e c l0 (l ++ ["animateCards"])).
Proof.
  unfold animateCards, bind_card_hover.
  apply (triple_bind _ _ _ _ _ (setting_up_enter e c l0 l _)). intros _.
  apply triple_returns. hoare setup_leaf.
Qed.

Lemma step_animateButtons l :
  triple (setting_up e c l0 l) animateButtons
         (setting_up e c l0 (l ++ ["animateButtons"])).
Proof.
  unfold animateButtons, bind_button_hover.
  apply (triple_bind _ _ _ _ _ (setting_up_enter e c l0 l _)). intros _.
  apply triple_returns. hoare setup_leaf.
Qed.

Lemma step_animateFloatingElements l :
  triple (setting_up e c l0 l) animateFloatingElements
         (setting_up e c l0 (l ++ ["animateFloatingElements"])).
Proof.
  unfold animateFloatingElements.
  apply (triple_bind _ _ _ _ _ (setting_up_enter e c l0 l _)). intros _.
  apply triple_returns. hoare setup_leaf.
Qed.

Lemma step_initHeaderScrollEffect l :
  triple (setting_up e c l0 l) initHeaderScrollEffect
         (setting_up e c l0 (l ++ ["initHeaderScrollEffect"])).
Proof.
  unfold initHeaderScrollEffect.
  apply (triple_bind _ _ _ _ _ (setting_up_enter e c l0 l _)). intros _.
  apply triple_returns. pose proof step_handleScroll. hoare setup_leaf.
Qed.

Lemma step_animatePhilosophySection l :
  triple (setting_up e c l0 l) animatePhilosophySection
         (setting_up e c l0 (l ++ ["animatePhilosophySection"])).
Proof.
  unfold animatePhilosophySection.
  apply (triple_bind _ _ _ _ _ (setting_up_enter e c l0 l _)). intros _.
  apply triple_returns. hoare setup_leaf.
Qed.

Lemma step_initFullAnimations l :
  triple (setting_up e c l0 l) initFullAnimations
         (setting_up e c l0
            (l ++ "initFullAnimations" :: full_choreography)).
Proof.
  unfold initFullAnimations, full_choreography.
  eapply triple_bind; [apply setting_up_enter | intros _].
  eapply triple_bind; [apply step_setInitialStates | intros _].
  eapply triple_bind; [apply step_animateHero | intros _].
  eapply triple_bind; [apply step_animateSections | intros _].
  eapply triple_bind; [apply step_animateCards | intros _].
  eapply triple_bind; [apply step_animateButtons | intros _].
  eapply triple_bind; [apply step_animateFloatingElements | intros _].
  eapply triple_bind; [apply step_initHeaderScrollEffect | intros _].
  eapply triple_weaken; [|apply step_animatePhilosophySection].
  intros w. rewrite <- !app_assoc. cbn. auto.
Qed.
End Setup.

Lemma init_stages (P1 P2 Q : World -> Prop) (r0 : bool) w :
  isInitialized (ctl w) = false ->
  g_gsap (globals (env w) (clock w)) = true ->
  P1 (init_prefix w) ->
  returns P1 (gsap_config [("force3D", VBool true);
                           ("nullTargetWarn", VBool false)]) ->
  (forall st,
     returns P1 (if st : bool
                 then ScrollTrigger_config
                        [("ignoreMobileResize", VBool true)]
                 else ret tt)) ->
  (forall w1, P1 w1 ->
     exists w2, prefersReducedMotion w1 = (Ok r0, w2) /\ P2 w2) ->
  triple P2 (if r0 then initSimpleAnimations else initFullAnimations) Q ->
  exists w2, Q w2 /\ init w = (Ok tt, init_suffix w2).
Proof.
  intros U G I H1 H2 H3 H4.
  unfold init, set_this_gsap, set_this_ScrollTrigger, init_suffix.
  unfold init_prefix in I.
  unfold clock, ctl in *. exec. unfold set_this_isInitialized. rewrite G.
  run_with_returns H1 I.
  match goal with
  | |- context [if ?b then _ else _] => generalize b; intros st
  end.
  run_with_returns (H2 st) I0.
  match goal with
  | |- context [match prefersReducedMotion ?w1 with _ => _ end] =>
      destruct (H3 w1 I) as (w2 & E & I2); rewrite E; cbv iota beta
  end.
  run_with_returns H4 I2.
  exec. now exists w3.
Qed.

(** The first call of [init] with the engine there: what it enters. *)
Lemma init_first_call_steps w :
  isInitialized (ctl w) = false ->
  g_gsap (globals (env w) (clock w)) = true ->
  exists w' evs,
    init w = (Ok tt, w') /\
    log w' = log w ++ evs /\
    entered_in evs =
      "init" :: "prefersReducedMotion" :: setup_steps (reduced_motion w) /\
    isInitialized (ctl w') = true.
Proof.
  intros U G.
  set (c := ctl (init_prefix w)).
  destruct (init_stages
              (setting_up (env w) c (log w) ["init"])
              (setting_up (env w) c (log w) ["init"; "prefersReducedMotion"])
              (setting_up (env w) c (log w)
                 ("init" :: "prefersReducedMotion"
                  :: setup_steps (reduced_motion w)))
              (reduced_motion w) w U G)
    as (w2 & (He & Hc & _ & evs & L & En) & E).
  - split; [reflexivity|]. split; [reflexivity|]. split; [reflexivity|].
    exists [(clock w, Enter "init")]. split; reflexivity.
  - hoare setup_leaf.
  - intros st. hoare setup_leaf.
  - intros w1 (He & Hc & Gc & evs & L & En).
    unfold prefersReducedMotion, reduced_motion. exec. rewrite He.
    eexists. split; [reflexivity|].
    split; [exact He|]. split; [exact Hc|]. split; [exact Gc|].
    exists (evs ++ [(clock w1, Enter "prefersReducedMotion")]). cbn. split.
    + unfold clock. now rewrite L, He, app_assoc.
    + rewrite entered_in_app, En. reflexivity.
  - unfold setup_steps. destruct (reduced_motion w).
    + apply (step_initSimpleAnimations (env w) c (log w)
               ["init"; "prefersReducedMotion"]).
    + apply (step_initFullAnimations (env w) c (log w)
               ["init"; "prefersReducedMotion"]).
  - exists (init_suffix w2), (evs ++ [(clock w2, ConsoleLog msg_initialized)]).
    split; [exact E|]. unfold init_suffix. cbn. split; [|split].
    + now rewrite L, app_assoc.
    + rewrite entered_in_app, En. cbn. now rewrite app_nil_r.
    + reflexivity.
Qed.

(** X5.  The first call of [init] with the engine there goes through the
    whole setup, on any document: it returns, with the controller
    initialized, and the methods it has entered are [init],
    [prefersReducedMotion] and then, when reduced motion is asked for,
    [initSimpleAnimations] alone, and otherwise -- also when the browser has
    no [matchMedia] -- [initFullAnimations] and the eight steps of the
    choreography, each once and in the order of the source.  No step is
    skipped or cut short by an element that the page lacks. *)
Theorem init_goes_through_every_step w :
  isInitialized (ctl w) = false ->
  g_gsap (globals (env w) (clock w)) = true ->
  exists w',
    init w = (Ok tt, w') /\
    isInitialized (ctl w') = true /\
    entered w w' =
      "init" :: "prefersReducedMotion" :: setup_steps (reduced_motion w) /\
    (matchMedia (env w) = None ->
     entered w w' =
       ["init"; "prefersReducedMotion"; "initFullAnimations";
        "setInitialStates"; "animateHero"; "animateSections";
        "animateCards"; "animateButtons"; "animateFloatingElements";
        "initHeaderScrollEffect"; "animatePhilosophySection"]).
Proof.
  intros U G.
  destruct (init_first_call_steps w U G) as (w' & evs & E & L & En & I).
  exists w'. split; [exact E|]. split; [exact I|].
  rewrite (entered_log w w' evs L). split; [exact En|].
  intros M. rewrite En. unfold reduced_motion. now rewrite M.
Qed.

(** *** The setup runs at most once *)

Lemma setup_log_app w evs :
  setup_log (set_log (fun l => l ++ evs) w) =
  setup_log w ++ filter is_setup_step (entered_in evs).
Proof.
  unfold setup_log. cbn [log set_log]. now rewrite entered_in_app, filter_app.
Qed.

Lemma once_init : keeps set_up_once init.
Proof.
  intros w (A & B). destruct (isInitialized (ctl w)) eqn:U.
  - rewrite (init_again w U). cbn [snd]. unfold set_up_once.
    rewrite setup_log_app. cbn. rewrite app_nil_r.
    unfold ctl in *. cbn. rewrite U. split; [discriminate|exact B].
  - specialize (A eq_refl).
    destruct (g_gsap (globals (env w) (clock w))) eqn:G.
    + destruct (init_first_call_steps w U G) as (w' & evs & -> & L & En & I).
      cbn [snd]. unfold set_up_once. rewrite I.
      split; [discriminate|]. intros _.
      unfold setup_log in *. rewrite L, entered_in_app, filter_app, A, En.
      destruct (reduced_motion w); [left|right]; reflexivity.
    + destruct (init_without_engine_run w U G) as (msg & ->). cbn [snd].
      unfold set_up_once, setup_log, ctl in *. cbn. rewrite U.
      split; [|discriminate]. intros _.
      rewrite entered_in_app, filter_app, A. reflexivity.
Qed.

Ltac once_leaf :=
  first
    [ assumption
    | solve [eauto]
    | let w := fresh "w" in
      let A := fresh "A" in
      let B := fresh "B" in
      intros w (A & B);
      unfold set_up_once, setup_log in *; unfold_prims; unfold ctl in *;
      repeat match goal with
             | |- context [if ?b then _ else _] => destruct b eqn:?
             | |- context [match ?x with _ => _ end] => destruct x eqn:?
             end;
      cbn [rt app log AnimationController isInitialized
           with_listeners with_heap with_timers with_nextTimer
           with_controller with_cardHoverTweens with_resizeTimeout
           with_scrollIntoView
           set_rt set_log set_eng set_dom set_app set_env snd fst];
      rewrite ?entered_in_app, ?filter_app; cbn; rewrite ?app_nil_r;
      (split; [exact A | exact B]) ].

Lemma once_run_handler h : keeps set_up_once (run_handler h).
Proof.
  pose proof once_init as I.
  destruct h; cbn [run_handler];
    unfold card_mouseenter, card_mouseleave, btn_mouseenter, btn_mouseleave,
      btn_hover, handleScroll, classList_add, classList_remove,
      anchor_click, on_resize, cleanup,
      on_page_load, initialize, waitForGSAP, checkGSAP, register_plugins,
      invoke, onReady, initSmoothScrolling;
    hoare once_leaf.
Qed.

Lemma once_run_timer f : keeps set_up_once (run_timer_with onReady f).
Proof.
  pose proof once_init as I.
  destruct f; cbn [run_timer_with];
    unfold refresh, checkGSAP, register_plugins, invoke, onReady,
      initSmoothScrolling;
    hoare once_leaf.
Qed.

Lemma once_main : keeps set_up_once main.
Proof.
  pose proof once_init as I.
  unfold main, initialize, waitForGSAP, checkGSAP, register_plugins,
      invoke, onReady, initSmoothScrolling;
    hoare once_leaf.
Qed.

Lemma once_task m w :
  keeps set_up_once m -> set_up_once w -> set_up_once (task m w).
Proof.
  intros K S. specialize (K w S). unfold task.
  destruct (m w) as [[u|x] w']; cbn [snd] in K; [exact K|].
  unfold set_up_once. rewrite setup_log_app. cbn. rewrite app_nil_r.
  exact K.
Qed.

Lemma reachable_set_up_once w : reachable w -> set_up_once w.
Proof.
  apply Inv_reachable_bound.
  - intros f w0 J. exact J.
  - intros l w0 J _. apply once_task; [apply once_run_handler|exact J].
  - intros tm w0 J _. unfold fire, fire_with.
    apply once_task; [apply once_run_timer|exact J].
  - intros e d. apply once_task; [apply once_main|].
    split; [reflexivity|discriminate].
Qed.

(** X6.  The setup runs at most once on the page, and never in part.  On
    every state the page can reach: while the controller is not initialized
    no method of the setup has been entered; once it is, the log shows
    either [initSimpleAnimations] alone or [initFullAnimations] and the
    eight steps of the choreography, each exactly once and in order --
    however often [DOMContentLoaded] arrives and the loader calls [init]
    again. *)
Theorem setup_runs_once_and_completely w :
  reachable w ->
  (isInitialized (ctl w) = false -> setup_log w = []) /\
  (isInitialized (ctl w) = true ->
   setup_log w = ["initSimpleAnimations"] \/
   setup_log w = ["initFullAnimations"; "setInitialStates"; "animateHero";
                  "animateSections"; "animateCards"; "animateButtons";
                  "animateFloatingElements"; "initHeaderScrollEffect";
                  "animatePhilosophySection"]).
Proof.
  intros R. destruct (reachable_set_up_once w R) as (A & B).
  split; [exact A|exact B].
Qed.

(** ** The top level of the script *)

Lemma bound_deliver l i w : bound l w -> bound l (deliver i w).
Proof.
  assert (D : forall t ty w0, bound l w0 -> bound l (dispatch t ty w0)).
  { intros t ty w0. unfold dispatch.
    generalize (filter (listens t ty) (listeners (rt w0))).
    intros ls. revert w0. induction ls as [|x ls IH]; intros w0 B; cbn; auto.
    apply IH. now apply bound_task. }
  intros B. destruct i; cbn [deliver]; apply D; exact B.
Qed.

(** X11.  The three listeners of the top level stay bound, once each, and no
    listener is ever removed.  On every state the page can reach exactly one
    listener is bound for [resize], one for [beforeunload] and one for
    [astro:page-load], so that each of these events runs its listener
    exactly once; and a listener that is bound is still bound after any
    further input. *)
Theorem top_level_listeners_stay_bound w :
  reachable w ->
  listeners_for OnWindow "resize" w = [HResize] /\
  listeners_for OnWindow "beforeunload" w = [HBeforeUnload] /\
  listeners_for OnDocument "astro:page-load" w = [HAstroPageLoad] /\
  deliver Resize w = snd (on_resize w) /\
  deliver BeforeUnload w = snd (cleanup w) /\
  deliver AstroPageLoad w = snd (on_page_load w) /\
  forall i l, In l (listeners (rt w)) -> In l (listeners (rt (deliver i w))).
Proof.
  intros R. pose proof (reachable_top_bound w R) as B.
  destruct B as (B1 & B2 & B3).
  split; [exact B1|]. split; [exact B2|]. split; [exact B3|].
  split; [apply deliver_resize; now repeat split|].
  split; [apply deliver_beforeunload; now repeat split|].
  split; [apply deliver_page_load; now repeat split|].
  intros i l. apply bound_deliver.
Qed.

(** X12.  Nothing animates before the controller is initialized.  On every
    state the page can reach: as long as [isInitialized] is unset,
    [this.gsap] is unset, the engine holds no tween and no scroll trigger,
    and no hover listener is bound; once it is set, [this.gsap] is set; and
    without [this.ScrollTrigger] the engine holds no scroll trigger. *)
Theorem nothing_animates_before_init w :
  reachable w ->
  (isInitialized (ctl w) = false ->
   gsap (ctl w) = false /\ tweens (eng w) = [] /\ triggers (eng w) = [] /\
   forall l, In l (listeners (rt w)) -> is_hover (l_handler l) = false) /\
  (isInitialized (ctl w) = true -> gsap (ctl w) = true) /\
  (ScrollTrigger (ctl w) = false -> triggers (eng w) = []).
Proof.
  intros R. destruct (reachable_engine_known w R) as (K1 & K2 & K3).
  destruct (reachable_page_safe w R) as ((C1 & _) & _).
  split; [|split; [exact K2|exact K3]].
  intros U. destruct (K1 U) as (G & T & Tr). destruct (C1 U) as (_ & N).
  auto.
Qed.

Lemma main_while_loading e d :
  readyState e = "loading" ->
  task main (initial_world e d) =
  set_rt (with_listeners (fun _ => waiting_listeners)) (initial_world e d).
Proof.
  intros L. unfold task, main, addEventListener. exec. cbn. rewrite L. exec.
  reflexivity.
Qed.

(** X13.  The script loaded while the document is still loading binds its
    four listeners and does nothing else: no poll is started, nothing is
    logged and the controller is untouched, however much time passes.  The
    loader starts when [DOMContentLoaded] arrives: if the engine is there at
    that instant, the callback is called once, then and there, and the
    controller is initialized, with no timer left. *)
Theorem loader_waits_for_the_document e d :
  readyState e = "loading" ->
  (forall t,
     timers (rt (set_clock t (task main (initial_world e d)))) = [] /\
     listeners (rt (set_clock t (task main (initial_world e d)))) =
       waiting_listeners /\
     isInitialized (ctl (set_clock t (task main (initial_world e d)))) =
       false /\
     log (set_clock t (task main (initial_world e d))) = [] /\
     eng (set_clock t (task main (initial_world e d))) = fresh_engine) /\
  (forall t,
     (now e <= t)%Z -> detected_at e t = true ->
     exists wf,
       deliver DOMContentLoaded
         (set_clock t (task main (initial_world e d))) = wf /\
       invocation_times wf = [t] /\
       isInitialized (ctl wf) = true /\
       timers (rt wf) = [] /\
       head (dom wf) = []).
Proof.
  intros L. rewrite (main_while_loading e d L). split.
  - intros t. repeat split.
  - intros t Ht D.
    unfold deliver, dispatch. cbn [filter listens].
    cbn. unfold task, initialize, waitForGSAP, alloc. unfold bind at 1.
    match goal with
    | |- context [checkGSAP onReady ?a ?w1] =>
        destruct (checkGSAP_detected a w1) as (wf & E & T & H & I & U)
    end.
    + rewrite detected_at_clock. unfold clock. cbn.
      rewrite Z.max_r by exact Ht. exact D.
    + rewrite E. eexists. split; [reflexivity|].
      rewrite I, U, T, H. unfold invocation_times, clock. cbn.
      rewrite Z.max_r by exact Ht. repeat split.
Qed.

(** ** What the script writes to the document *)



















Section Kept.
Variable d0 : Document.
Variable h0 : list HeadNode.
Variable hdr : option Elem.
Hypothesis header_of_d0 : querySelector d0 (sel "site-header") = hdr.













End Kept.







(** ** The decorations *)

(** *** The hero and the floating decorations *)














Lemma length_section_floats els : forall i,
  List.length (section_floats i els) = 2 * List.length els.
Proof.
  induction els as [|e els IH]; intros i; cbn [section_floats List.length];
    [reflexivity|]. rewrite IH. lia.
Qed.



(** ** The hover listeners of the buttons *)

(** *** The variables of the hover listeners exist *)

Lemma cells_ok_mono n m l : n <= m -> cells_ok n l = true -> cells_ok m l = true.
Proof.
  intros L. unfold cells_ok.
  destruct (l_handler l); auto; intros H;
    apply andb_prop in H; destruct H as (H & N);
    apply andb_prop in H; destruct H as (B & I);
    apply Nat.ltb_lt in B, I; rewrite N, andb_true_r;
    apply andb_true_intro; split; apply Nat.ltb_lt; lia.
Qed.

Lemma forallb_cells_mono n m ls :
  n <= m -> forallb (cells_ok n) ls = true -> forallb (cells_ok m) ls = true.
Proof.
  intros L. rewrite !forallb_forall. intros H l I.
  exact (cells_ok_mono n m l L (H l I)).
Qed.

Ltac cells_leaf :=
  first
    [ assumption
    | solve [eauto]
    | let w := fresh "w" in
      let A := fresh "A" in
      intros w A;
      unfold button_cells_ok in *; unfold_prims;
      repeat match goal with
             | |- context [if ?b then _ else _] => destruct b eqn:?
             | |- context [match ?x with _ => _ end] => destruct x eqn:?
             end;
      cbn [rt heap listeners with_listeners with_heap with_timers
           with_nextTimer
           set_rt set_log set_eng set_dom set_app set_env snd fst];
      rewrite ?length_update_nth, ?forallb_app;
      first [ exact A
            | rewrite A; reflexivity
            | rewrite length_app;
              apply (forallb_cells_mono (List.length (heap (rt w))));
              [lia | exact A] ] ].

Lemma cells_bind_button_hover btn : keeps button_cells_ok (bind_button_hover btn).
Proof.
  intros w A. unfold bind_button_hover, button_cells_ok in *. unfold_prims.
  cbn [rt heap listeners with_listeners with_heap set_rt snd fst].
  rewrite !forallb_app, !length_app. cbn [List.length].
  assert (L : List.length (heap (rt w)) <=
              List.length (heap (rt w)) + 1 + 1) by lia.
  rewrite (forallb_cells_mono _ _ _ L A). clear L.
  cbn [forallb cells_ok l_handler andb].
  replace (List.length (heap (rt w)) <? List.length (heap (rt w)) + 1 + 1)
    with true by (symmetry; apply Nat.ltb_lt; lia).
  replace (List.length (heap (rt w)) + 1 <?
           List.length (heap (rt w)) + 1 + 1)
    with true by (symmetry; apply Nat.ltb_lt; lia).
  replace (List.length (heap (rt w)) =? List.length (heap (rt w)) + 1)
    with false by (symmetry; apply Nat.eqb_neq; lia).
  reflexivity.
Qed.

Lemma cells_init : keeps button_cells_ok init.
Proof.
  pose proof cells_bind_button_hover as B.
  unfold init, prefersReducedMotion, initSimpleAnimations, initFullAnimations,
    setInitialStates, animateHero, animateSections, animateCards,
    bind_card_hover, animateButtons,
    animateFloatingElements, initHeaderScrollEffect, handleScroll,
    animatePhilosophySection.
  hoare cells_leaf.
Qed.

Lemma cells_run_handler h : keeps button_cells_ok (run_handler h).
Proof.
  pose proof cells_init as I.
  destruct h; cbn [run_handler];
    unfold card_mouseenter, card_mouseleave, btn_mouseenter, btn_mouseleave,
      btn_hover, handleScroll, anchor_click, cleanup, on_resize,
      on_page_load, initialize, waitForGSAP, checkGSAP, register_plugins,
      invoke, onReady, initSmoothScrolling;
    hoare cells_leaf.
Qed.

Lemma cells_run_timer f : keeps button_cells_ok (run_timer_with onReady f).
Proof.
  pose proof cells_init as I.
  destruct f; cbn [run_timer_with];
    unfold refresh, checkGSAP, register_plugins, invoke, onReady,
      initSmoothScrolling;
    hoare cells_leaf.
Qed.

Lemma cells_main : keeps button_cells_ok main.
Proof.
  pose proof cells_init as I.
  unfold main, initialize, waitForGSAP, checkGSAP, register_plugins,
      invoke, onReady, initSmoothScrolling;
    hoare cells_leaf.
Qed.

Lemma reachable_button_cells_ok w : reachable w -> button_cells_ok w.
Proof.
  apply Inv_reachable.
  - intros f w0 J. exact J.
  - intros f w0 J. exact J.
  - intros id w0 J. exact J.
  - apply cells_run_handler.
  - apply cells_run_timer.
  - intros e d. apply cells_main. reflexivity.
Qed.

(** *** The handles in the closure variables refer to tweens *)

Lemma handle_ok_mono n m v : n <= m -> handle_ok n v = true -> handle_ok m v = true.
Proof.
  intros L. destruct v as [| |[id|]]; unfold handle_ok; auto.
  intros H. apply Nat.ltb_lt in H. apply Nat.ltb_lt. lia.
Qed.

Lemma forallb_handle_mono n m hp :
  n <= m -> forallb (handle_ok n) hp = true -> forallb (handle_ok m) hp = true.
Proof.
  intros L. rewrite !forallb_forall. intros H v I.
  exact (handle_ok_mono n m v L (H v I)).
Qed.

Lemma forallb_update_nth {A} (p : A -> bool) c v l :
  forallb p l = true -> p v = true ->
  forallb p (update_nth c (fun _ => v) l) = true.
Proof.
  intros H V. revert c. induction l as [|x l IH]; intros [|c]; cbn in *; auto;
    apply andb_prop in H; destruct H as (X & H); apply andb_true_intro; auto.
Qed.

Ltac handles_leaf :=
  first
    [ assumption
    | solve [eauto]
    | let w := fresh "w" in
      let A := fresh "A" in
      intros w A;
      unfold handles_ok in *; unfold_prims;
      repeat match goal with
             | |- context [if ?b then _ else _] => destruct b eqn:?
             | |- context [match ?x with _ => _ end] => destruct x eqn:?
             end;
      cbn [rt eng heap tweens listeners with_listeners with_heap with_timers
           with_nextTimer with_tweens with_triggers
           set_rt set_log set_eng set_dom set_app set_env snd fst];
      rewrite ?length_map, ?length_update_nth, ?forallb_app;
      first [ exact A
            | rewrite A; reflexivity
            | apply forallb_update_nth; [exact A | reflexivity]
            | rewrite length_app;
              apply (forallb_handle_mono (List.length (tweens (eng w))));
              [lia | exact A] ] ].

Lemma handles_store_then t v cell {B} (k : nat -> M B) :
  (forall x, keeps handles_ok (k x)) ->
  keeps handles_ok
    (x <- gsap_to t v ;; write cell (CTween (Some x)) ;; k x).
Proof.
  intros K w A. unfold gsap_to, this_gsap, new_tween, write.
  unfold bind at 1. unfold bind at 1. unfold gets at 1. unfold bind at 1.
  cbn [fst snd]. destruct (gsap (ctl w)); cbn [fst snd ret throw];
    [|exact A].
  unfold bind at 1, modify at 1. cbn [fst snd]. apply K.
  unfold handles_ok in *.
  cbn [rt eng heap tweens with_heap with_tweens set_rt set_eng].
  rewrite length_app. cbn [List.length]. apply forallb_update_nth.
  - now apply (forallb_handle_mono (List.length (tweens (eng w))));
      [lia|].
  - unfold handle_ok. apply Nat.ltb_lt. lia.
Qed.

Lemma handles_store t v cell :
  keeps handles_ok (x <- gsap_to t v ;; write cell (CTween (Some x))).
Proof.
  intros w A. unfold gsap_to, this_gsap, new_tween, write.
  unfold bind at 1. unfold bind at 1. unfold gets at 1. unfold bind at 1.
  cbn [fst snd]. destruct (gsap (ctl w)); cbn [fst snd ret throw];
    [|exact A].
  unfold modify. cbn [fst snd].
  unfold handles_ok in *.
  cbn [rt eng heap tweens with_heap with_tweens set_rt set_eng].
  rewrite length_app. cbn [List.length]. apply forallb_update_nth.
  - now apply (forallb_handle_mono (List.length (tweens (eng w))));
      [lia|].
  - unfold handle_ok. apply Nat.ltb_lt. lia.
Qed.

Lemma handles_card_hover card cell vars :
  keeps handles_ok
    (old <- read_tween cell ;;
     kill_if_set old ;;
     t <- gsap_to (TElement (Some card)) vars ;;
     write cell (CTween (Some t)) ;;
     cardHoverTweens_set card (Some t)).
Proof.
  apply keeps_bind; [unfold read_tween; hoare handles_leaf|intros old].
  apply keeps_bind; [unfold kill_if_set; hoare handles_leaf|intros _].
  apply handles_store_then. intros x. handles_leaf.
Qed.

Lemma handles_btn_hover v1 v2 btn icon bT iT :
  keeps handles_ok (btn_hover v1 v2 btn icon bT iT).
Proof.
  unfold btn_hover.
  apply keeps_bind; [unfold read_tween; hoare handles_leaf|intros oldB].
  apply keeps_bind; [unfold kill_if_set; hoare handles_leaf|intros _].
  apply keeps_bind; [unfold read_tween; hoare handles_leaf|intros oldI].
  apply keeps_bind; [unfold kill_if_set; hoare handles_leaf|intros _].
  apply handles_store_then. intros x.
  destruct icon; [apply handles_store | apply keeps_ret].
Qed.

Lemma handles_init : keeps handles_ok init.
Proof.
  unfold init, prefersReducedMotion, initSimpleAnimations, initFullAnimations,
    setInitialStates, animateHero, animateSections, animateCards,
    bind_card_hover, animateButtons, bind_button_hover,
    animateFloatingElements, initHeaderScrollEffect, handleScroll,
    animatePhilosophySection.
  hoare handles_leaf.
Qed.

Lemma handles_run_handler h : keeps handles_ok (run_handler h).
Proof.
  pose proof handles_init as I.
  destruct h; cbn [run_handler];
    try apply handles_card_hover; try apply handles_btn_hover;
    unfold handleScroll, anchor_click, cleanup, on_resize,
      on_page_load, initialize, waitForGSAP, checkGSAP, register_plugins,
      invoke, onReady, initSmoothScrolling;
    hoare handles_leaf.
Qed.

Lemma handles_run_timer f : keeps handles_ok (run_timer_with onReady f).
Proof.
  pose proof handles_init as I.
  destruct f; cbn [run_timer_with];
    unfold refresh, checkGSAP, register_plugins, invoke, onReady,
      initSmoothScrolling;
    hoare handles_leaf.
Qed.

Lemma handles_main : keeps handles_ok main.
Proof.
  pose proof handles_init as I.
  unfold main, initialize, waitForGSAP, checkGSAP, register_plugins,
      invoke, onReady, initSmoothScrolling;
    hoare handles_leaf.
Qed.

Lemma reachable_handles_ok w : reachable w -> handles_ok w.
Proof.
  apply Inv_reachable.
  - intros f w0 J. exact J.
  - intros f w0 J. exact J.
  - intros id w0 J. exact J.
  - apply handles_run_handler.
  - apply handles_run_timer.
  - intros e d. apply handles_main. reflexivity.
Qed.

(** *** One run of a hover listener of a button *)

Lemma btn_hover_run vars btn icon bT iT w :
  gsap (ctl w) = true ->
  exists w',
    btn_hover (fst vars) (snd vars) btn icon bT iT w = (Ok tt, w') /\
    tweens (eng w') = button_step bT iT btn icon vars w /\
    heap (rt w') =
      match icon with
      | Some _ =>
          update_nth iT
            (fun _ => CTween (Some (S (List.length (tweens (eng w))))))
            (update_nth bT
               (fun _ => CTween (Some (List.length (tweens (eng w)))))
               (heap (rt w)))
      | None =>
          update_nth bT
            (fun _ => CTween (Some (List.length (tweens (eng w)))))
            (heap (rt w))
      end /\
    triggers (eng w') = triggers (eng w) /\
    listeners (rt w') = listeners (rt w) /\
    timers (rt w') = timers (rt w) /\
    dom w' = dom w /\ app w' = app w /\ log w' = log w.
Proof.
  intros G.
  unfold btn_hover, kill_if_set, gsap_to, this_gsap, new_tween, tween_kill,
    button_step, stored_tween, kill_refs.
  unfold ctl in *. exec.
  destruct (nth bT (heap (rt w)) (CTween None)) as [| |[?|]]; exec;
    cbn [heap with_heap];
    destruct (nth iT (heap (rt w)) (CTween None)) as [| |[?|]]; exec;
    cbn; rewrite ?G; exec; destruct icon; exec; cbn; rewrite ?G; exec;
    eexists; (split; [reflexivity|]); cbn;
    rewrite ?length_app, ?length_update_nth, <- ?app_assoc, ?Nat.add_1_r;
    repeat split.
Qed.

Lemma bound_button_cells w l btn icon bT iT :
  button_cells_ok w -> In l (listeners (rt w)) ->
  l_handler l = HBtnEnter btn icon bT iT \/
  l_handler l = HBtnLeave btn icon bT iT ->
  bT < List.length (heap (rt w)) /\ iT < List.length (heap (rt w)) /\
  bT <> iT.
Proof.
  intros C I H. unfold button_cells_ok in C. rewrite forallb_forall in C.
  specialize (C l I). unfold cells_ok in C.
  destruct H as [H|H]; rewrite H in C;
    apply andb_prop in C; destruct C as (C & N);
    apply andb_prop in C; destruct C as (B & J);
    apply Nat.ltb_lt in B, J; apply negb_true_iff, Nat.eqb_neq in N; auto.
Qed.

Lemma stored_handle_lt w c id :
  handles_ok w -> stored_tween c w = Some id ->
  id < List.length (tweens (eng w)).
Proof.
  intros H S. unfold handles_ok in H. rewrite forallb_forall in H.
  unfold stored_tween in S.
  destruct (Nat.lt_ge_cases c (List.length (heap (rt w)))) as [L|L].
  - specialize (H _ (nth_In _ (CTween None) L)).
    destruct (nth c (heap (rt w)) (CTween None)) as [| |t]; try discriminate.
    subst t. now apply Nat.ltb_lt in H.
  - rewrite nth_overflow in S by exact L. discriminate.
Qed.

(** X16.  A hover listener of a button replaces its tweens.  On every state
    the page can reach, a bound [mouseenter] or [mouseleave] listener of a
    button returns when it runs; the tweens its two variables
    [buttonTween] and [iconTween] held are killed; a new tween of the button
    is started and remembered in [buttonTween] and, when the button has an
    icon, a new tween of the icon is started and remembered in [iconTween];
    for a button without icon [iconTween] stays as it was.  Nothing else
    changes in the engine, the listeners, the timers or the page. *)
Theorem button_hover_replaces_its_tweens w l btn icon bT iT :
  reachable w ->
  In l (listeners (rt w)) ->
  l_handler l = HBtnEnter btn icon bT iT \/
  l_handler l = HBtnLeave btn icon bT iT ->
  exists vars w',
    button_vars (l_handler l) = Some vars /\
    run_handler (l_handler l) w = (Ok tt, w') /\
    tweens (eng w') = button_step bT iT btn icon vars w /\
    stored_tween bT w' = Some (List.length (tweens (eng w))) /\
    stored_tween iT w' =
      match icon with
      | Some _ => Some (S (List.length (tweens (eng w))))
      | None => stored_tween iT w
      end /\
    (forall id,
       stored_tween bT w = Some id \/ stored_tween iT w = Some id ->
       exists t, nth_error (tweens (eng w')) id = Some t /\
                 tw_killed t = true) /\
    nth_error (tweens (eng w')) (List.length (tweens (eng w))) =
      Some (tween_to (TElement (Some btn)) (fst vars)) /\
    (forall i, icon = Some i ->
               nth_error (tweens (eng w')) (S (List.length (tweens (eng w)))) =
               Some (tween_to (TElement (Some i)) (snd vars))) /\
    triggers (eng w') = triggers (eng w) /\
    listeners (rt w') = listeners (rt w) /\
    timers (rt w') = timers (rt w) /\
    dom w' = dom w /\ app w' = app w.
Proof.
  intros R I H.
  destruct (bound_button_cells w l btn icon bT iT
              (reachable_button_cells_ok w R) I H) as (Lb & Li & N).
  pose proof (reachable_handles_ok w R) as Hd.
  assert (G : gsap (ctl w) = true).
  { destruct (reachable_page_safe w R) as (C & _).
    apply (hover_bound_ready l w C I). destruct H as [H|H]; now rewrite H. }
  assert (V : exists vars,
            button_vars (l_handler l) = Some vars /\
            run_handler (l_handler l) =
            btn_hover (fst vars) (snd vars) btn icon bT iT).
  { destruct H as [H|H]; rewrite H; eexists; split; reflexivity. }
  destruct V as (vars & V & E). exists vars.
  destruct (btn_hover_run vars btn icon bT iT w G)
    as (w' & Ew & T & Hp & Tr & Ls & Tm & D & A & _).
  exists w'. split; [exact V|]. split; [now rewrite E|].
  split; [exact T|].
  assert (Lk : List.length
                 (kill_refs [stored_tween bT w; stored_tween iT w]
                            (tweens (eng w))) =
               List.length (tweens (eng w))) by apply length_kill_refs.
  split; [|split; [|split; [|split; [|split]]]].
  - unfold stored_tween. rewrite Hp. destruct icon.
    + rewrite nth_update_nth_other by congruence.
      now rewrite nth_update_nth_same by exact Lb.
    + now rewrite nth_update_nth_same by exact Lb.
  - unfold stored_tween at 1. rewrite Hp. destruct icon.
    + now rewrite nth_update_nth_same by (now rewrite length_update_nth).
    + now rewrite nth_update_nth_other by exact N.
  - intros id S.
    assert (L : id < List.length (tweens (eng w)))
      by (destruct S as [S|S]; exact (stored_handle_lt w _ id Hd S)).
    rewrite T. unfold button_step. rewrite nth_error_app1 by lia.
    destruct (nth_error (kill_refs [stored_tween bT w; stored_tween iT w]
                           (tweens (eng w))) id) as [t|] eqn:Q.
    + exists t. split; [reflexivity|].
      apply (kill_refs_kills [stored_tween bT w; stored_tween iT w]
               (tweens (eng w)) id); [|exact Q].
      destruct S as [S|S]; rewrite <- S; cbn; auto.
    + apply nth_error_None in Q. lia.
  - rewrite T. unfold button_step. rewrite nth_error_app2 by lia.
    rewrite Lk, Nat.sub_diag. reflexivity.
  - intros i ->. rewrite T. unfold button_step.
    rewrite nth_error_app2 by lia.
    rewrite Lk. replace (S (List.length (tweens (eng w))) -
                         List.length (tweens (eng w))) with 1 by lia.
    reflexivity.
  - repeat split; assumption.
Qed.

(** ** Further instances on the sample page *)

(** The libraries load 250 ms after the script has started: the loader
    finds them at its fourth look, at 300 ms. *)
Lemma engine_found_while_polling_witness :
  exists wf,
    advance 3 1000 (snd (initialize (sample_world (Some 250%Z) false))) =
      Some wf /\
    invocation_times wf = [300%Z] /\
    isInitialized (ctl wf) = true /\
    head (dom wf) = [] /\
    timers (rt wf) = [].
Proof.
  assert (K : (0 <= 3 <= 49)%Z) by lia.
  assert (A : forall i, (0 <= i < 3)%Z ->
                detected_at (env (sample_world (Some 250%Z) false))
                  (clock (sample_world (Some 250%Z) false) + 100 * i) =
                false).
  { intros i Hi. unfold detected_at. cbn [sample_world initial_world env
      sample_env globals g_gsap g_ScrollTrigger clock now].
    assert (E : (250 <=? 0 + 100 * i)%Z = false) by (apply Z.leb_gt; lia).
    rewrite E. reflexivity. }
  destruct (engine_found_while_polling (sample_world (Some 250%Z) false) 3
              eq_refl K A eq_refl) as (H & _).
  assert (L : (clock (sample_world (Some 250%Z) false) + 100 * 3 <= 1000)%Z)
    by (apply Z.leb_le; reflexivity).
  destruct (H 3 1000%Z (le_n 3) L) as (wf & E & I & C & Hd & T).
  exists wf. split; [exact E|]. split; [exact I|].
  split; [exact C|]. split; [exact Hd | exact T].
Defined.

(** The libraries load 4950 ms after the script has started, after the
    last look of the loader: the page stays on the fallback stylesheet. *)
Lemma engine_is_looked_for_fifty_times_witness :
  exists wf,
    advance_with onReady 49 6000
      (snd (waitForGSAP onReady (sample_world (Some 4950%Z) false))) =
      Some wf /\
    head (dom wf) = [StyleElement fallbackCSS] /\
    invocation_times wf = [] /\
    timers (rt wf) = [].
Proof.
  assert (A : forall i, (0 <= i < 50)%Z ->
                detected_at (env (sample_world (Some 4950%Z) false))
                  (clock (sample_world (Some 4950%Z) false) + 100 * i) =
                false).
  { intros i Hi. unfold detected_at. cbn [sample_world initial_world env
      sample_env globals g_gsap g_ScrollTrigger clock now].
    assert (E : (4950 <=? 0 + 100 * i)%Z = false) by (apply Z.leb_gt; lia).
    rewrite E. reflexivity. }
  assert (L : (clock (sample_world (Some 4950%Z) false) + 4900 <= 6000)%Z)
    by (apply Z.leb_le; reflexivity).
  destruct (engine_is_looked_for_fifty_times onReady
              (sample_world (Some 4950%Z) false) eq_refl A
              49 6000%Z (le_n 49) L) as (wf & E & Hd & I & T & _).
  exists wf. split; [exact E|]. split; [exact Hd|]. split; [exact I|exact T].
Defined.

(** The loaded sample page with the pointer on the first card. *)
Lemma only_link_clicks_can_throw_witness :
  (forall x, In x (uncaught (deliver (MouseEnter 12) loaded_page)) ->
             is_syntax_error x = true) /\
  (forall l, In l (listeners (rt (deliver (MouseEnter 12) loaded_page))) ->
             is_hover (l_handler l) = true ->
             gsap (ctl (deliver (MouseEnter 12) loaded_page)) = true).
Proof.
  destruct (only_link_clicks_can_throw (deliver (MouseEnter 12) loaded_page)
              (reach_deliver _ _ (reach_load _ _))) as (A & B & _).
  split; [exact A | exact B].
Defined.

(** The link of the sample page, element 5, points to ["#work"]; the
    element with that id is the first card, element 12. *)
Lemma click_on_in_page_link_witness :
  exists w',
    anchor_click 5 (sample_world (Some 0%Z) false) = (Ok tt, w') /\
    scrollIntoView (app w') = [12].
Proof.
  destruct (click_on_in_page_link 5 (sample_world (Some 0%Z) false)
              {| tag := "a"; classes := ["btn"]; parent := Some 1;
                 nodeId := None; href := Some "#work" |} "work"
              eq_refl eq_refl) as (_ & H).
  destruct (H eq_refl) as (w' & E & S & _).
  exists w'. split; [exact E|].
  unfold state_of in S. injection S as _ _ _ _ S. rewrite S. reflexivity.
Defined.

(** [init] on the sample page with the libraries loaded. *)
Lemma init_goes_through_every_step_witness :
  exists w',
    init (sample_world (Some 0%Z) false) = (Ok tt, w') /\
    isInitialized (ctl w') = true /\
    entered (sample_world (Some 0%Z) false) w' =
      "init" :: "prefersReducedMotion" :: setup_steps false.
Proof.
  destruct (init_goes_through_every_step (sample_world (Some 0%Z) false)
              eq_refl eq_refl) as (w' & E & I & S & _).
  exists w'. split; [exact E|]. split; [exact I | exact S].
Defined.

(** The loaded sample page has been set up once. *)
Lemma setup_runs_once_and_completely_witness :
  setup_log loaded_page = ["initSimpleAnimations"] \/
  setup_log loaded_page =
    ["initFullAnimations"; "setInitialStates"; "animateHero";
     "animateSections"; "animateCards"; "animateButtons";
     "animateFloatingElements"; "initHeaderScrollEffect";
     "animatePhilosophySection"].
Proof.
  assert (I : isInitialized (ctl loaded_page) = true)
    by (vm_compute; reflexivity).
  exact (proj2 (setup_runs_once_and_completely loaded_page (reach_load _ _))
               I).
Defined.

(** [init] on the sample page when the libraries never load. *)
Lemma init_before_the_engine_is_there_witness :
  exists msg w',
    init (sample_world None false) = (Throw (TypeError msg), w') /\
    isInitialized (ctl w') = false /\
    entered (sample_world None false) w' = ["init"].
Proof.
  destruct (init_before_the_engine_is_there (sample_world None false)
              eq_refl eq_refl) as (msg & w' & E & I & _ & _ & _ & _ & En & _).
  exists msg, w'. split; [exact E|]. split; [exact I | exact En].
Defined.


(** [astro:page-load] and then a resize on the loaded sample page. *)
Lemma page_load_refresh_is_never_cancelled_witness :
  timers (rt (deliver AstroPageLoad loaded_page)) =
    timers (rt loaded_page) ++ [page_load_timer loaded_page] /\
  In (page_load_timer loaded_page)
     (timers (rt (deliver Resize (deliver AstroPageLoad loaded_page)))).
Proof.
  destruct (page_load_refresh_is_never_cancelled loaded_page
              (reach_load _ _)) as (A & B & _).
  split; [exact A | exact B].
Defined.

(** The loaded sample page after a scroll and a click on its link. *)
Lemma top_level_listeners_stay_bound_witness :
  listeners_for OnWindow "resize"
    (deliver (Click 5) (deliver (Scroll 80) loaded_page)) = [HResize] /\
  listeners_for OnWindow "beforeunload"
    (deliver (Click 5) (deliver (Scroll 80) loaded_page)) =
    [HBeforeUnload] /\
  listeners_for OnDocument "astro:page-load"
    (deliver (Click 5) (deliver (Scroll 80) loaded_page)) =
    [HAstroPageLoad].
Proof.
  destruct (top_level_listeners_stay_bound
              (deliver (Click 5) (deliver (Scroll 80) loaded_page))
              (reach_deliver _ _ (reach_deliver _ _ (reach_load _ _))))
    as (A & B & C & _).
  split; [exact A|]. split; [exact B | exact C].
Defined.

(** The sample page while the loader is still polling. *)
Lemma nothing_animates_before_init_witness :
  gsap (ctl waiting_page) = false /\
  tweens (eng waiting_page) = [] /\
  triggers (eng waiting_page) = [] /\
  forall l, In l (listeners (rt waiting_page)) ->
            is_hover (l_handler l) = false.
Proof.
  assert (I : isInitialized (ctl waiting_page) = false)
    by (vm_compute; reflexivity).
  exact (proj1 (nothing_animates_before_init waiting_page (reach_load _ _))
               I).
Defined.

(** The script loaded while the sample page is being parsed, with the
    libraries already there: [DOMContentLoaded] starts the setup. *)
Lemma loader_waits_for_the_document_witness :
  listeners (rt (set_clock 40 (task main
                   (initial_world loading_env sample_page)))) =
    waiting_listeners /\
  exists wf,
    deliver DOMContentLoaded
      (set_clock 40 (task main (initial_world loading_env sample_page))) =
      wf /\
    invocation_times wf = [40%Z] /\
    isInitialized (ctl wf) = true.
Proof.
  destruct (loader_waits_for_the_document loading_env sample_page eq_refl)
    as (A & B).
  split; [exact (proj1 (proj2 (A 40%Z)))|].
  assert (L : (now loading_env <= 40)%Z) by (apply Z.leb_le; reflexivity).
  destruct (B 40%Z L eq_refl) as (wf & E & I & C & _).
  exists wf. split; [exact E|]. split; [exact I | exact C].
Defined.

(** The loaded sample page unloaded: [init] still does nothing. *)
Lemma cleanup_is_no_reset_witness :
  fst (cleanup loaded_page) = Ok tt /\
  fst (init (snd (cleanup loaded_page))) = Ok tt /\
  state_of (snd (init (snd (cleanup loaded_page)))) =
    state_of (snd (cleanup loaded_page)).
Proof.
  assert (I : isInitialized (ctl loaded_page) = true)
    by (vm_compute; reflexivity).
  destruct (cleanup_is_no_reset loaded_page)
    as (A & _ & _ & _ & _ & _ & _ & _ & _ & H).
  split; [exact A | exact (H I)].
Defined.



(** The pointer enters the button of the loaded sample page, element 5 with
    the icon 6; its listener holds its tweens in the cells 3 and 4. *)
Lemma button_hover_replaces_its_tweens_witness :
  exists w',
    run_handler (HBtnEnter 5 (Some 6) 3 4) loaded_page = (Ok tt, w') /\
    stored_tween 3 w' = Some (List.length (tweens (eng loaded_page))) /\
    stored_tween 4 w' = Some (S (List.length (tweens (eng loaded_page)))).
Proof.
  assert (I : In {| l_target := OnElem 5; l_type := "mouseenter";
                    l_handler := HBtnEnter 5 (Some 6) 3 4 |}
                 (listeners (rt loaded_page)))
    by (vm_compute; do 4 right; left; reflexivity).
  destruct (button_hover_replaces_its_tweens loaded_page _ 5 (Some 6) 3 4
              (reach_load _ _) I (or_introl eq_refl))
    as (vars & w' & _ & E & _ & B & J & _).
  exists w'. split; [exact E|]. split; [exact B | exact J].
Defined.
